(** * The analytics engine of the admin dashboard

    A shallow embedding of the [analytics] memo of the AdminDashboard
    component (the block between "ANALYTICS ENGINE" and "DRIVER HANDLERS"),
    together with the properties its specification states.

    Conventions of the embedding.
    - A JavaScript number is [number]: either [NaN] or an exact rational.
      The range and the rounding of binary64 are not part of the model, so
      the arithmetic below is the exact one.  Integer-valued counters
      ([trips], [count], array lengths) are integers.
    - A field that may be absent at run time is an [option]; [None] is
      [undefined].
    - A [Date] is its time value: milliseconds since the epoch, or [None]
      for an invalid date.
    - A plain object used as a dictionary is [JSObject]: its own properties
      in creation order.  Properties inherited from [Object.prototype] are
      not modelled.
    - The block is embedded twice: as the function [analytics] of the values
      it reads, and as the program [analytics_run] on a store of arrays and
      objects, where [sort], [reverse] and property writes change a cell in
      place.  The program is shown to compute the function. *)

From Stdlib Require Import String Ascii Bool Arith ZArith QArith Qround Qabs Lia Lqa List.
From Stdlib Require Import Sorting.Sorted Sorting.Permutation.
Import ListNotations.

Local Open Scope string_scope.
Local Open Scope Z_scope.
Local Open Scope list_scope.

(** ** Numbers *)

Inductive number : Type :=
| NaN
| Fin (q : Q).

Definition Zero : number := Fin 0.

(** [a + b], [a - b], [a * b] and [a / b] ([b] is never zero where the engine
    divides). *)
Definition num_add (a b : number) : number :=
  match a, b with
  | Fin x, Fin y => Fin (x + y)
  | _, _ => NaN
  end.

Definition num_sub (a b : number) : number :=
  match a, b with
  | Fin x, Fin y => Fin (x - y)
  | _, _ => NaN
  end.

Definition num_mul (a b : number) : number :=
  match a, b with
  | Fin x, Fin y => Fin (x * y)
  | _, _ => NaN
  end.

Definition num_div (a b : number) : number :=
  match a, b with
  | Fin x, Fin y => Fin (x / y)
  | _, _ => NaN
  end.

(** [Math.round]: the nearest integer, a tie going towards plus infinity. *)
Definition round_half_up (x : Q) : Z := Qfloor (x + (1 # 2)).

Definition Math_round (a : number) : number :=
  match a with
  | Fin x => Fin (inject_Z (round_half_up x))
  | NaN => NaN
  end.

(** [Number(v)] of a field that holds a number or is missing. *)
Definition Number (v : option number) : number :=
  match v with
  | Some n => n
  | None => NaN
  end.

(** Truthiness of a number: [NaN] and zero are falsy. *)
Definition truthy_num (a : number) : bool :=
  match a with
  | NaN => false
  | Fin x => negb (Qeq_bool x 0)
  end.

(** [a || b] on numbers. *)
Definition num_or (a b : number) : number :=
  if truthy_num a then a else b.

(** Numeric equality as a proposition. *)
Definition num_eq (a b : number) : Prop :=
  match a, b with
  | Fin x, Fin y => (x == y)%Q
  | _, _ => False
  end.

Definition is_Fin (a : number) : Prop :=
  match a with
  | Fin _ => True
  | NaN => False
  end.

(** ** Strings that may be missing *)

(** Truthiness of a string field: [undefined] and the empty string are
    falsy.  The result is the string when it is truthy. *)
Definition truthy_str (s : option string) : option string :=
  match s with
  | Some EmptyString => None
  | Some t => Some t
  | None => None
  end.

(** [s || d] for a string field. *)
Definition str_or (s : option string) (d : string) : string :=
  match truthy_str s with
  | Some t => t
  | None => d
  end.

(** ** Dates *)

Definition TimeValue : Type := option Z.

Definition msPerDay : Z := 86400000.

(** The largest magnitude of a time value. *)
Definition maxTime : Z := 8640000000000000.

Definition TimeClip (t : Z) : TimeValue :=
  if Z.abs t <=? maxTime then Some t else None.

(** [new Date(v)], [v] being the number the argument converts to. *)
Definition newDate (v : option Z) : TimeValue :=
  match v with
  | Some t => TimeClip t
  | None => None
  end.

Definition Day (t : Z) : Z := t / msPerDay.

(** Year, month (1 to 12) and day of the month (1 to 31) of a day number
    counted from 1 January 1970, in the proleptic Gregorian calendar. *)
Definition civil_from_days (days : Z) : Z * Z * Z :=
  let z := days + 719468 in
  let era := z / 146097 in
  let doe := z - era * 146097 in
  let yoe := (doe - doe / 1460 + doe / 36524 - doe / 146096) / 365 in
  let y := yoe + era * 400 in
  let doy := doe - (365 * yoe + yoe / 4 - yoe / 100) in
  let mp := (5 * doy + 2) / 153 in
  let d := doy - (153 * mp + 2) / 5 + 1 in
  let m := if mp <? 10 then mp + 3 else mp - 9 in
  (if m <=? 2 then y + 1 else y, m, d).

Definition YearFromTime (t : Z) : Z :=
  let '(y, _, _) := civil_from_days (Day t) in y.

(** Months are numbered from 0, as [getMonth] does. *)
Definition MonthFromTime (t : Z) : Z :=
  let '(_, m, _) := civil_from_days (Day t) in m - 1.

Definition DateFromTime (t : Z) : Z :=
  let '(_, _, d) := civil_from_days (Day t) in d.

(** [a === b] on the result of a date getter, [None] being [NaN]. *)
Definition field_eqb (a b : option Z) : bool :=
  match a, b with
  | Some x, Some y => x =? y
  | _, _ => false
  end.

(** [a >= b] on two dates. *)
Definition date_geb (a b : TimeValue) : bool :=
  match a, b with
  | Some x, Some y => y <=? x
  | _, _ => false
  end.

(** ** Records of the data model *)

Record Booking : Type := mkBooking {
  createdAt : option Z;          (* what [new Date] reads: a timestamp, or no date *)
  status : string;
  numericPrice : option number;
  driverId : option string;
  driverName : option string;
  tourTitle : option string
}.

Record Driver : Type := mkDriver {
  driver_id : string;
  driver_status : string
}.

Record SystemSettings : Type := mkSettings {
  commissionRate : option number
}.

Inductive TimeRange : Type := TODAY | WEEK | MONTH | ALL.

(** ** Objects used as dictionaries *)

Section JSObject.
Context {V : Type}.

(** Own properties, oldest first. *)
Definition JSObject : Type := list (string * V).

Fixpoint get (o : JSObject) (k : string) : option V :=
  match o with
  | [] => None
  | (k', v) :: rest => if String.eqb k' k then Some v else get rest k
  end.

(** [o[k] = v]: an existing property keeps its place, a new one goes
    last. *)
Fixpoint set (o : JSObject) (k : string) (v : V) : JSObject :=
  match o with
  | [] => [(k, v)]
  | (k', v') :: rest =>
      if String.eqb k' k then (k', v) :: rest else (k', v') :: set rest k v
  end.

(** The in-place change [o[k].f = ...] of the record held at [k]. *)
Fixpoint update (o : JSObject) (k : string) (f : V -> V) : JSObject :=
  match o with
  | [] => []
  | (k', v') :: rest =>
      if String.eqb k' k then (k', f v') :: rest else (k', v') :: update rest k f
  end.
End JSObject.

Arguments JSObject V : clear implicits.

(** ** The order in which an object's properties are enumerated

    [Object.values] and [Object.entries] list the properties whose key is
    an array index first, by ascending index, and then the remaining ones in
    creation order. *)

Definition digit_of (c : ascii) : option N :=
  let n := N_of_ascii c in
  if ((48 <=? n) && (n <=? 57))%N then Some (n - 48)%N else None.

Fixpoint digits_value (s : string) (acc : N) : option N :=
  match s with
  | EmptyString => Some acc
  | String c rest =>
      match digit_of c with
      | Some d => digits_value rest (10 * acc + d)%N
      | None => None
      end
  end.

(** A key is an array index when it is the decimal form, without leading
    zeros, of an integer below 2^32 - 1. *)
Definition array_index (s : string) : option N :=
  match s with
  | EmptyString => None
  | String "0"%char EmptyString => Some 0%N
  | String "0"%char _ => None
  | _ =>
      match digits_value s 0%N with
      | Some n => if (n <=? 4294967294)%N then Some n else None
      | None => None
      end
  end.

Definition is_index (s : string) : bool :=
  match array_index s with
  | Some _ => true
  | None => false
  end.

Definition index_of (s : string) : N :=
  match array_index s with
  | Some n => n
  | None => 0%N
  end.

Section Enumeration.
Context {V : Type}.

Fixpoint insert_by_index (e : string * V) (l : list (string * V)) : list (string * V) :=
  match l with
  | [] => [e]
  | e' :: rest =>
      if (index_of (fst e) <=? index_of (fst e'))%N
      then e :: e' :: rest
      else e' :: insert_by_index e rest
  end.

Definition sort_by_index (l : list (string * V)) : list (string * V) :=
  fold_right insert_by_index [] l.

Definition Object_entries (o : JSObject V) : list (string * V) :=
  sort_by_index (filter (fun e => is_index (fst e)) o)
    ++ filter (fun e => negb (is_index (fst e))) o.

Definition Object_values (o : JSObject V) : list V :=
  map snd (Object_entries o).
End Enumeration.

(** ** Arrays *)

Section ArraySort.
Context {A : Type}.
Variable comparefn : A -> A -> number.

(** The value the sort reads off the comparator: [NaN] counts as zero. *)
Definition SortCompare (x y : A) : Q :=
  match comparefn x y with
  | Fin v => v
  | NaN => 0%Q
  end.

Fixpoint sort_insert (x : A) (l : list A) : list A :=
  match l with
  | [] => [x]
  | y :: rest =>
      if Qle_bool (SortCompare x y) 0
      then x :: y :: rest
      else y :: sort_insert x rest
  end.

(** [Array.prototype.sort]: a stable sort, here by insertion.  An element
    moves behind another one only when the comparator is positive. *)
Fixpoint Array_sort (l : list A) : list A :=
  match l with
  | [] => []
  | x :: rest => sort_insert x (Array_sort rest)
  end.
End ArraySort.

(** [a.slice(0, n)]. *)
Definition slice0 {A : Type} (n : nat) (a : list A) : list A := firstn n a.

(** ** The result of the engine *)

Record DriverStat : Type := mkDriverStat {
  name : string;
  trips : Z;
  revenue : number
}.

Record RouteStat : Type := mkRouteStat {
  route : string;         (* the property [name] of a route entry *)
  count : Z
}.

Record TrendPoint : Type := mkTrendPoint {
  date : string;
  amount : option number
}.

Module Summary.
Record t : Type := mk {
  totalBookings : nat;
  confirmedCount : nat;
  pendingCount : nat;
  cancelledCount : nat;
  totalGross : number;
  totalCommission : number;
  netRevenue : number;
  aov : number;
  topDrivers : list DriverStat;
  topRoutes : list RouteStat;
  trendData : list TrendPoint;
  activeDrivers : nat;
  pendingDrivers : nat
}.
End Summary.

(** ** The engine *)

Definition week_ms : Z := 7 * 24 * 60 * 60 * 1000.
Definition month_ms : Z := 30 * 24 * 60 * 60 * 1000.

Definition is_confirmed (b : Booking) : bool :=
  String.eqb (status b) "CONFIRMED" || String.eqb (status b) "COMPLETED".

Definition is_pending (b : Booking) : bool := String.eqb (status b) "PENDING".

Definition is_cancelled (b : Booking) : bool := String.eqb (status b) "CANCELLED".

Definition confirmed (filteredBookings : list Booking) : list Booking :=
  filter is_confirmed filteredBookings.

Definition pending (filteredBookings : list Booking) : list Booking :=
  filter is_pending filteredBookings.

Definition cancelled (filteredBookings : list Booking) : list Booking :=
  filter is_cancelled filteredBookings.

(** [Number(b.numericPrice) || 0]. *)
Definition price_or_zero (b : Booking) : number :=
  num_or (Number (numericPrice b)) Zero.

Definition totalGross (confirmed : list Booking) : number :=
  fold_left (fun sum b => num_add sum (price_or_zero b)) confirmed Zero.

Definition default_rate : number := Fin (13 # 100).

Definition commission (settings : option SystemSettings) : number :=
  match settings with
  | Some s =>
      match commissionRate s with
      | Some r => r
      | None => default_rate
      end
  | None => default_rate
  end.

Definition totalCommission (totalGross commission : number) : number :=
  Math_round (num_mul totalGross commission).

Definition netRevenue (totalGross totalCommission : number) : number :=
  num_sub totalGross totalCommission.

Definition num_of_nat (n : nat) : number := Fin (inject_Z (Z.of_nat n)).

Definition aov (totalGross : number) (confirmed : list Booking) : number :=
  if (0 <? length confirmed)%nat
  then Math_round (num_div totalGross (num_of_nat (length confirmed)))
  else Zero.

(** One round of the loop that fills [driverPerformance]. *)
Definition driver_step (driverPerformance : JSObject DriverStat) (b : Booking)
  : JSObject DriverStat :=
  match truthy_str (driverId b), truthy_str (driverName b) with
  | Some id, Some nm =>
      let dp0 :=
        match get driverPerformance id with
        | None => set driverPerformance id (mkDriverStat nm 0 Zero)
        | Some _ => driverPerformance
        end in
      let dp1 :=
        update dp0 id (fun d => mkDriverStat (name d) (trips d + 1) (revenue d)) in
      update dp1 id
        (fun d => mkDriverStat (name d) (trips d) (num_add (revenue d) (price_or_zero b)))
  | _, _ => driverPerformance
  end.

Definition driverPerformance (confirmed : list Booking) : JSObject DriverStat :=
  fold_left driver_step confirmed [].

Definition by_revenue (a b : DriverStat) : number := num_sub (revenue b) (revenue a).

Definition topDrivers (confirmed : list Booking) : list DriverStat :=
  slice0 5 (Array_sort by_revenue (Object_values (driverPerformance confirmed))).

(** [routePopularity[title] || 0]. *)
Definition count_or_zero (c : option Z) : Z :=
  match c with
  | Some n => n
  | None => 0
  end.

Definition route_step (routePopularity : JSObject Z) (b : Booking) : JSObject Z :=
  let title := str_or (tourTitle b) "Custom" in
  set routePopularity title (count_or_zero (get routePopularity title) + 1).

Definition routePopularity (filteredBookings : list Booking) : JSObject Z :=
  fold_left route_step filteredBookings [].

Definition by_count (a b : RouteStat) : number :=
  Fin (inject_Z (count b - count a)).

Definition topRoutes (filteredBookings : list Booking) : list RouteStat :=
  slice0 5
    (Array_sort by_count
       (map (fun e => mkRouteStat (fst e) (snd e))
            (Object_entries (routePopularity filteredBookings)))).

Section Engine.
(** The host: the offset of local time from UTC at a given instant, and the
    rendering of a date as day and short month in the en-GB locale. *)
Variable LocalTZA : Z -> Z.
Variable toLocaleDateString : TimeValue -> string.

Definition LocalTime (t : Z) : Z := t + LocalTZA t.

Definition getDate (d : TimeValue) : option Z :=
  option_map (fun t => DateFromTime (LocalTime t)) d.

Definition getMonth (d : TimeValue) : option Z :=
  option_map (fun t => MonthFromTime (LocalTime t)) d.

Definition getFullYear (d : TimeValue) : option Z :=
  option_map (fun t => YearFromTime (LocalTime t)) d.

(** The callback of the first filter; [now] is the time value of
    [new Date()]. *)
Definition in_time_range (now : Z) (timeRange : TimeRange) (b : Booking) : bool :=
  let bookingDate := newDate (createdAt b) in
  match timeRange with
  | ALL => true
  | TODAY =>
      field_eqb (getDate bookingDate) (getDate (Some now))
      && field_eqb (getMonth bookingDate) (getMonth (Some now))
      && field_eqb (getFullYear bookingDate) (getFullYear (Some now))
  | WEEK =>
      let weekAgo := newDate (Some (now - week_ms)) in
      date_geb bookingDate weekAgo
  | MONTH =>
      let monthAgo := newDate (Some (now - month_ms)) in
      date_geb bookingDate monthAgo
  end.

Definition filteredBookings (now : Z) (timeRange : TimeRange)
    (bookings : list Booking) : list Booking :=
  filter (in_time_range now timeRange) bookings.

Definition trend_point (b : Booking) : TrendPoint :=
  mkTrendPoint (toLocaleDateString (newDate (createdAt b))) (numericPrice b).

Definition trendData (confirmed : list Booking) : list TrendPoint :=
  rev (map trend_point (slice0 10 confirmed)).

Definition analytics (now : Z) (bookings : list Booking) (drivers : list Driver)
    (settings : option SystemSettings) (timeRange : TimeRange) : Summary.t :=
  let filteredBookings := filteredBookings now timeRange bookings in
  let confirmed := confirmed filteredBookings in
  let pending := pending filteredBookings in
  let cancelled := cancelled filteredBookings in
  let totalGross := totalGross confirmed in
  let commission := commission settings in
  let totalCommission := totalCommission totalGross commission in
  let netRevenue := netRevenue totalGross totalCommission in
  let aov := aov totalGross confirmed in
  let topDrivers := topDrivers confirmed in
  let topRoutes := topRoutes filteredBookings in
  let trendData := trendData confirmed in
  Summary.mk
    (length filteredBookings)
    (length confirmed)
    (length pending)
    (length cancelled)
    totalGross
    totalCommission
    netRevenue
    aov
    topDrivers
    topRoutes
    trendData
    (length (filter (fun d => String.eqb (driver_status d) "ACTIVE") drivers))
    (length (filter (fun d => String.eqb (driver_status d) "PENDING") drivers)).
End Engine.

(** A host for examples: UTC, months by their English short names. *)
Definition utc : Z -> Z := fun _ => 0.

Definition short_month (m : Z) : string :=
  match m with
  | 0 => "Jan" | 1 => "Feb" | 2 => "Mar" | 3 => "Apr" | 4 => "May" | 5 => "Jun"
  | 6 => "Jul" | 7 => "Aug" | 8 => "Sep" | 9 => "Oct" | 10 => "Nov" | _ => "Dec"
  end.

Definition digit_char (d : Z) : string :=
  String (ascii_of_N (Z.to_N (48 + d))) EmptyString.

Definition day_string (d : Z) : string :=
  if d <? 10 then digit_char d
  else String.append (digit_char (d / 10)) (digit_char (d mod 10)).

Definition utc_day_month (d : TimeValue) : string :=
  match d with
  | Some t =>
      String.append (day_string (DateFromTime t))
        (String.append " " (short_month (MonthFromTime t)))
  | None => "Invalid Date"
  end.


(** ** The engine as a program on a store

    The same block once more, with the arrays and objects it reads and creates
    as cells of a store.  [filter], [map], [slice], [Object.values] and
    [Object.entries] create an array; [sort] and [reverse] change the array
    they are called on and return it; writing a property changes the object
    it is written to.  A booking, a driver or a result entry is a value in
    the cell of its array: the block never writes to one after storing it. *)

Definition ref : Type := nat.

Inductive cell : Type :=
| BookingArray (a : list Booking)
| DriverArray (a : list Driver)
| SettingsRecord (s : SystemSettings)
| DriverDict (o : JSObject DriverStat)
| RouteDict (o : JSObject Z)
| DriverStatArray (a : list DriverStat)
| EntryArray (a : list (string * Z))
| RouteStatArray (a : list RouteStat)
| TrendArray (a : list TrendPoint).

Definition store : Type := list cell.

(** A computation changes the store and returns a value, or stops with a
    type error. *)
Definition M (A : Type) : Type := store -> option (A * store).

Definition ret {A : Type} (a : A) : M A := fun s => Some (a, s).

Definition bind {A B : Type} (m : M A) (k : A -> M B) : M B :=
  fun s =>
    match m s with
    | Some (a, s') => k a s'
    | None => None
    end.

Notation "x <- m ;; k" := (bind m (fun x => k))
  (at level 61, m at next level, right associativity).

(** The kinds of cells: how a content of type [A] sits in a cell. *)
Record shape (A : Type) : Type := mkShape {
  wrap : A -> cell;
  unwrap : cell -> option A;
  unwrap_wrap : forall a, unwrap (wrap a) = Some a
}.

Arguments wrap {A} _ _.
Arguments unwrap {A} _ _.
Arguments unwrap_wrap {A} _ _.

Definition bookingArray : shape (list Booking) :=
  mkShape _ BookingArray
    (fun c => match c with BookingArray a => Some a | _ => None end)
    (fun a => eq_refl).

Definition driverArray : shape (list Driver) :=
  mkShape _ DriverArray
    (fun c => match c with DriverArray a => Some a | _ => None end)
    (fun a => eq_refl).

Definition settingsRecord : shape SystemSettings :=
  mkShape _ SettingsRecord
    (fun c => match c with SettingsRecord a => Some a | _ => None end)
    (fun a => eq_refl).

Definition driverDict : shape (JSObject DriverStat) :=
  mkShape _ DriverDict
    (fun c => match c with DriverDict a => Some a | _ => None end)
    (fun a => eq_refl).

Definition routeDict : shape (JSObject Z) :=
  mkShape _ RouteDict
    (fun c => match c with RouteDict a => Some a | _ => None end)
    (fun a => eq_refl).

Definition driverStatArray : shape (list DriverStat) :=
  mkShape _ DriverStatArray
    (fun c => match c with DriverStatArray a => Some a | _ => None end)
    (fun a => eq_refl).

Definition entryArray : shape (list (string * Z)) :=
  mkShape _ EntryArray
    (fun c => match c with EntryArray a => Some a | _ => None end)
    (fun a => eq_refl).

Definition routeStatArray : shape (list RouteStat) :=
  mkShape _ RouteStatArray
    (fun c => match c with RouteStatArray a => Some a | _ => None end)
    (fun a => eq_refl).

Definition trendArray : shape (list TrendPoint) :=
  mkShape _ TrendArray
    (fun c => match c with TrendArray a => Some a | _ => None end)
    (fun a => eq_refl).

Fixpoint replace_nth (n : nat) (c : cell) (s : store) : store :=
  match s, n with
  | [], _ => []
  | _ :: rest, O => c :: rest
  | c' :: rest, S m => c' :: replace_nth m c rest
  end.

Definition load {A : Type} (K : shape A) (r : ref) : M A :=
  fun s =>
    match nth_error s r with
    | Some c =>
        match unwrap K c with
        | Some a => Some (a, s)
        | None => None
        end
    | None => None
    end.

Definition alloc {A : Type} (K : shape A) (a : A) : M ref :=
  fun s => Some (length s, s ++ [wrap K a]).

Definition store_at {A : Type} (K : shape A) (r : ref) (a : A) : M unit :=
  fun s => if (r <? length s)%nat then Some (tt, replace_nth r (wrap K a) s) else None.

(** *** Array and object methods *)

Definition Array_filter {A : Type} (K : shape (list A)) (p : A -> bool) (r : ref) : M ref :=
  a <- load K r ;; alloc K (filter p a).

Definition Array_map {A B : Type} (K : shape (list A)) (K' : shape (list B))
    (f : A -> B) (r : ref) : M ref :=
  a <- load K r ;; alloc K' (map f a).

Definition Array_slice0 {A : Type} (K : shape (list A)) (n : nat) (r : ref) : M ref :=
  a <- load K r ;; alloc K (firstn n a).

Definition Array_length {A : Type} (K : shape (list A)) (r : ref) : M nat :=
  a <- load K r ;; ret (length a).

Definition Array_reduce {A B : Type} (K : shape (list A)) (f : B -> A -> B) (init : B)
    (r : ref) : M B :=
  a <- load K r ;; ret (fold_left f a init).

(** [a.sort(comparefn)] sorts [a] itself and returns it. *)
Definition Array_sort_in_place {A : Type} (K : shape (list A))
    (comparefn : A -> A -> number) (r : ref) : M ref :=
  a <- load K r ;; _ <- store_at K r (Array_sort comparefn a) ;; ret r.

(** [a.reverse()] reverses [a] itself and returns it. *)
Definition Array_reverse {A : Type} (K : shape (list A)) (r : ref) : M ref :=
  a <- load K r ;; _ <- store_at K r (rev a) ;; ret r.

Fixpoint forEach_loop {A : Type} (body : A -> M unit) (a : list A) : M unit :=
  match a with
  | [] => ret tt
  | x :: rest => _ <- body x ;; forEach_loop body rest
  end.

Definition Array_forEach {A : Type} (K : shape (list A)) (body : A -> M unit) (r : ref)
  : M unit :=
  a <- load K r ;; forEach_loop body a.

Definition prop_get {V : Type} (K : shape (JSObject V)) (r : ref) (k : string)
  : M (option V) :=
  o <- load K r ;; ret (get o k).

Definition prop_set {V : Type} (K : shape (JSObject V)) (r : ref) (k : string) (v : V)
  : M unit :=
  o <- load K r ;; store_at K r (set o k v).

Definition prop_update {V : Type} (K : shape (JSObject V)) (r : ref) (k : string)
    (f : V -> V) : M unit :=
  o <- load K r ;; store_at K r (update o k f).

Definition values_of {V : Type} (K : shape (JSObject V)) (K' : shape (list V)) (r : ref)
  : M ref :=
  o <- load K r ;; alloc K' (Object_values o).

Definition entries_of {V : Type} (K : shape (JSObject V)) (K' : shape (list (string * V)))
    (r : ref) : M ref :=
  o <- load K r ;; alloc K' (Object_entries o).

(** *** The block *)

(** The callback of the loop over the confirmed bookings. *)
Definition driver_body (driverPerformance : ref) (b : Booking) : M unit :=
  match truthy_str (driverId b), truthy_str (driverName b) with
  | Some id, Some nm =>
      cur <- prop_get driverDict driverPerformance id ;;
      _ <- match cur with
           | None => prop_set driverDict driverPerformance id (mkDriverStat nm 0 Zero)
           | Some _ => ret tt
           end ;;
      _ <- prop_update driverDict driverPerformance id
             (fun d => mkDriverStat (name d) (trips d + 1) (revenue d)) ;;
      prop_update driverDict driverPerformance id
        (fun d => mkDriverStat (name d) (trips d) (num_add (revenue d) (price_or_zero b)))
  | _, _ => ret tt
  end.

(** The callback of the loop over the filtered bookings. *)
Definition route_body (routePopularity : ref) (b : Booking) : M unit :=
  let title := str_or (tourTitle b) "Custom" in
  cur <- prop_get routeDict routePopularity title ;;
  prop_set routeDict routePopularity title (count_or_zero cur + 1).

(** [settings?.commissionRate !== undefined ? settings.commissionRate : 0.13]. *)
Definition read_commission (settings : option ref) : M number :=
  match settings with
  | Some r =>
      s <- load settingsRecord r ;;
      ret (match commissionRate s with Some rate => rate | None => default_rate end)
  | None => ret default_rate
  end.

(** The returned object: figures, and the three arrays by reference. *)
Module Outcome.
Record t : Type := mk {
  totalBookings : nat;
  confirmedCount : nat;
  pendingCount : nat;
  cancelledCount : nat;
  totalGross : number;
  totalCommission : number;
  netRevenue : number;
  aov : number;
  topDrivers : ref;
  topRoutes : ref;
  trendData : ref;
  activeDrivers : nat;
  pendingDrivers : nat
}.
End Outcome.

Section Program.
Variable LocalTZA : Z -> Z.
Variable toLocaleDateString : TimeValue -> string.

Definition analytics_run (now : Z) (bookings drivers : ref) (settings : option ref)
    (timeRange : TimeRange) : M Outcome.t :=
  filteredBookings <-
    Array_filter bookingArray (in_time_range LocalTZA now timeRange) bookings ;;
  confirmed <- Array_filter bookingArray is_confirmed filteredBookings ;;
  pending <- Array_filter bookingArray is_pending filteredBookings ;;
  cancelled <- Array_filter bookingArray is_cancelled filteredBookings ;;
  totalGross <-
    Array_reduce bookingArray (fun sum b => num_add sum (price_or_zero b)) Zero confirmed ;;
  commission <- read_commission settings ;;
  let totalCommission := Math_round (num_mul totalGross commission) in
  let netRevenue := num_sub totalGross totalCommission in
  confirmed_length <- Array_length bookingArray confirmed ;;
  let aov :=
    if (0 <? confirmed_length)%nat
    then Math_round (num_div totalGross (num_of_nat confirmed_length))
    else Zero in
  driverPerformance <- alloc driverDict [] ;;
  _ <- Array_forEach bookingArray (driver_body driverPerformance) confirmed ;;
  values <- values_of driverDict driverStatArray driverPerformance ;;
  sorted_values <- Array_sort_in_place driverStatArray by_revenue values ;;
  topDrivers <- Array_slice0 driverStatArray 5 sorted_values ;;
  routePopularity <- alloc routeDict [] ;;
  _ <- Array_forEach bookingArray (route_body routePopularity) filteredBookings ;;
  entries <- entries_of routeDict entryArray routePopularity ;;
  routes <- Array_map entryArray routeStatArray
              (fun e => mkRouteStat (fst e) (snd e)) entries ;;
  sorted_routes <- Array_sort_in_place routeStatArray by_count routes ;;
  topRoutes <- Array_slice0 routeStatArray 5 sorted_routes ;;
  sliced <- Array_slice0 bookingArray 10 confirmed ;;
  points <- Array_map bookingArray trendArray (trend_point toLocaleDateString) sliced ;;
  trendData <- Array_reverse trendArray points ;;
  totalBookings <- Array_length bookingArray filteredBookings ;;
  confirmedCount <- Array_length bookingArray confirmed ;;
  pendingCount <- Array_length bookingArray pending ;;
  cancelledCount <- Array_length bookingArray cancelled ;;
  active <- Array_filter driverArray
              (fun d => String.eqb (driver_status d) "ACTIVE") drivers ;;
  activeDrivers <- Array_length driverArray active ;;
  waiting <- Array_filter driverArray
               (fun d => String.eqb (driver_status d) "PENDING") drivers ;;
  pendingDrivers <- Array_length driverArray waiting ;;
  ret (Outcome.mk totalBookings confirmedCount pendingCount cancelledCount
         totalGross totalCommission netRevenue aov
         topDrivers topRoutes trendData activeDrivers pendingDrivers).
End Program.

(** The returned object with its arrays read from the store. *)
Definition snapshot (s : store) (out : Outcome.t) : option Summary.t :=
  match nth_error s (Outcome.topDrivers out),
        nth_error s (Outcome.topRoutes out),
        nth_error s (Outcome.trendData out) with
  | Some (DriverStatArray ds), Some (RouteStatArray rs), Some (TrendArray ts) =>
      Some (Summary.mk
              (Outcome.totalBookings out) (Outcome.confirmedCount out)
              (Outcome.pendingCount out) (Outcome.cancelledCount out)
              (Outcome.totalGross out) (Outcome.totalCommission out)
              (Outcome.netRevenue out) (Outcome.aov out)
              ds rs ts
              (Outcome.activeDrivers out) (Outcome.pendingDrivers out))
  | _, _, _ => None
  end.

(** The settings the block reads: no object, or a record of the store. *)
Definition settings_at (s : store) (r : option ref) (settings : option SystemSettings)
  : Prop :=
  match r, settings with
  | None, None => True
  | Some p, Some v => nth_error s p = Some (SettingsRecord v)
  | _, _ => False
  end.

(** Every cell of [s] is in [s'], unchanged. *)
Definition preserved (s s' : store) : Prop :=
  forall r, (r < length s)%nat -> nth_error s' r = nth_error s r.


(** ** The specification's vocabulary

    The definitions of this part follow the words of the specification; the
    theorems compare them with the engine. *)

Section Windows.
Variable LocalTZA : Z -> Z.

(** Same year, month and day of the month, in local time. *)
Definition same_calendar_day (t now : Z) : Prop :=
  YearFromTime (LocalTime LocalTZA t) = YearFromTime (LocalTime LocalTZA now)
  /\ MonthFromTime (LocalTime LocalTZA t) = MonthFromTime (LocalTime LocalTZA now)
  /\ DateFromTime (LocalTime LocalTZA t) = DateFromTime (LocalTime LocalTZA now).

(** The creation timestamp of [b] satisfies the selector at time [now]. *)
Definition created_within (now : Z) (timeRange : TimeRange) (b : Booking) : Prop :=
  match timeRange with
  | ALL => True
  | TODAY => exists t, newDate (createdAt b) = Some t /\ same_calendar_day t now
  | WEEK => exists t, newDate (createdAt b) = Some t /\ now - 7 * (24 * 3600000) <= t
  | MONTH => exists t, newDate (createdAt b) = Some t /\ now - 30 * (24 * 3600000) <= t
  end.
End Windows.

(** *** The calendar, the other way round *)

(** The day number of a date of the proleptic Gregorian calendar. *)
Definition days_from_civil (y m d : Z) : Z :=
  let y' := if m <=? 2 then y - 1 else y in
  let era := y' / 400 in
  let yoe := y' - era * 400 in
  let mp := if 2 <? m then m - 3 else m + 9 in
  let doy := (153 * mp + 2) / 5 + d - 1 in
  let doe := yoe * 365 + yoe / 4 - yoe / 100 + doy in
  era * 146097 + doe - 719468.

(** The clock shows a date, and so does the clock thirty days earlier. *)
Definition clock_in_range (now : Z) : Prop :=
  - maxTime + month_ms <= now <= maxTime.

(** The number of bookings of [l] whose status is [s]. *)
Definition status_count (s : string) (l : list Booking) : nat :=
  count_occ string_dec (map status l) s.

(** The four statuses of the data model. *)
Definition enumerated_status (s : string) : Prop :=
  s = "PENDING" \/ s = "CONFIRMED" \/ s = "COMPLETED" \/ s = "CANCELLED".

(** The price a booking counts for: its numeric price, and zero when that
    is missing or not a number. *)
Definition price_value (b : Booking) : Q :=
  match numericPrice b with
  | Some (Fin q) => q
  | _ => 0%Q
  end.

Definition Qsum (l : list Q) : Q := fold_right Qplus 0%Q l.

(** [c] is the integer nearest to [x], the upper one of two equally near. *)
Definition nearest_integer (x : Q) (c : Z) : Prop :=
  (x - (1 # 2) < inject_Z c /\ inject_Z c <= x + (1 # 2))%Q.

(** A price that is missing or not a number. *)
Definition price_missing (b : Booking) : Prop :=
  numericPrice b = None \/ numericPrice b = Some NaN.

(** [b] was created no later than [a]: the collection lists [a] first when it
    is ordered newest first. *)
Definition newer_first (a b : Booking) : Prop :=
  date_geb (newDate (createdAt a)) (newDate (createdAt b)) = true.

Definition older_first (a b : Booking) : Prop := newer_first b a.

(** The reading of the trend series under which the booking taken first
    heads the series. *)
Definition first_taken_heads {P : Type} (point : Booking -> P)
    (confirmed : list Booking) (trend : list P) : Prop :=
  hd_error trend = option_map point (hd_error confirmed).

(** *** Grouping and ranking *)

(** The distinct keys of [l], in the order of their first occurrence. *)
Fixpoint first_seen (l : list string) : list string :=
  match l with
  | [] => []
  | x :: rest => x :: filter (fun y => negb (String.eqb x y)) (first_seen rest)
  end.

(** The dictionary that holds [f k] at every key [k] of [keys], created in
    that order. *)
Definition tabulate {V : Type} (f : string -> V) (keys : list string) : JSObject V :=
  map (fun k => (k, f k)) keys.

(** The title a booking is counted under. *)
Definition title_of (b : Booking) : string :=
  match tourTitle b with
  | None => "Custom"
  | Some EmptyString => "Custom"
  | Some t => t
  end.

Definition occurrences (t : string) (l : list string) : Z :=
  Z.of_nat (count_occ string_dec l t).

(** Every title with the number of bookings under it, titles in the order
    of their first occurrence. *)
Definition route_table (filteredBookings : list Booking) : JSObject Z :=
  let titles := map title_of filteredBookings in
  tabulate (fun t => occurrences t titles) (first_seen titles).

(** A booking enters the leaderboard when it names its driver by identifier
    and by name. *)
Definition has_driver (b : Booking) : bool :=
  match truthy_str (driverId b), truthy_str (driverName b) with
  | Some _, Some _ => true
  | _, _ => false
  end.

(** The reading under which the identifier alone decides. *)
Definition has_driver_id (b : Booking) : bool :=
  match truthy_str (driverId b) with
  | Some _ => true
  | None => false
  end.

Definition id_of (b : Booking) : string :=
  match driverId b with
  | Some s => s
  | None => ""
  end.

Definition name_of (b : Booking) : string :=
  match driverName b with
  | Some s => s
  | None => ""
  end.

Definition trips_of (id : string) (eligible : list Booking) : list Booking :=
  filter (fun b => String.eqb (id_of b) id) eligible.

(** The line of one driver: the name on the first of the driver's bookings,
    the number of these bookings and the sum of their prices. *)
Definition driver_group (eligible : list Booking) (id : string) : DriverStat :=
  let mine := trips_of id eligible in
  mkDriverStat
    (match mine with b :: _ => name_of b | [] => "" end)
    (Z.of_nat (length mine))
    (totalGross mine).

(** Every driver with the driver's line, drivers in the order of their first
    booking among those that pass [eligible]. *)
Definition group_by_driver (eligible : Booking -> bool) (confirmed : list Booking)
  : JSObject DriverStat :=
  let chosen := filter eligible confirmed in
  tabulate (driver_group chosen) (first_seen (map id_of chosen)).

Definition driver_table (confirmed : list Booking) : JSObject DriverStat :=
  group_by_driver has_driver confirmed.

(** The ranking keys. *)
Definition revenue_key (d : DriverStat) : Q :=
  match revenue d with
  | Fin q => q
  | NaN => 0%Q
  end.

Definition count_key (r : RouteStat) : Q := inject_Z (count r).

(** [sorted] ranks [listed] by descending key, and entries with equal keys
    stay in the order [listed] has them in. *)
Definition ranked {A : Type} (key : A -> Q) (listed sorted : list A) : Prop :=
  Permutation listed sorted
  /\ StronglySorted (fun a b => (key b <= key a)%Q) sorted
  /\ forall k : Q,
       filter (fun a => Qeq_bool (key a) k) sorted
       = filter (fun a => Qeq_bool (key a) k) listed.

(** [top] is the first five of such a ranking. *)
Definition ranked_top5 {A : Type} (key : A -> Q) (listed top : list A) : Prop :=
  exists sorted, ranked key listed sorted /\ top = firstn 5 sorted.

Definition route_entry (e : string * Z) : RouteStat := mkRouteStat (fst e) (snd e).

(** ** Sample data *)

(** 14 November 2023, 22:13:20 UTC. *)
Definition sample_now : Z := 1700000000000.

Definition sample_booking (created : Z) (st : string) (price : option number)
    (id nm title : option string) : Booking :=
  mkBooking (Some created) st price id nm title.

Definition price_of (z : Z) : option number := Some (Fin (inject_Z z)).

(** The two bookings of the specification's worked example. *)
Definition example_bookings : list Booking :=
  [ sample_booking sample_now "CONFIRMED" (price_of 100) (Some "d1") None None;
    sample_booking sample_now "PENDING" (price_of 50) None None None ].

Definition rate_13 : option SystemSettings := Some (mkSettings (Some (Fin (13 # 100)))).

Definition no_rate : option SystemSettings := Some (mkSettings None).

(** Two confirmed bookings, the older one first. *)
Definition trend_bookings : list Booking :=
  [ sample_booking sample_now "CONFIRMED" (price_of 10) None None None;
    sample_booking (sample_now + msPerDay) "COMPLETED" (price_of 20) None None None ].

(** A confirmed booking without a numeric price. *)
Definition unpriced_booking : Booking :=
  sample_booking sample_now "CONFIRMED" None (Some "d1") (Some "Nino") (Some "Kazbegi").

(** Three confirmed bookings of three drivers; the third one carries no
    driver name, and the first two have the same price. *)
Definition leaderboard_bookings : list Booking :=
  [ sample_booking sample_now "CONFIRMED" (price_of 10) (Some "2") (Some "Beka") None;
    sample_booking sample_now "CONFIRMED" (price_of 10) (Some "1") (Some "Ana") None;
    sample_booking sample_now "CONFIRMED" (price_of 50) (Some "3") None None ].

(** Two bookings of two tours whose titles are numerals. *)
Definition numeral_titles : list Booking :=
  [ sample_booking sample_now "PENDING" None None None (Some "2");
    sample_booking sample_now "PENDING" None None None (Some "1") ].

(** A store with the three bookings of the leaderboard sample, no drivers
    and a settings record without a commission rate. *)
Definition sample_store : store :=
  [ BookingArray leaderboard_bookings; DriverArray []; SettingsRecord (mkSettings None) ].

(** ** Further vocabulary *)

(** The offset of local time stays within a day of UTC. *)
Definition offset_bounded (LocalTZA : Z -> Z) : Prop :=
  forall t, - msPerDay <= LocalTZA t <= msPerDay.

(** Two numbers that are both [NaN] or are equal. *)
Definition num_equiv (a b : number) : Prop :=
  match a, b with
  | NaN, NaN => True
  | Fin x, Fin y => (x == y)%Q
  | _, _ => False
  end.

Definition Zsum (l : list Z) : Z := fold_right Z.add 0 l.

(** The creation date of the booking can be read. *)
Definition has_date (b : Booking) : bool :=
  match newDate (createdAt b) with
  | Some _ => true
  | None => false
  end.

(** ** What the dashboard draws from the result *)

(** [a > b] on numbers. *)
Definition num_gtb (a b : number) : bool :=
  match a, b with
  | Fin x, Fin y => negb (Qle_bool x y)
  | _, _ => false
  end.

Definition num_max (a b : number) : number :=
  match a, b with
  | Fin x, Fin y => Fin (if Qle_bool x y then y else x)
  | _, _ => NaN
  end.

(** [Math.max(first, ...rest)]: [NaN] as soon as one argument is. *)
Definition Math_max (first : number) (rest : list number) : number :=
  fold_left num_max rest first.

(** The width, in percent, of one segment of the status bar:
    [total ? (count / total) * 100 : 0]. *)
Definition bar_width (count total : nat) : number :=
  if (total =? 0)%nat then Zero
  else num_mul (num_div (num_of_nat count) (num_of_nat total)) (Fin 100).

(** The heights, in percent, of the bars of the revenue trend; no bar is
    drawn for an empty series. *)
Definition trend_bars (trendData : list TrendPoint) : list number :=
  match map (fun t => Number (amount t)) trendData with
  | [] => []
  | first :: rest =>
      map (fun d =>
             let maxVal := Math_max first rest in
             if num_gtb maxVal Zero
             then num_mul (num_div (Number (amount d)) maxVal) (Fin 100)
             else Zero)
          trendData
  end.

(** The value of a number, [NaN] read as zero. *)
Definition num_value (a : number) : Q :=
  match a with
  | Fin q => q
  | NaN => 0%Q
  end.

(** ** Text

    Where the code looks inside a string ([split], [trim], [join], the
    comparison [<]), the string is its sequence of UTF-16 code units. *)

Definition code_unit : Type := N.
Definition text : Type := list code_unit.

Definition comma : code_unit := 44%N.
Definition space : code_unit := 32%N.

(** The code units [trim] strips: WhiteSpace and LineTerminator. *)
Definition is_white_space (c : code_unit) : bool :=
  existsb (N.eqb c)
          [9; 10; 11; 12; 13; 32; 160; 5760; 8232; 8233; 8239; 8287; 12288; 65279]%N
  || (N.leb 8192 c && N.leb c 8202).

(** [s.split(sep)] for a separator of one code unit: the pieces between the
    separators, one piece more than there are separators. *)
Fixpoint split (sep : code_unit) (s : text) : list text :=
  match s with
  | [] => [[]]
  | c :: rest =>
      if N.eqb c sep then [] :: split sep rest
      else match split sep rest with
           | w :: ws => (c :: w) :: ws
           | [] => [[c]]
           end
  end.

Fixpoint trimStart (s : text) : text :=
  match s with
  | [] => []
  | c :: rest => if is_white_space c then trimStart rest else s
  end.

Definition trimEnd (s : text) : text := rev (trimStart (rev s)).

Definition trim (s : text) : text := trimEnd (trimStart s).

(** [l.join(sep)]. *)
Fixpoint join (sep : text) (l : list text) : text :=
  match l with
  | [] => []
  | x :: rest =>
      match rest with
      | [] => x
      | _ :: _ => x ++ sep ++ join sep rest
      end
  end.

(** ** The route stops of the tour form *)

(** What a field of the edited tour may hold. *)
Inductive tour_value : Type :=
| TText (t : text)
| TNumber (n : number)
| TList (l : list text).

(** [{ ...prev, [field]: value.split(',').map(s => s.trim()) }] *)
Definition handleArrayInput (field : string) (value : text)
    (prev : JSObject tour_value) : JSObject tour_value :=
  set prev field (TList (map trim (split comma value))).

(** The text the input of the route stops shows,
    [editingTour.routeStops?.join(', ') || '']; [None] is the TypeError of a
    field that holds something without [join]. *)
Definition routeStops_shown (editingTour : JSObject tour_value) : option text :=
  match get editingTour "routeStops" with
  | None => Some []
  | Some (TList l) => Some (join [comma; space] l)
  | Some _ => None
  end.

(** A text without white space at either end. *)
Definition starts_white (s : text) : bool :=
  match s with
  | c :: _ => is_white_space c
  | [] => false
  end.

Definition trimmed (s : text) : Prop :=
  starts_white s = false /\ starts_white (rev s) = false.

(** ** The driver table

    A row of the table holds the fields of a driver that the handlers and
    the table below read.  [name] and [email] are looked into, so they are
    texts, and may be missing. *)

Record Document : Type := mkDocument {
  url : text;
  type : text
}.

Module DriverRow.
Record t : Type := mk {
  id : string;
  name : option text;
  email : option text;
  status : string;
  documents : option (list Document)
}.
End DriverRow.

(** The driver the engine counts. *)
Definition to_Driver (d : DriverRow.t) : Driver := mkDriver (DriverRow.id d) (DriverRow.status d).

(** A field of a row together with the value an edit gives it. *)
Inductive DriverEdit : Type :=
| edit_id (v : string)
| edit_name (v : option text)
| edit_email (v : option text)
| edit_status (v : string)
| edit_documents (v : option (list Document)).

(** [{ ...d, [field]: value }] *)
Definition apply_edit (e : DriverEdit) (d : DriverRow.t) : DriverRow.t :=
  match e with
  | edit_id v =>
      DriverRow.mk v (DriverRow.name d) (DriverRow.email d) (DriverRow.status d)
                   (DriverRow.documents d)
  | edit_name v =>
      DriverRow.mk (DriverRow.id d) v (DriverRow.email d) (DriverRow.status d)
                   (DriverRow.documents d)
  | edit_email v =>
      DriverRow.mk (DriverRow.id d) (DriverRow.name d) v (DriverRow.status d)
                   (DriverRow.documents d)
  | edit_status v =>
      DriverRow.mk (DriverRow.id d) (DriverRow.name d) (DriverRow.email d) v
                   (DriverRow.documents d)
  | edit_documents v =>
      DriverRow.mk (DriverRow.id d) (DriverRow.name d) (DriverRow.email d)
                   (DriverRow.status d) v
  end.

Definition handleLocalDriverChange (id : string) (e : DriverEdit)
    (prev : list DriverRow.t) : list DriverRow.t :=
  map (fun d => if String.eqb (DriverRow.id d) id then apply_edit e d else d) prev.

(** The edits of a field that the table neither searches nor sorts nor
    filters by. *)
Definition quiet_edit (e : DriverEdit) : bool :=
  match e with
  | edit_id _ | edit_documents _ => true
  | edit_name _ | edit_email _ | edit_status _ => false
  end.

(** [a.splice(start, 1)] for an integer [start]: the array afterwards.  A
    negative [start] counts from the end; nothing is removed at or beyond
    the end. *)
Definition splice1 {A : Type} (start : Z) (a : list A) : list A :=
  let len := Z.of_nat (length a) in
  let actualStart := if start <? 0 then Z.max (len + start) 0 else Z.min start len in
  let deleteCount := Z.min 1 (len - actualStart) in
  firstn (Z.to_nat actualStart) a ++ skipn (Z.to_nat (actualStart + deleteCount)) a.

(** [handleDocumentDelete]: the new rows of the table, and the driver handed
    to [onUpdateDriver], if any.  [confirm] is the answer to the question the
    handler asks. *)
Definition handleDocumentDelete (confirm : bool) (driverId : string) (docIndex : Z)
    (localDrivers : list DriverRow.t) : list DriverRow.t * option DriverRow.t :=
  if negb confirm then (localDrivers, None)
  else
    match find (fun d => String.eqb (DriverRow.id d) driverId) localDrivers with
    | None => (localDrivers, None)
    | Some driver =>
        match DriverRow.documents driver with
        | None => (localDrivers, None)
        | Some documents =>
            let newDocs := splice1 docIndex documents in
            (handleLocalDriverChange driverId (edit_documents (Some newDocs)) localDrivers,
             Some (apply_edit (edit_documents (Some newDocs)) driver))
        end
    end.

(** The fields the table can be sorted by, and the two directions. *)
Inductive SortField : Type := by_name | by_email.
Inductive SortDir : Type := asc | desc.

Definition field_value (f : SortField) (d : DriverRow.t) : option text :=
  match f with
  | by_name => DriverRow.name d
  | by_email => DriverRow.email d
  end.

(** [v || ''] *)
Definition text_or_empty (v : option text) : text :=
  match v with
  | Some t => t
  | None => []
  end.

(** [a < b] on texts: by the first code unit that differs, a proper prefix
    being smaller. *)
Fixpoint text_ltb (a b : text) : bool :=
  match a, b with
  | _, [] => false
  | [], _ :: _ => true
  | x :: a', y :: b' =>
      if N.ltb x y then true
      else if N.ltb y x then false
      else text_ltb a' b'
  end.

Definition compare_rows (driverSortField : SortField) (driverSortDir : SortDir)
    (a b : DriverRow.t) : number :=
  let valA := text_or_empty (field_value driverSortField a) in
  let valB := text_or_empty (field_value driverSortField b) in
  if text_ltb valA valB then
    match driverSortDir with asc => Fin (-1) | desc => Fin 1 end
  else if text_ltb valB valA then
    match driverSortDir with asc => Fin 1 | desc => Fin (-1) end
  else Zero.

(** [handleSort]: the same field flips the direction, another field starts
    ascending. *)
Definition SortField_eqb (f g : SortField) : bool :=
  match f, g with
  | by_name, by_name | by_email, by_email => true
  | _, _ => false
  end.

Definition handleSort (field : SortField) (st : SortField * SortDir)
    : SortField * SortDir :=
  let (driverSortField, driverSortDir) := st in
  if SortField_eqb driverSortField field
  then (driverSortField, match driverSortDir with asc => desc | desc => asc end)
  else (field, asc).

Fixpoint starts_with (q s : text) : bool :=
  match q, s with
  | [], _ => true
  | _ :: _, [] => false
  | a :: q', b :: s' => N.eqb a b && starts_with q' s'
  end.

(** [s.includes(q)] *)
Fixpoint includes (s q : text) : bool :=
  starts_with q s
  || match s with
     | [] => false
     | _ :: s' => includes s' q
     end.

(** [a.filter(p)] for a test that may throw; [None] is the exception. *)
Fixpoint filter_try {A : Type} (p : A -> option bool) (a : list A) : option (list A) :=
  match a with
  | [] => Some []
  | x :: rest =>
      match p x with
      | None => None
      | Some keep =>
          match filter_try p rest with
          | None => None
          | Some rest' => Some (if keep then x :: rest' else rest')
          end
      end
  end.

(** The elements on which a test answers yes. *)
Definition passes {A : Type} (p : A -> option bool) (d : A) : bool :=
  match p d with
  | Some true => true
  | _ => false
  end.

Section DriverTable.
(** [String.prototype.toLowerCase] is the host's. *)
Variable toLowerCase : text -> text.

(** [d.name.toLowerCase().includes(q) || d.email.toLowerCase().includes(q)];
    reading [toLowerCase] off a missing field throws. *)
Definition search_matches (q : text) (d : DriverRow.t) : option bool :=
  match DriverRow.name d with
  | None => None
  | Some n =>
      if includes (toLowerCase n) q then Some true
      else
        match DriverRow.email d with
        | None => None
        | Some e => Some (includes (toLowerCase e) q)
        end
  end.

Definition is_pending_row (d : DriverRow.t) : bool := String.eqb (DriverRow.status d) "PENDING".

(** The rows the table shows, as a function of the rows it is given. *)
Definition processedDrivers (localDrivers : list DriverRow.t) (driverSearch : text)
    (activeTab : string) (driverSortField : SortField) (driverSortDir : SortDir)
    : option (list DriverRow.t) :=
  let filtered := Some localDrivers in
  let filtered :=
    match driverSearch with
    | [] => filtered
    | _ :: _ => filter_try (search_matches (toLowerCase driverSearch)) localDrivers
    end in
  match filtered with
  | None => None
  | Some filtered =>
      let filtered :=
        if String.eqb activeTab "PENDING" then filter is_pending_row filtered
        else filtered in
      Some (Array_sort (compare_rows driverSortField driverSortDir) filtered)
  end.

(** The same on arrays held by reference: [filter] makes a new array, [sort]
    orders the array it is called on and returns it. *)
Definition heap : Type := list (list DriverRow.t).

Fixpoint heap_write (r : ref) (a : list DriverRow.t) (h : heap) : heap :=
  match h, r with
  | [], _ => []
  | _ :: rest, O => a :: rest
  | c :: rest, S r' => c :: heap_write r' a rest
  end.

Definition heap_filter (p : DriverRow.t -> option bool) (r : ref) (h : heap)
    : option (ref * heap) :=
  match nth_error h r with
  | None => None
  | Some a =>
      match filter_try p a with
      | None => None
      | Some a' => Some (length h, h ++ [a'])
      end
  end.

Definition heap_sort (comparefn : DriverRow.t -> DriverRow.t -> number) (r : ref) (h : heap)
    : option (ref * heap) :=
  match nth_error h r with
  | None => None
  | Some a => Some (r, heap_write r (Array_sort comparefn a) h)
  end.

Definition processedDrivers_run (localDrivers : ref) (driverSearch : text)
    (activeTab : string) (driverSortField : SortField) (driverSortDir : SortDir)
    (h : heap) : option (ref * heap) :=
  let filtered := Some (localDrivers, h) in
  let filtered :=
    match driverSearch with
    | [] => filtered
    | _ :: _ => heap_filter (search_matches (toLowerCase driverSearch)) localDrivers h
    end in
  match filtered with
  | None => None
  | Some (filtered, h1) =>
      let filtered :=
        if String.eqb activeTab "PENDING"
        then heap_filter (fun d => Some (is_pending_row d)) filtered h1
        else Some (filtered, h1) in
      match filtered with
      | None => None
      | Some (filtered, h2) =>
          heap_sort (compare_rows driverSortField driverSortDir) filtered h2
      end
  end.
End DriverTable.

Definition text_eqb (a b : text) : bool :=
  if list_eq_dec N.eq_dec a b then true else false.

(** The rows that pass the search and the tab. *)
Definition visible (toLowerCase : text -> text) (driverSearch : text)
    (activeTab : string) (d : DriverRow.t) : bool :=
  match driverSearch with
  | [] => true
  | _ :: _ => passes (search_matches toLowerCase (toLowerCase driverSearch)) d
  end
  && (negb (String.eqb activeTab "PENDING") || is_pending_row d).

(** Order on texts, for stating that a table is sorted. *)
Definition text_le (a b : text) : Prop := text_ltb b a = false.

Definition sort_key (f : SortField) (d : DriverRow.t) : text :=
  text_or_empty (field_value f d).

Definition in_order (dir : SortDir) (f : SortField) (a b : DriverRow.t) : Prop :=
  match dir with
  | asc => text_le (sort_key f a) (sort_key f b)
  | desc => text_le (sort_key f b) (sort_key f a)
  end.

(** ** The views of the application

    The state of [App] that decides what is shown: the current view, the
    driver logged in, and the entry [orbitrip_driver_session] of the local
    storage.  An event is a call of one of the callbacks [App] hands to its
    components, or the end of a run of [initData].  ([handleNavigate] is
    handed to no component.) *)

Module App.
Inductive Role : Type := ADMIN | DRIVER.

Record state : Type := mk {
  currentView : string;
  loggedInDriverId : option string;
  driver_session : option string
}.

(** The first render: the view is the login, the driver is read off the
    storage, or is nobody when the storage cannot be read. *)
Definition init (stored : option string) (readable : bool) : state :=
  mk "ADMIN_LOGIN" (if readable then stored else None) stored.

(** [handleLogin].  [written] tells whether [localStorage.setItem] returned;
    when it throws, the handler stops there. *)
Definition handleLogin (role : Role) (driverId : option string) (written : bool)
    (s : state) : state :=
  match role with
  | ADMIN => mk "ADMIN_DASHBOARD" (loggedInDriverId s) (driver_session s)
  | DRIVER =>
      match truthy_str driverId with
      | Some id =>
          if written then mk "DRIVER_DASHBOARD" (Some id) (Some id)
          else mk (currentView s) (Some id) (driver_session s)
      | None => s
      end
  end.

(** [handleLogout], with [removed] for [localStorage.removeItem]. *)
Definition handleLogout (removed : bool) (s : state) : state :=
  if removed then mk "ADMIN_LOGIN" None None
  else mk (currentView s) None (driver_session s).

Definition setCurrentView (view : string) (s : state) : state :=
  mk view (loggedInDriverId s) (driver_session s).

(** The callback [onToolSelect] of the header. *)
Definition onToolSelect (tool : string) (removed : bool) (s : state) : state :=
  if String.eqb tool "LOGOUT" then handleLogout removed s
  else if String.eqb tool "LOGIN" then setCurrentView "ADMIN_LOGIN" s
  else s.

(** The callback [onNavigate] of the footer. *)
Definition onNavigate (v : string) (s : state) : state :=
  if String.eqb v "ADMIN_LOGIN" then setCurrentView "ADMIN_LOGIN" s else s.

(** The end of [initData]: [captured] is the driver the run was started
    with, [loaded] tells whether the data arrived. *)
Definition initData (captured : option string) (loaded : bool) (s : state) : state :=
  if loaded then
    match truthy_str captured with
    | Some _ => setCurrentView "DRIVER_DASHBOARD" s
    | None => s
    end
  else s.

Definition isLoggedIn (s : state) : bool :=
  negb (String.eqb (currentView s) "ADMIN_LOGIN")
  && negb (String.eqb (currentView s) "DRIVER_REGISTRATION").

(** The click on the logo of the header: [!isLoggedIn && onToolSelect('LOGIN')]. *)
Definition logo_click (s : state) : state :=
  if isLoggedIn s then s else onToolSelect "LOGIN" true s.

Inductive Screen : Type :=
| AdminLogin
| AdminDashboard
| DriverDashboard (driverId : string)
| DriverRegistration.

(** The component the [switch] on the view renders. *)
Definition screen (s : state) : Screen :=
  if String.eqb (currentView s) "ADMIN_LOGIN" then AdminLogin
  else if String.eqb (currentView s) "ADMIN_DASHBOARD" then AdminDashboard
  else if String.eqb (currentView s) "DRIVER_DASHBOARD"
       then DriverDashboard (str_or (loggedInDriverId s) EmptyString)
  else if String.eqb (currentView s) "DRIVER_REGISTRATION" then DriverRegistration
  else AdminLogin.

Inductive event : Type :=
| Login (role : Role) (driverId : option string) (written : bool)
| Logout (removed : bool)
| ToolSelect (tool : string) (removed : bool)
| LogoClick
| Navigate (v : string)
| Registered
| Back
| DataLoaded (captured : option string) (loaded : bool).

Definition step (s : state) (e : event) : state :=
  match e with
  | Login role driverId written => handleLogin role driverId written s
  | Logout removed => handleLogout removed s
  | ToolSelect tool removed => onToolSelect tool removed s
  | LogoClick => logo_click s
  | Navigate v => onNavigate v s
  | Registered => setCurrentView "ADMIN_LOGIN" s
  | Back => setCurrentView "ADMIN_LOGIN" s
  | DataLoaded captured loaded => initData captured loaded s
  end.

Definition run (events : list event) (s : state) : state := fold_left step events s.

(** The storage never refused a write. *)
Definition storage_ok (e : event) : bool :=
  match e with
  | Login _ _ written => written
  | Logout removed => removed
  | ToolSelect _ removed => removed
  | _ => true
  end.
End App.

(** The views the callbacks set. *)
Definition known_view (s : App.state) : Prop :=
  App.currentView s = "ADMIN_LOGIN"
  \/ App.currentView s = "ADMIN_DASHBOARD"
  \/ App.currentView s = "DRIVER_DASHBOARD".


(** ** Assigning a driver to a booking *)

(** [handleAssignDriver]: the call of [db.bookings.assignDriver] it makes, if
    any. *)
Definition handleAssignDriver (bookingId driverId : string) (drivers : list Driver)
    : option (string * Driver) :=
  match driverId with
  | EmptyString => None
  | _ =>
      match find (fun d => String.eqb (driver_id d) driverId) drivers with
      | Some driver => Some (bookingId, driver)
      | None => None
      end
  end.

(** The drivers the select of a booking offers; the value of an option is
    the identifier of its driver. *)
Definition offered_drivers (drivers : list Driver) : list Driver :=
  filter (fun d => String.eqb (driver_status d) "ACTIVE") drivers.

(** ** Promo codes *)

(** The promo code handed to [db.promoCodes.create], without its [id] and
    its [createdAt], which are made from the clock. *)
Record PromoCode : Type := mkPromoCode {
  code : text;
  discountPercent : number;
  usageLimit : number;
  usageCount : number;
  promo_status : string
}.

Section Promo.
(** [String.prototype.toUpperCase] is the host's. *)
Variable toUpperCase : text -> text.

Definition handleCreatePromo (newPromoCode : text) (newPromoPercent newPromoLimit : number)
    : option PromoCode :=
  match newPromoCode with
  | [] => None
  | _ :: _ =>
      Some (mkPromoCode (trim (toUpperCase newPromoCode)) newPromoPercent newPromoLimit
                        Zero "ACTIVE")
  end.
End Promo.

(** ** Sample rows and texts *)

Definition text_of (s : string) : text := map N_of_ascii (list_ascii_of_string s).

(** Lower and upper case of the letters A to Z. *)
Definition ascii_lower (t : text) : text :=
  map (fun c => if (N.leb 65 c && N.leb c 90)%bool then (c + 32)%N else c) t.

Definition ascii_upper (t : text) : text :=
  map (fun c => if (N.leb 97 c && N.leb c 122)%bool then (c - 32)%N else c) t.

Definition sample_rows : list DriverRow.t :=
  [ DriverRow.mk "d2" (Some (text_of "Nika")) (Some (text_of "nika@example.com")) "ACTIVE"
           (Some [mkDocument (text_of "u1") (text_of "licence");
                  mkDocument (text_of "u2") (text_of "passport")]);
    DriverRow.mk "d1" (Some (text_of "Ana")) (Some (text_of "ana@example.com")) "PENDING" None;
    DriverRow.mk "d3" None (Some (text_of "leo@example.com")) "INACTIVE" (Some []) ].

Definition sample_events : list App.event :=
  [ App.Login App.ADMIN None true;
    App.Login App.DRIVER (Some "d1") true;
    App.Logout true;
    App.Login App.DRIVER (Some "d7") true;
    App.DataLoaded None true ].

(** * Properties *)

(** ** The calendar *)

(** The date of a day determines the day. *)
Lemma days_from_civil_from_days (z : Z) :
  let '(y, m, d) := civil_from_days z in days_from_civil y m d = z.
Proof.
  unfold civil_from_days, days_from_civil. cbv zeta.
  set (n := z + 719468).
  set (era := n / 146097).
  set (doe := n - era * 146097).
  assert (Hdoe : 0 <= doe < 146097).
  { unfold doe, era. Z.div_mod_to_equations. lia. }
  set (yoe := (doe - doe / 1460 + doe / 36524 - doe / 146096) / 365).
  assert (Hyoe : 0 <= yoe <= 399 /\ 0 <= doe - (365 * yoe + yoe / 4 - yoe / 100) <= 365).
  { unfold yoe. Z.div_mod_to_equations. lia. }
  set (doy := doe - (365 * yoe + yoe / 4 - yoe / 100)) in *.
  set (mp := (5 * doy + 2) / 153).
  assert (Hmp : 0 <= mp <= 11).
  { unfold mp. Z.div_mod_to_equations. lia. }
  assert (Hera : (yoe + era * 400) / 400 = era).
  { rewrite Z.div_add by discriminate. rewrite Z.div_small by lia. reflexivity. }
  destruct (Z.ltb_spec mp 10) as [Hlt | Hge].
  - destruct (Z.leb_spec (mp + 3) 2) as [H1 | H1]; [lia | ].
    destruct (Z.ltb_spec 2 (mp + 3)) as [H2 | H2]; [ | lia].
    rewrite Hera.
    replace (yoe + era * 400 - era * 400) with yoe by ring.
    replace (mp + 3 - 3) with mp by ring.
    unfold doy, doe, n. ring.
  - destruct (Z.leb_spec (mp - 9) 2) as [H1 | H1]; [ | lia].
    destruct (Z.ltb_spec 2 (mp - 9)) as [H2 | H2]; [lia | ].
    replace (yoe + era * 400 + 1 - 1) with (yoe + era * 400) by ring.
    rewrite Hera.
    replace (yoe + era * 400 - era * 400) with yoe by ring.
    replace (mp - 9 + 9) with mp by ring.
    unfold doy, doe, n. ring.
Qed.

Lemma civil_from_days_inj (z1 z2 : Z) :
  civil_from_days z1 = civil_from_days z2 -> z1 = z2.
Proof.
  intros H.
  pose proof (days_from_civil_from_days z1) as H1.
  pose proof (days_from_civil_from_days z2) as H2.
  rewrite H in H1. destruct (civil_from_days z2) as [[y m] d]. congruence.
Qed.

(** Two instants have the same year, month and day of the month exactly when
    they fall on the same local day. *)
Lemma same_calendar_day_iff LocalTZA (t now : Z) :
  same_calendar_day LocalTZA t now
  <-> Day (LocalTime LocalTZA t) = Day (LocalTime LocalTZA now).
Proof.
  unfold same_calendar_day, YearFromTime, MonthFromTime, DateFromTime.
  split.
  - intros (Hy & Hm & Hd). apply civil_from_days_inj.
    destruct (civil_from_days (Day (LocalTime LocalTZA t))) as [[y m] d].
    destruct (civil_from_days (Day (LocalTime LocalTZA now))) as [[y' m'] d'].
    f_equal; [f_equal | ]; lia.
  - intros ->. auto.
Qed.

(** ** Time-range filter *)

Lemma TimeClip_in_range (t : Z) :
  - maxTime <= t <= maxTime -> TimeClip t = Some t.
Proof.
  intros H. unfold TimeClip.
  destruct (Z.leb_spec (Z.abs t) maxTime) as [_ | Hgt]; [reflexivity | lia].
Qed.

Lemma field_eqb_true (a b : option Z) :
  field_eqb a b = true <-> exists x, a = Some x /\ b = Some x.
Proof.
  destruct a as [x |], b as [y |]; simpl; split.
  - intros E. apply Z.eqb_eq in E. subst. eauto.
  - intros (z & Ha & Hb). injection Ha as ->. injection Hb as ->. apply Z.eqb_refl.
  - discriminate.
  - intros (z & _ & Hb). discriminate.
  - discriminate.
  - intros (z & Ha & _). discriminate.
  - discriminate.
  - intros (z & Ha & _). discriminate.
Qed.

Lemma in_time_range_created_within LocalTZA now timeRange b :
  clock_in_range now ->
  in_time_range LocalTZA now timeRange b = true
  <-> created_within LocalTZA now timeRange b.
Proof.
  intros Hnow. unfold clock_in_range, month_ms in Hnow.
  assert (Hmax : maxTime = 8640000000000000) by reflexivity.
  destruct timeRange; simpl.
  - (* TODAY *)
    rewrite !andb_true_iff, !field_eqb_true.
    unfold getDate, getMonth, getFullYear, same_calendar_day.
    destruct (newDate (createdAt b)) as [t |]; simpl.
    + split.
      * intros [[(d & Hd & Hd') (m & Hm & Hm')] (y & Hy & Hy')].
        exists t. split; [reflexivity | ]. repeat split; congruence.
      * intros (t' & Ht & Hy & Hm & Hd). injection Ht as <-.
        repeat split; eexists; split; try reflexivity; congruence.
    + split.
      * intros [[(d & Hd & _) _] _]. discriminate.
      * intros (t' & Ht & _). discriminate.
  - (* WEEK *)
    rewrite TimeClip_in_range by (unfold week_ms; lia).
    destruct (newDate (createdAt b)) as [t |]; simpl.
    + rewrite Z.leb_le. unfold week_ms. split.
      * intros H. exists t. split; [reflexivity | lia].
      * intros (t' & Ht & H). injection Ht as <-. lia.
    + split; [discriminate | intros (t' & Ht & _); discriminate].
  - (* MONTH *)
    rewrite TimeClip_in_range by (unfold month_ms; lia).
    destruct (newDate (createdAt b)) as [t |]; simpl.
    + rewrite Z.leb_le. unfold month_ms. split.
      * intros H. exists t. split; [reflexivity | lia].
      * intros (t' & Ht & H). injection Ht as <-. lia.
    + split; [discriminate | intros (t' & Ht & _); discriminate].
  - (* ALL *)
    split; trivial.
Qed.

Lemma filter_all_true {A : Type} (l : list A) : filter (fun _ => true) l = l.
Proof.
  induction l as [| x l IH]; simpl; [reflexivity | now rewrite IH].
Qed.

(** C1.  The filtered set holds exactly the bookings whose creation
    timestamp satisfies the selector: it is the collection filtered by any
    test that decides [created_within] (same calendar day for TODAY, at or
    after now minus 7 x 24 hours for WEEK, at or after now minus 30 x 24 hours
    for MONTH, everything for ALL).  It is always drawn from the collection,
    and under ALL it is the collection.  Under TODAY it holds the bookings
    created on the local day of the current time. *)
Theorem filteredBookings_window LocalTZA now timeRange bookings :
  clock_in_range now ->
  (forall b, In b (filteredBookings LocalTZA now timeRange bookings)
             <-> In b bookings /\ created_within LocalTZA now timeRange b)
  /\ (forall keep : Booking -> bool,
        (forall b, keep b = true <-> created_within LocalTZA now timeRange b) ->
        filteredBookings LocalTZA now timeRange bookings = filter keep bookings)
  /\ incl (filteredBookings LocalTZA now timeRange bookings) bookings
  /\ filteredBookings LocalTZA now ALL bookings = bookings
  /\ (forall b, In b (filteredBookings LocalTZA now TODAY bookings)
                <-> In b bookings
                    /\ exists t, newDate (createdAt b) = Some t
                                 /\ Day (LocalTime LocalTZA t) = Day (LocalTime LocalTZA now)).
Proof.
  intros Hnow. unfold filteredBookings.
  split; [ | split; [ | split; [ | split]]].
  5: { intros b. rewrite filter_In.
       rewrite (in_time_range_created_within LocalTZA now TODAY b Hnow). simpl.
       split.
       - intros (Hin & t & Ht & Hday). split; [assumption | ].
         exists t. split; [assumption | now apply same_calendar_day_iff].
       - intros (Hin & t & Ht & Hday). split; [assumption | ].
         exists t. split; [assumption | now apply same_calendar_day_iff]. }
  - intros b. rewrite filter_In.
    rewrite (in_time_range_created_within LocalTZA now timeRange b Hnow).
    reflexivity.
  - intros keep Hkeep. apply filter_ext. intros b.
    destruct (keep b) eqn:E.
    + apply in_time_range_created_within; [assumption | now apply Hkeep].
    + destruct (in_time_range LocalTZA now timeRange b) eqn:E'; [ | reflexivity].
      apply in_time_range_created_within in E'; [ | assumption].
      apply Hkeep in E'. congruence.
  - intros b Hin. apply filter_In in Hin. tauto.
  - apply filter_all_true.
Qed.

(** ** Status partition *)

Lemma status_cases (b : Booking) :
  (is_confirmed b = true /\ is_pending b = false /\ is_cancelled b = false
   /\ (status b = "CONFIRMED" \/ status b = "COMPLETED"))
  \/ (is_confirmed b = false /\ is_pending b = true /\ is_cancelled b = false
      /\ status b = "PENDING")
  \/ (is_confirmed b = false /\ is_pending b = false /\ is_cancelled b = true
      /\ status b = "CANCELLED")
  \/ (is_confirmed b = false /\ is_pending b = false /\ is_cancelled b = false
      /\ ~ enumerated_status (status b)).
Proof.
  unfold is_confirmed, is_pending, is_cancelled, enumerated_status.
  destruct (String.eqb_spec (status b) "CONFIRMED") as [E1 | N1];
    destruct (String.eqb_spec (status b) "COMPLETED") as [E2 | N2];
    destruct (String.eqb_spec (status b) "PENDING") as [E3 | N3];
    destruct (String.eqb_spec (status b) "CANCELLED") as [E4 | N4];
    simpl;
    try (rewrite E1 in *; discriminate);
    try (rewrite E2 in *; discriminate);
    try (rewrite E3 in *; discriminate);
    try (left; tauto);
    try (right; left; tauto);
    try (right; right; left; tauto).
  right; right; right. repeat split; try reflexivity. tauto.
Qed.

Lemma status_count_cons (s : string) (b : Booking) (l : list Booking) :
  status_count s (b :: l)
  = ((if String.eqb (status b) s then 1 else 0) + status_count s l)%nat.
Proof.
  unfold status_count. simpl.
  destruct (string_dec (status b) s) as [E | N].
  - rewrite E, String.eqb_refl. reflexivity.
  - apply String.eqb_neq in N. rewrite N. reflexivity.
Qed.

Lemma confirmed_length (l : list Booking) :
  length (confirmed l) = (status_count "CONFIRMED" l + status_count "COMPLETED" l)%nat.
Proof.
  induction l as [| b l IH]; [reflexivity | ].
  rewrite !status_count_cons. unfold confirmed in *. simpl.
  unfold is_confirmed at 1.
  destruct (String.eqb_spec (status b) "CONFIRMED") as [E1 | N1];
    destruct (String.eqb_spec (status b) "COMPLETED") as [E2 | N2];
    simpl; try lia.
  rewrite E1 in E2. discriminate.
Qed.

Lemma pending_length (l : list Booking) :
  length (pending l) = status_count "PENDING" l.
Proof.
  induction l as [| b l IH]; [reflexivity | ].
  rewrite status_count_cons. unfold pending in *. simpl. unfold is_pending at 1.
  destruct (String.eqb (status b) "PENDING"); simpl; lia.
Qed.

Lemma cancelled_length (l : list Booking) :
  length (cancelled l) = status_count "CANCELLED" l.
Proof.
  induction l as [| b l IH]; [reflexivity | ].
  rewrite status_count_cons. unfold cancelled in *. simpl. unfold is_cancelled at 1.
  destruct (String.eqb (status b) "CANCELLED"); simpl; lia.
Qed.

(** The three partitions never hold more than the list, and hold all of it
    exactly when every status is an enumerated one. *)
Lemma partition_total (l : list Booking) :
  (length (confirmed l) + length (pending l) + length (cancelled l) <= length l)%nat
  /\ ((length (confirmed l) + length (pending l) + length (cancelled l))%nat = length l
      <-> Forall (fun b => enumerated_status (status b)) l).
Proof.
  unfold confirmed, pending, cancelled.
  induction l as [| b l [IHle IHeq]]; simpl.
  - split; [lia | ]. split; [constructor | reflexivity].
  - destruct (status_cases b) as [(-> & -> & -> & Hs) | [(-> & -> & -> & Hs)
        | [(-> & -> & -> & Hs) | (-> & -> & -> & Hs)]]]; simpl.
    + split; [lia | ]. split.
      * intros H. constructor; [unfold enumerated_status; tauto | apply IHeq; lia].
      * intros H. inversion H; subst. apply IHeq in H3. lia.
    + split; [lia | ]. split.
      * intros H. constructor; [unfold enumerated_status; tauto | apply IHeq; lia].
      * intros H. inversion H; subst. apply IHeq in H3. lia.
    + split; [lia | ]. split.
      * intros H. constructor; [unfold enumerated_status; tauto | apply IHeq; lia].
      * intros H. inversion H; subst. apply IHeq in H3. lia.
    + split; [lia | ]. split.
      * intros H. lia.
      * intros H. inversion H; subst. contradiction.
Qed.

(** C3.  Within the filtered set, [confirmedCount] counts the statuses
    CONFIRMED and COMPLETED, [pendingCount] counts PENDING and
    [cancelledCount] counts CANCELLED; a booking with another status is in the
    total and in none of the three partitions.  So the three counts add up to
    at most [totalBookings], and to exactly [totalBookings] if and only if
    every filtered booking has one of the four enumerated statuses. *)
Theorem status_partition LocalTZA toLocaleDateString now bookings drivers settings
    timeRange :
  let s := analytics LocalTZA toLocaleDateString now bookings drivers settings timeRange in
  let fb := filteredBookings LocalTZA now timeRange bookings in
  Summary.totalBookings s = length fb
  /\ Summary.confirmedCount s
     = (status_count "CONFIRMED" fb + status_count "COMPLETED" fb)%nat
  /\ Summary.pendingCount s = status_count "PENDING" fb
  /\ Summary.cancelledCount s = status_count "CANCELLED" fb
  /\ (forall b, In b fb -> ~ enumerated_status (status b) ->
        ~ In b (confirmed fb) /\ ~ In b (pending fb) /\ ~ In b (cancelled fb))
  /\ (Summary.confirmedCount s + Summary.pendingCount s + Summary.cancelledCount s
      <= Summary.totalBookings s)%nat
  /\ ((Summary.confirmedCount s + Summary.pendingCount s + Summary.cancelledCount s)%nat
      = Summary.totalBookings s
      <-> Forall (fun b => enumerated_status (status b)) fb).
Proof.
  intros s fb. subst s. unfold analytics. simpl. fold fb.
  split; [reflexivity | ].
  split; [apply confirmed_length | ].
  split; [apply pending_length | ].
  split; [apply cancelled_length | ].
  split.
  - intros b _ Hother. unfold confirmed, pending, cancelled.
    rewrite !filter_In.
    destruct (status_cases b) as [(_ & _ & _ & Hs) | [(_ & _ & _ & Hs)
        | [(_ & _ & _ & Hs) | (E1 & E2 & E3 & _)]]].
    + exfalso. apply Hother. unfold enumerated_status. tauto.
    + exfalso. apply Hother. unfold enumerated_status. tauto.
    + exfalso. apply Hother. unfold enumerated_status. tauto.
    + rewrite E1, E2, E3. repeat split; intros [_ H]; discriminate.
  - apply partition_total.
Qed.

(** ** Financial figures *)

Lemma price_or_zero_value (b : Booking) :
  exists q, price_or_zero b = Fin q /\ (q == price_value b)%Q.
Proof.
  unfold price_or_zero, price_value, num_or, Number, Zero.
  destruct (numericPrice b) as [[| q] |]; simpl.
  - exists 0%Q. split; reflexivity.
  - destruct (Qeq_bool q 0) eqn:E; simpl.
    + exists 0%Q. split; [reflexivity | ]. apply Qeq_bool_eq in E. now rewrite E.
    + exists q. split; reflexivity.
  - exists 0%Q. split; reflexivity.
Qed.

Lemma gross_from (l : list Booking) (a : Q) :
  exists g,
    fold_left (fun sum b => num_add sum (price_or_zero b)) l (Fin a) = Fin g
    /\ (g == a + Qsum (map price_value l))%Q.
Proof.
  revert a. induction l as [| b l IH]; intros a; simpl.
  - exists a. split; [reflexivity | ring].
  - destruct (price_or_zero_value b) as (q & -> & Hq). simpl.
    destruct (IH (a + q)%Q) as (g & -> & Hg).
    exists g. split; [reflexivity | ]. rewrite Hg, Hq. ring.
Qed.

Lemma totalGross_sum (l : list Booking) :
  exists g, totalGross l = Fin g /\ (g == Qsum (map price_value l))%Q.
Proof.
  destruct (gross_from l 0) as (g & Hg & Hsum).
  exists g. split; [exact Hg | ]. rewrite Hsum. ring.
Qed.

Lemma round_half_up_nearest (x : Q) : nearest_integer x (round_half_up x).
Proof.
  unfold nearest_integer, round_half_up.
  pose proof (Qfloor_le (x + (1 # 2))) as Hle.
  pose proof (Qlt_floor (x + (1 # 2))) as Hlt.
  rewrite inject_Z_plus in Hlt. change (inject_Z 1) with 1%Q in Hlt.
  split; lra.
Qed.

(** The nearest integer is unique. *)
Lemma nearest_integer_unique (x : Q) (c d : Z) :
  nearest_integer x c -> nearest_integer x d -> c = d.
Proof.
  unfold nearest_integer. intros [Hc1 Hc2] [Hd1 Hd2].
  assert (H1 : (inject_Z c < inject_Z d + 1)%Q) by lra.
  assert (H2 : (inject_Z d < inject_Z c + 1)%Q) by lra.
  change 1%Q with (inject_Z 1) in H1, H2.
  rewrite <- inject_Z_plus in H1, H2.
  rewrite <- Zlt_Qlt in H1, H2. lia.
Qed.


(** ** Average order value *)

Lemma rounded_mean_error (g : Q) (n : nat) :
  (0 < n)%nat ->
  (Qabs (inject_Z (round_half_up (g / inject_Z (Z.of_nat n))) * inject_Z (Z.of_nat n) - g)
   <= inject_Z (Z.of_nat n) / 2)%Q.
Proof.
  intros Hn.
  set (m := inject_Z (Z.of_nat n)).
  assert (Hm : (0 < m)%Q).
  { unfold m. change 0%Q with (inject_Z 0). rewrite <- Zlt_Qlt. lia. }
  set (x := (g / m)%Q).
  destruct (round_half_up_nearest x) as [Hlo Hhi].
  set (a := inject_Z (round_half_up x)) in *.
  assert (Hg : (g == x * m)%Q).
  { unfold x. field. intros E. rewrite E in Hm. now apply Qlt_irrefl in Hm. }
  assert (E : (a * m - g == (a - x) * m)%Q) by (rewrite Hg; ring).
  rewrite E, Qabs_Qmult.
  rewrite (Qabs_pos m) by lra.
  assert (Habs : (Qabs (a - x) <= 1 # 2)%Q) by (apply Qabs_Qle_condition; split; lra).
  apply Qle_trans with ((1 # 2) * m)%Q.
  - apply Qmult_le_compat_r; [exact Habs | lra].
  - apply Qle_lteq. right. field.
Qed.


(** ** Trend series *)

Lemma StronglySorted_snoc {A : Type} (R : A -> A -> Prop) (l : list A) (x : A) :
  StronglySorted R l -> Forall (fun y => R y x) l -> StronglySorted R (l ++ [x]).
Proof.
  induction 1 as [| y l Hs IH Hy]; intros Hall; simpl.
  - repeat constructor.
  - inversion Hall; subst. constructor.
    + now apply IH.
    + apply Forall_app. split; [assumption | now repeat constructor].
Qed.

Lemma StronglySorted_rev {A : Type} (R : A -> A -> Prop) (l : list A) :
  StronglySorted R l -> StronglySorted (fun a b => R b a) (rev l).
Proof.
  induction 1 as [| x l Hs IH Hx]; simpl.
  - constructor.
  - apply StronglySorted_snoc; [assumption | ].
    apply Forall_rev. exact Hx.
Qed.

Lemma trendData_length toLocaleDateString (conf : list Booking) :
  length (trendData toLocaleDateString conf) = Nat.min 10 (length conf).
Proof.
  unfold trendData, slice0. rewrite length_rev, length_map. apply length_firstn.
Qed.

Lemma last_of_rev_map {A B : Type} (f : A -> B) (l : list A) (a : A) (d : B) :
  hd_error l = Some a -> last (rev (map f l)) d = f a.
Proof.
  destruct l as [| x l]; simpl; [discriminate | ].
  intros [= ->]. apply last_last.
Qed.



(** ** Dictionaries built by a loop *)

Lemma first_seen_In (l : list string) (k : string) : In k (first_seen l) <-> In k l.
Proof.
  induction l as [| x l IH]; simpl; [reflexivity | ].
  rewrite filter_In, IH, negb_true_iff, String.eqb_neq.
  destruct (string_dec x k) as [E | N]; tauto.
Qed.

Lemma first_seen_NoDup (l : list string) : NoDup (first_seen l).
Proof.
  induction l as [| x l IH]; simpl; constructor.
  - rewrite filter_In, negb_true_iff, String.eqb_neq. tauto.
  - now apply NoDup_filter.
Qed.

Lemma first_seen_snoc (l : list string) (k : string) :
  first_seen (l ++ [k])
  = if in_dec string_dec k l then first_seen l else first_seen l ++ [k].
Proof.
  induction l as [| x l IH]; simpl; [reflexivity | ].
  rewrite IH. destruct (in_dec string_dec k l) as [Hin | Hout].
  - destruct (string_dec x k); reflexivity.
  - destruct (string_dec x k) as [E | N].
    + subst x. rewrite filter_app. simpl. rewrite String.eqb_refl. simpl.
      now rewrite app_nil_r.
    + rewrite filter_app. simpl. apply String.eqb_neq in N. rewrite N. reflexivity.
Qed.

Section Tabulate.
Context {V : Type}.

Lemma get_tabulate (f : string -> V) (keys : list string) (k : string) :
  get (tabulate f keys) k = if in_dec string_dec k keys then Some (f k) else None.
Proof.
  induction keys as [| x keys IH]; simpl; [reflexivity | ].
  destruct (String.eqb_spec x k) as [E | N].
  - subst x. destruct (string_dec k k); [reflexivity | contradiction].
  - rewrite IH. destruct (string_dec x k); [contradiction | ].
    destruct (in_dec string_dec k keys); reflexivity.
Qed.

Lemma set_tabulate_new (f : string -> V) (keys : list string) (k : string) (v : V) :
  ~ In k keys -> set (tabulate f keys) k v = tabulate f keys ++ [(k, v)].
Proof.
  induction keys as [| x keys IH]; simpl; intros Hout; [reflexivity | ].
  destruct (String.eqb_spec x k) as [E | N]; [tauto | ].
  rewrite IH by tauto. reflexivity.
Qed.

Lemma set_tabulate_old (f g : string -> V) (keys : list string) (k : string) (v : V) :
  In k keys -> NoDup keys -> g k = v -> (forall x, x <> k -> g x = f x) ->
  set (tabulate f keys) k v = tabulate g keys.
Proof.
  intros Hin Hnd Hk Hother.
  induction keys as [| x keys IH]; simpl; [contradiction | ].
  inversion Hnd as [| ? ? Hx Hnd']; subst.
  destruct (String.eqb_spec x k) as [E | N].
  - subst x. f_equal. unfold tabulate. apply map_ext_in.
    intros y Hy. rewrite Hother; [reflexivity | ]. intros ->. contradiction.
  - rewrite (Hother x N). f_equal. apply IH; [ | assumption].
    destruct Hin; [contradiction | assumption].
Qed.

Lemma update_tabulate (f g : string -> V) (h : V -> V) (keys : list string) (k : string) :
  NoDup keys -> g k = h (f k) -> (forall x, x <> k -> g x = f x) ->
  update (tabulate f keys) k h = tabulate g keys.
Proof.
  intros Hnd Hk Hother.
  induction keys as [| x keys IH]; simpl; [reflexivity | ].
  inversion Hnd as [| ? ? Hx Hnd']; subst.
  destruct (String.eqb_spec x k) as [E | N].
  - subst x. rewrite Hk. f_equal. unfold tabulate. apply map_ext_in.
    intros y Hy. rewrite Hother; [reflexivity | ]. intros ->. contradiction.
  - rewrite (Hother x N). f_equal. now apply IH.
Qed.

Lemma update_snoc (o : JSObject V) (k : string) (v : V) (h : V -> V) :
  get o k = None -> update (o ++ [(k, v)]) k h = o ++ [(k, h v)].
Proof.
  induction o as [| [x w] o IH]; simpl; intros Hget.
  - now rewrite String.eqb_refl.
  - destruct (String.eqb x k); [discriminate | ]. now rewrite IH.
Qed.

Lemma tabulate_snoc (f : string -> V) (keys : list string) (k : string) :
  tabulate f (keys ++ [k]) = tabulate f keys ++ [(k, f k)].
Proof.
  unfold tabulate. now rewrite map_app.
Qed.

Lemma tabulate_ext (f g : string -> V) (keys : list string) :
  (forall k, In k keys -> f k = g k) -> tabulate f keys = tabulate g keys.
Proof.
  intros H. unfold tabulate. apply map_ext_in. intros k Hk. now rewrite H.
Qed.
End Tabulate.

Lemma occurrences_snoc (k t : string) (l : list string) :
  occurrences k (l ++ [t]) = occurrences k l + (if string_dec t k then 1 else 0).
Proof.
  unfold occurrences. rewrite count_occ_app. simpl.
  destruct (string_dec t k); lia.
Qed.

Lemma title_of_str_or (b : Booking) : str_or (tourTitle b) "Custom" = title_of b.
Proof.
  unfold str_or, title_of, truthy_str.
  destruct (tourTitle b) as [[| c t] |]; reflexivity.
Qed.

(** The loop over the filtered bookings leaves every title with its number
    of occurrences, titles in the order of their first occurrence. *)
Lemma routePopularity_table (fb : list Booking) : routePopularity fb = route_table fb.
Proof.
  unfold routePopularity, route_table.
  induction fb as [| b fb IH] using rev_ind; [reflexivity | ].
  rewrite fold_left_app. simpl. rewrite IH. clear IH.
  unfold route_step. rewrite title_of_str_or.
  rewrite map_app. simpl.
  set (titles := map title_of fb). set (t := title_of b).
  rewrite get_tabulate, first_seen_snoc.
  destruct (in_dec string_dec t (first_seen titles)) as [Hin | Hout];
    destruct (in_dec string_dec t titles) as [Hin' | Hout'];
    try (rewrite first_seen_In in Hin; contradiction);
    try (rewrite first_seen_In in Hout; contradiction).
  - simpl. apply set_tabulate_old.
    + assumption.
    + apply first_seen_NoDup.
    + rewrite occurrences_snoc. destruct (string_dec t t); [reflexivity | contradiction].
    + intros x Hx. rewrite occurrences_snoc.
      destruct (string_dec t x); [congruence | lia].
  - simpl. rewrite set_tabulate_new by assumption.
    rewrite tabulate_snoc. f_equal.
    + apply tabulate_ext. intros k Hk. rewrite occurrences_snoc.
      destruct (string_dec t k); [ | lia]. subst k. contradiction.
    + f_equal. f_equal. rewrite occurrences_snoc.
      destruct (string_dec t t); [ | contradiction].
      unfold occurrences. rewrite (proj1 (count_occ_not_In string_dec titles t)); auto.
Qed.

Lemma update_twice_tabulate {V : Type} (f g : string -> V) (h1 h2 : V -> V)
    (keys : list string) (k : string) :
  NoDup keys -> g k = h2 (h1 (f k)) -> (forall x, x <> k -> g x = f x) ->
  update (update (tabulate f keys) k h1) k h2 = tabulate g keys.
Proof.
  intros Hnd Hk Hother.
  rewrite (update_tabulate f (fun x => if string_dec x k then h1 (f x) else f x) h1).
  - apply update_tabulate; [assumption | | ].
    + destruct (string_dec k k); [assumption | contradiction].
    + intros x Hx. destruct (string_dec x k); [contradiction | now apply Hother].
  - assumption.
  - destruct (string_dec k k); [reflexivity | contradiction].
  - intros x Hx. destruct (string_dec x k); [contradiction | reflexivity].
Qed.

Lemma truthy_str_Some (s : option string) (t : string) :
  truthy_str s = Some t -> s = Some t.
Proof.
  destruct s as [[| c r] |]; simpl; intros H; try discriminate; exact H.
Qed.

Lemma has_driver_cases (b : Booking) :
  (has_driver b = true
   /\ truthy_str (driverId b) = Some (id_of b)
   /\ truthy_str (driverName b) = Some (name_of b))
  \/ (has_driver b = false
      /\ forall dp, driver_step dp b = dp).
Proof.
  unfold has_driver, driver_step, id_of, name_of.
  destruct (truthy_str (driverId b)) as [id |] eqn:Eid.
  - destruct (truthy_str (driverName b)) as [nm |] eqn:Enm.
    + left. apply truthy_str_Some in Eid, Enm. rewrite Eid, Enm. auto.
    + right. auto.
  - right. auto.
Qed.

Lemma trips_of_snoc (x : string) (l : list Booking) (b : Booking) :
  trips_of x (l ++ [b])
  = trips_of x l ++ (if string_dec (id_of b) x then [b] else []).
Proof.
  unfold trips_of. rewrite filter_app. simpl.
  destruct (String.eqb_spec (id_of b) x) as [E | N];
    destruct (string_dec (id_of b) x); try contradiction; reflexivity.
Qed.

Lemma trips_of_nil (x : string) (l : list Booking) :
  ~ In x (map id_of l) -> trips_of x l = [].
Proof.
  intros Hout. unfold trips_of.
  induction l as [| b l IH]; simpl in *; [reflexivity | ].
  destruct (String.eqb_spec (id_of b) x) as [E | N]; [tauto | apply IH; tauto].
Qed.

Lemma trips_of_cons (x : string) (l : list Booking) :
  In x (map id_of l) -> exists b rest, trips_of x l = b :: rest.
Proof.
  intros Hin. apply in_map_iff in Hin as (b & Hb & Hin).
  assert (Hf : In b (trips_of x l)).
  { unfold trips_of. apply filter_In. split; [assumption | ].
    rewrite Hb. apply String.eqb_refl. }
  destruct (trips_of x l) as [| b' rest]; [contradiction | eauto].
Qed.

Lemma totalGross_snoc (l : list Booking) (b : Booking) :
  totalGross (l ++ [b]) = num_add (totalGross l) (price_or_zero b).
Proof.
  unfold totalGross. now rewrite fold_left_app.
Qed.

(** The loop over the confirmed bookings leaves every driver that a booking
    names by identifier and by name with the driver's line, drivers in the
    order of their first such booking. *)
Lemma driverPerformance_table (conf : list Booking) :
  driverPerformance conf = driver_table conf.
Proof.
  unfold driverPerformance, driver_table, group_by_driver.
  induction conf as [| b conf IH] using rev_ind; [reflexivity | ].
  rewrite fold_left_app. simpl. rewrite IH. clear IH.
  rewrite filter_app. simpl.
  destruct (has_driver_cases b) as [(-> & Hid & Hnm) | (-> & Hskip)];
    [ | rewrite Hskip, app_nil_r; reflexivity].
  set (elig := filter has_driver conf).
  unfold driver_step. rewrite Hid, Hnm.
  set (id := id_of b) in *. set (nm := name_of b) in *.
  rewrite map_app. simpl. fold id.
  set (ids := map id_of elig).
  rewrite get_tabulate, first_seen_snoc.
  destruct (in_dec string_dec id (first_seen ids)) as [Hin | Hout];
    destruct (in_dec string_dec id ids) as [Hin' | Hout'];
    try (rewrite first_seen_In in Hin; contradiction);
    try (rewrite first_seen_In in Hout; contradiction).
  - apply update_twice_tabulate.
    + apply first_seen_NoDup.
    + unfold driver_group. rewrite trips_of_snoc. fold id.
      destruct (string_dec id id); [ | contradiction].
      destruct (trips_of_cons id elig Hin') as (b0 & rest & ->). simpl.
      f_equal.
      * rewrite length_app. simpl. lia.
      * change (b0 :: rest ++ [b]) with ((b0 :: rest) ++ [b]).
        apply totalGross_snoc.
    + intros x Hx. unfold driver_group. rewrite trips_of_snoc. fold id.
      destruct (string_dec id x); [congruence | ]. now rewrite app_nil_r.
  - rewrite set_tabulate_new by assumption.
    assert (Hget : get (tabulate (driver_group elig) (first_seen ids)) id = None).
    { rewrite get_tabulate.
      destruct (in_dec string_dec id (first_seen ids)); [contradiction | reflexivity]. }
    rewrite update_snoc by assumption.
    rewrite update_snoc by assumption.
    rewrite tabulate_snoc. f_equal.
    + apply tabulate_ext. intros x Hx. unfold driver_group.
      rewrite trips_of_snoc. fold id.
      destruct (string_dec id x) as [E | N]; [ | now rewrite app_nil_r].
      subst x. contradiction.
    + f_equal. f_equal. unfold driver_group. rewrite trips_of_snoc. fold id.
      destruct (string_dec id id); [ | contradiction].
      rewrite (trips_of_nil id elig Hout'). reflexivity.
Qed.

(** ** Sorting *)

Section SortFacts.
Context {A : Type}.
Variable comparefn : A -> A -> number.
Variable key : A -> Q.
Variable ok : A -> Prop.

(** On the elements that are [ok], the comparator orders by descending
    key. *)
Hypothesis comparefn_key :
  forall x y, ok x -> ok y ->
    (Qle_bool (SortCompare comparefn x y) 0 = true <-> (key y <= key x)%Q).

Lemma sort_insert_Permutation (x : A) (l : list A) :
  Permutation (x :: l) (sort_insert comparefn x l).
Proof.
  induction l as [| y l IH]; simpl; [reflexivity | ].
  destruct (Qle_bool (SortCompare comparefn x y) 0); [reflexivity | ].
  rewrite perm_swap. now apply perm_skip.
Qed.

Lemma Array_sort_Permutation (l : list A) : Permutation l (Array_sort comparefn l).
Proof.
  induction l as [| x l IH]; simpl; [reflexivity | ].
  rewrite <- sort_insert_Permutation. now apply perm_skip.
Qed.

Lemma Array_sort_ok (l : list A) : Forall ok l -> Forall ok (Array_sort comparefn l).
Proof.
  intros H. eapply Permutation_Forall; [apply Array_sort_Permutation | exact H].
Qed.

Lemma sort_insert_sorted (x : A) (l : list A) :
  ok x -> Forall ok l ->
  StronglySorted (fun a b => (key b <= key a)%Q) l ->
  StronglySorted (fun a b => (key b <= key a)%Q) (sort_insert comparefn x l).
Proof.
  intros Hx Hok Hs. induction Hs as [| y l Hs IH Hy]; simpl.
  - repeat constructor.
  - inversion Hok as [| ? ? Hoky Hokl]; subst.
    destruct (Qle_bool (SortCompare comparefn x y) 0) eqn:E.
    + apply comparefn_key in E; [ | assumption | assumption].
      constructor; [now constructor | ].
      constructor; [exact E | ].
      eapply Forall_impl; [ | exact Hy]. simpl. intros z Hz.
      now apply Qle_trans with (key y).
    + assert (Hlt : (key x < key y)%Q).
      { apply Qnot_le_lt. intros Hle.
        apply comparefn_key in Hle; [congruence | assumption | assumption]. }
      constructor; [now apply IH | ].
      eapply Permutation_Forall; [apply sort_insert_Permutation | ].
      constructor; [now apply Qlt_le_weak | exact Hy].
Qed.

Lemma Array_sort_sorted (l : list A) :
  Forall ok l -> StronglySorted (fun a b => (key b <= key a)%Q) (Array_sort comparefn l).
Proof.
  induction 1 as [| x l Hx Hl IH]; simpl; [constructor | ].
  apply sort_insert_sorted; [assumption | now apply Array_sort_ok | assumption].
Qed.

Lemma sort_insert_stable (k : Q) (x : A) (l : list A) :
  ok x -> Forall ok l ->
  filter (fun a => Qeq_bool (key a) k) (sort_insert comparefn x l)
  = filter (fun a => Qeq_bool (key a) k) (x :: l).
Proof.
  intros Hx Hok. induction Hok as [| y l Hy Hl IH]; [reflexivity | ].
  simpl. destruct (Qle_bool (SortCompare comparefn x y) 0) eqn:E; [reflexivity | ].
  assert (Hlt : (key x < key y)%Q).
  { apply Qnot_le_lt. intros Hle.
    apply comparefn_key in Hle; [congruence | assumption | assumption]. }
  simpl. rewrite IH. simpl.
  destruct (Qeq_bool (key x) k) eqn:Ex; [ | reflexivity].
  destruct (Qeq_bool (key y) k) eqn:Ey; [ | reflexivity].
  apply Qeq_bool_eq in Ex, Ey. rewrite Ex, Ey in Hlt.
  now apply Qlt_irrefl in Hlt.
Qed.

Lemma Array_sort_stable (k : Q) (l : list A) :
  Forall ok l ->
  filter (fun a => Qeq_bool (key a) k) (Array_sort comparefn l)
  = filter (fun a => Qeq_bool (key a) k) l.
Proof.
  induction 1 as [| x l Hx Hl IH]; [reflexivity | ].
  simpl Array_sort. rewrite sort_insert_stable by (auto using Array_sort_ok).
  simpl. now rewrite IH.
Qed.

Lemma Array_sort_ranked (l : list A) :
  Forall ok l -> ranked key l (Array_sort comparefn l).
Proof.
  intros Hok. repeat split.
  - apply Array_sort_Permutation.
  - now apply Array_sort_sorted.
  - intros k. now apply Array_sort_stable.
Qed.
End SortFacts.

Lemma In_firstn {A : Type} (x : A) (n : nat) (l : list A) :
  In x (firstn n l) -> In x l.
Proof.
  revert l. induction n as [| n IH]; intros [| y l]; simpl; try tauto.
  intros [E | H]; [now left | right; now apply IH].
Qed.

Lemma StronglySorted_firstn {A : Type} (R : A -> A -> Prop) (n : nat) (l : list A) :
  StronglySorted R l -> StronglySorted R (firstn n l).
Proof.
  intros Hs. revert n. induction Hs as [| x l Hs IH Hx]; intros [| n]; simpl;
    try constructor.
  - apply IH.
  - apply Forall_forall. intros y Hy. apply In_firstn in Hy.
    rewrite Forall_forall in Hx. now apply Hx.
Qed.

Lemma by_count_key (x y : RouteStat) :
  Qle_bool (SortCompare by_count x y) 0 = true <-> (count_key y <= count_key x)%Q.
Proof.
  unfold SortCompare, by_count, count_key.
  rewrite Qle_bool_iff. change 0%Q with (inject_Z 0).
  rewrite <- !Zle_Qle. lia.
Qed.

Lemma by_revenue_key (x y : DriverStat) :
  is_Fin (revenue x) -> is_Fin (revenue y) ->
  (Qle_bool (SortCompare by_revenue x y) 0 = true <-> (revenue_key y <= revenue_key x)%Q).
Proof.
  unfold SortCompare, by_revenue, revenue_key.
  destruct (revenue x) as [| rx]; [contradiction | ].
  destruct (revenue y) as [| ry]; [contradiction | ].
  intros _ _. simpl. rewrite Qle_bool_iff. split; intros H; lra.
Qed.

(** ** Enumeration order *)

Section EnumerationFacts.
Context {V : Type}.

Lemma insert_by_index_Permutation (e : string * V) (l : list (string * V)) :
  Permutation (e :: l) (insert_by_index e l).
Proof.
  induction l as [| e' l IH]; simpl; [reflexivity | ].
  destruct (index_of (fst e) <=? index_of (fst e'))%N; [reflexivity | ].
  rewrite perm_swap. now apply perm_skip.
Qed.

Lemma sort_by_index_Permutation (l : list (string * V)) :
  Permutation l (sort_by_index l).
Proof.
  induction l as [| e l IH]; simpl; [reflexivity | ].
  rewrite <- insert_by_index_Permutation. now apply perm_skip.
Qed.

Lemma partition_Permutation {B : Type} (p : B -> bool) (l : list B) :
  Permutation l (filter p l ++ filter (fun x => negb (p x)) l).
Proof.
  induction l as [| x l IH]; simpl; [reflexivity | ].
  destruct (p x); simpl.
  - now apply perm_skip.
  - now apply Permutation_cons_app.
Qed.

Lemma Object_entries_Permutation (o : JSObject V) : Permutation o (Object_entries o).
Proof.
  unfold Object_entries.
  rewrite <- sort_by_index_Permutation. apply partition_Permutation.
Qed.

(** Without array indices among the keys, the properties are enumerated in
    creation order. *)
Lemma Object_entries_creation_order (o : JSObject V) :
  Forall (fun e => is_index (fst e) = false) o -> Object_entries o = o.
Proof.
  intros H. unfold Object_entries.
  assert (Hnone : filter (fun e : string * V => is_index (fst e)) o = []).
  { induction H as [| e o He Ho IH]; [reflexivity | ]. simpl. now rewrite He. }
  assert (Hall : filter (fun e : string * V => negb (is_index (fst e))) o = o).
  { induction H as [| e o He Ho IH]; [reflexivity | ].
    simpl in *. rewrite He in *. simpl. f_equal. now apply IH. }
  rewrite Hnone, Hall. reflexivity.
Qed.
End EnumerationFacts.

(** ** Leaderboard and route popularity *)

Lemma StronglySorted_weaken {A : Type} (R S : A -> A -> Prop) (l : list A) :
  (forall a b, R a b -> S a b) -> StronglySorted R l -> StronglySorted S l.
Proof.
  intros HRS. induction 1 as [| x l Hs IH Hx]; constructor; [assumption | ].
  eapply Forall_impl; [ | exact Hx]. intros b. apply HRS.
Qed.

Lemma Object_values_Forall {V : Type} (P : V -> Prop) (o : JSObject V) :
  Forall P (map snd o) -> Forall P (Object_values o).
Proof.
  intros H. unfold Object_values.
  eapply Permutation_Forall; [ | exact H].
  apply Permutation_map. apply Object_entries_Permutation.
Qed.

Lemma driver_table_Fin (conf : list Booking) :
  Forall (fun d => is_Fin (revenue d)) (Object_values (driver_table conf)).
Proof.
  apply Object_values_Forall. unfold driver_table, group_by_driver, tabulate.
  rewrite map_map. simpl. apply Forall_forall. intros d Hd.
  apply in_map_iff in Hd as (k & <- & _).
  unfold driver_group. simpl.
  destruct (totalGross_sum (trips_of k (filter has_driver conf))) as (g & -> & _).
  exact I.
Qed.

Lemma tabulate_keys {V : Type} (f : string -> V) (P : string -> Prop) (keys : list string) :
  Forall P keys -> Forall (fun e => P (fst e)) (tabulate f keys).
Proof.
  unfold tabulate. induction 1; simpl; constructor; assumption.
Qed.

Lemma StronglySorted_app_cross {A : Type} (R : A -> A -> Prop) (l1 l2 : list A) :
  StronglySorted R (l1 ++ l2) -> forall a b, In a l1 -> In b l2 -> R a b.
Proof.
  induction l1 as [| x l1 IH]; simpl; intros Hs a b Ha Hb; [contradiction | ].
  inversion Hs as [| ? ? Hs' Hx]; subst.
  destruct Ha as [-> | Ha].
  - rewrite Forall_forall in Hx. apply Hx. apply in_or_app. now right.
  - now apply IH.
Qed.

(** Whatever is listed and not among the first five ranks no higher than
    any of the first five. *)
Lemma ranked_top5_dominates {A : Type} (key : A -> Q) (listed top : list A) :
  ranked_top5 key listed top ->
  forall a b, In a top -> In b listed -> ~ In b top -> (key b <= key a)%Q.
Proof.
  intros (sorted & (Hperm & Hsorted & _) & ->) a b Ha Hb Hout.
  rewrite <- (firstn_skipn 5 sorted) in Hsorted.
  apply (StronglySorted_app_cross _ _ _ Hsorted a b Ha).
  apply (Permutation_in _ Hperm) in Hb.
  rewrite <- (firstn_skipn 5 sorted) in Hb.
  apply in_app_or in Hb as [Hb | Hb]; [contradiction | assumption].
Qed.

Lemma ranked_top5_listed {A : Type} (key : A -> Q) (listed top : list A) :
  ranked_top5 key listed top -> forall a, In a top -> In a listed.
Proof.
  intros (sorted & (Hperm & _ & _) & ->) a Ha.
  apply In_firstn in Ha. apply Permutation_sym in Hperm.
  now apply (Permutation_in _ Hperm).
Qed.

Lemma Object_values_tabulate {V : Type} (f : string -> V) (keys : list string) (v : V) :
  In v (Object_values (tabulate f keys)) -> exists k, In k keys /\ v = f k.
Proof.
  intros Hin. unfold Object_values in Hin.
  apply in_map_iff in Hin as ([k w] & <- & Hin).
  apply (Permutation_in _ (Permutation_sym (Object_entries_Permutation _))) in Hin.
  unfold tabulate in Hin. apply in_map_iff in Hin as (k' & [= <- <-] & Hk).
  exists k'. split; [assumption | reflexivity].
Qed.

Lemma Object_entries_tabulate {V : Type} (f : string -> V) (keys : list string)
    (e : string * V) :
  In e (Object_entries (tabulate f keys)) -> In (fst e) keys /\ snd e = f (fst e).
Proof.
  intros Hin.
  apply (Permutation_in _ (Permutation_sym (Object_entries_Permutation _))) in Hin.
  unfold tabulate in Hin. apply in_map_iff in Hin as (k & <- & Hk).
  split; [assumption | reflexivity].
Qed.



(** ** The program on a store *)

Lemma run_step {A B : Type} (m : M A) (k : A -> M B) (s s' : store) (a : A)
    (res : option (B * store)) :
  m s = Some (a, s') -> k a s' = res -> (x <- m ;; k x) s = res.
Proof.
  intros Hm Hk. unfold bind. now rewrite Hm.
Qed.

Lemma nth_error_last (s : store) (c : cell) : nth_error (s ++ [c]) (length s) = Some c.
Proof.
  rewrite nth_error_app2 by lia. now rewrite Nat.sub_diag.
Qed.

Lemma replace_nth_last (s : store) (c c' : cell) :
  replace_nth (length s) c' (s ++ [c]) = s ++ [c'].
Proof.
  induction s as [| x s IH]; simpl; [reflexivity | now rewrite IH].
Qed.

Lemma load_at {A : Type} (K : shape A) (r : ref) (a : A) (s : store) :
  nth_error s r = Some (wrap K a) -> load K r s = Some (a, s).
Proof.
  intros H. unfold load. now rewrite H, unwrap_wrap.
Qed.

Lemma store_last {A : Type} (K : shape A) (a : A) (s : store) (c : cell) :
  store_at K (length s) a (s ++ [c]) = Some (tt, s ++ [wrap K a]).
Proof.
  unfold store_at. rewrite length_app. simpl.
  destruct (Nat.ltb_spec (length s) (length s + 1)) as [_ | H]; [ | lia].
  now rewrite replace_nth_last.
Qed.

Section Methods.
Context {A : Type}.
Variable K : shape (list A).

Lemma Array_filter_run (p : A -> bool) (r : ref) (a : list A) (s : store) :
  nth_error s r = Some (wrap K a) ->
  Array_filter K p r s = Some (length s, s ++ [wrap K (filter p a)]).
Proof.
  intros H. unfold Array_filter.
  eapply run_step; [apply load_at; exact H | reflexivity].
Qed.

Lemma Array_map_run {B : Type} (K' : shape (list B)) (f : A -> B) (r : ref)
    (a : list A) (s : store) :
  nth_error s r = Some (wrap K a) ->
  Array_map K K' f r s = Some (length s, s ++ [wrap K' (map f a)]).
Proof.
  intros H. unfold Array_map.
  eapply run_step; [apply load_at; exact H | reflexivity].
Qed.

Lemma Array_slice0_run (n : nat) (r : ref) (a : list A) (s : store) :
  nth_error s r = Some (wrap K a) ->
  Array_slice0 K n r s = Some (length s, s ++ [wrap K (firstn n a)]).
Proof.
  intros H. unfold Array_slice0.
  eapply run_step; [apply load_at; exact H | reflexivity].
Qed.

Lemma Array_length_run (r : ref) (a : list A) (s : store) :
  nth_error s r = Some (wrap K a) -> Array_length K r s = Some (length a, s).
Proof.
  intros H. unfold Array_length.
  eapply run_step; [apply load_at; exact H | reflexivity].
Qed.

Lemma Array_reduce_run {B : Type} (f : B -> A -> B) (init : B) (r : ref)
    (a : list A) (s : store) :
  nth_error s r = Some (wrap K a) ->
  Array_reduce K f init r s = Some (fold_left f a init, s).
Proof.
  intros H. unfold Array_reduce.
  eapply run_step; [apply load_at; exact H | reflexivity].
Qed.

(** Sorting the array created last changes that cell and no other. *)
Lemma Array_sort_last (comparefn : A -> A -> number) (a : list A) (s : store) :
  Array_sort_in_place K comparefn (length s) (s ++ [wrap K a])
  = Some (length s, s ++ [wrap K (Array_sort comparefn a)]).
Proof.
  unfold Array_sort_in_place.
  eapply run_step; [apply load_at, nth_error_last | ].
  eapply run_step; [apply store_last | reflexivity].
Qed.

Lemma Array_reverse_last (a : list A) (s : store) :
  Array_reverse K (length s) (s ++ [wrap K a])
  = Some (length s, s ++ [wrap K (rev a)]).
Proof.
  unfold Array_reverse.
  eapply run_step; [apply load_at, nth_error_last | ].
  eapply run_step; [apply store_last | reflexivity].
Qed.
End Methods.

Section ObjectMethods.
Context {V : Type}.
Variable K : shape (JSObject V).

Lemma prop_get_last (k : string) (o : JSObject V) (s : store) :
  prop_get K (length s) k (s ++ [wrap K o]) = Some (get o k, s ++ [wrap K o]).
Proof.
  unfold prop_get. eapply run_step; [apply load_at, nth_error_last | reflexivity].
Qed.

Lemma prop_set_last (k : string) (v : V) (o : JSObject V) (s : store) :
  prop_set K (length s) k v (s ++ [wrap K o]) = Some (tt, s ++ [wrap K (set o k v)]).
Proof.
  unfold prop_set. eapply run_step; [apply load_at, nth_error_last | apply store_last].
Qed.

Lemma prop_update_last (k : string) (f : V -> V) (o : JSObject V) (s : store) :
  prop_update K (length s) k f (s ++ [wrap K o])
  = Some (tt, s ++ [wrap K (update o k f)]).
Proof.
  unfold prop_update. eapply run_step; [apply load_at, nth_error_last | apply store_last].
Qed.

Lemma values_of_run (K' : shape (list V)) (r : ref) (o : JSObject V) (s : store) :
  nth_error s r = Some (wrap K o) ->
  values_of K K' r s = Some (length s, s ++ [wrap K' (Object_values o)]).
Proof.
  intros H. unfold values_of. eapply run_step; [apply load_at; exact H | reflexivity].
Qed.

Lemma entries_of_run (K' : shape (list (string * V))) (r : ref) (o : JSObject V)
    (s : store) :
  nth_error s r = Some (wrap K o) ->
  entries_of K K' r s = Some (length s, s ++ [wrap K' (Object_entries o)]).
Proof.
  intros H. unfold entries_of. eapply run_step; [apply load_at; exact H | reflexivity].
Qed.
End ObjectMethods.

Lemma driver_body_last (b : Booking) (o : JSObject DriverStat) (s : store) :
  driver_body (length s) b (s ++ [DriverDict o])
  = Some (tt, s ++ [DriverDict (driver_step o b)]).
Proof.
  unfold driver_body, driver_step.
  destruct (truthy_str (driverId b)) as [id |]; [ | reflexivity].
  destruct (truthy_str (driverName b)) as [nm |]; [ | reflexivity].
  eapply run_step; [apply (prop_get_last driverDict) | ].
  destruct (get o id) as [d |].
  - eapply run_step; [reflexivity | ].
    eapply run_step; [apply (prop_update_last driverDict) | ].
    apply (prop_update_last driverDict).
  - eapply run_step; [apply (prop_set_last driverDict) | ].
    eapply run_step; [apply (prop_update_last driverDict) | ].
    apply (prop_update_last driverDict).
Qed.

Lemma route_body_last (b : Booking) (o : JSObject Z) (s : store) :
  route_body (length s) b (s ++ [RouteDict o])
  = Some (tt, s ++ [RouteDict (route_step o b)]).
Proof.
  unfold route_body, route_step.
  eapply run_step; [apply (prop_get_last routeDict) | ].
  apply (prop_set_last routeDict).
Qed.

Lemma driver_loop_last (l : list Booking) (o : JSObject DriverStat) (s : store) :
  forEach_loop (driver_body (length s)) l (s ++ [DriverDict o])
  = Some (tt, s ++ [DriverDict (fold_left driver_step l o)]).
Proof.
  revert o. induction l as [| b l IH]; intros o; simpl; [reflexivity | ].
  eapply run_step; [apply driver_body_last | apply IH].
Qed.

Lemma route_loop_last (l : list Booking) (o : JSObject Z) (s : store) :
  forEach_loop (route_body (length s)) l (s ++ [RouteDict o])
  = Some (tt, s ++ [RouteDict (fold_left route_step l o)]).
Proof.
  revert o. induction l as [| b l IH]; intros o; simpl; [reflexivity | ].
  eapply run_step; [apply route_body_last | apply IH].
Qed.

Lemma driver_forEach_last (r : ref) (l : list Booking) (s : store) :
  nth_error (s ++ [DriverDict []]) r = Some (BookingArray l) ->
  Array_forEach bookingArray (driver_body (length s)) r (s ++ [DriverDict []])
  = Some (tt, s ++ [DriverDict (driverPerformance l)]).
Proof.
  intros H. unfold Array_forEach.
  eapply run_step; [apply (load_at bookingArray); exact H | apply driver_loop_last].
Qed.

Lemma route_forEach_last (r : ref) (l : list Booking) (s : store) :
  nth_error (s ++ [RouteDict []]) r = Some (BookingArray l) ->
  Array_forEach bookingArray (route_body (length s)) r (s ++ [RouteDict []])
  = Some (tt, s ++ [RouteDict (routePopularity l)]).
Proof.
  intros H. unfold Array_forEach.
  eapply run_step; [apply (load_at bookingArray); exact H | apply route_loop_last].
Qed.

Lemma preserved_refl (s : store) : preserved s s.
Proof.
  intros r _. reflexivity.
Qed.

Lemma preserved_snoc (s s' : store) (c : cell) :
  preserved s s' -> preserved s (s' ++ [c]).
Proof.
  intros H r Hr. rewrite <- (H r Hr).
  apply nth_error_app1. apply nth_error_Some. rewrite (H r Hr).
  now apply nth_error_Some.
Qed.

Lemma read_commission_run (s s' : store) (r : option ref)
    (settings : option SystemSettings) :
  settings_at s r settings -> preserved s s' ->
  read_commission r s' = Some (commission settings, s').
Proof.
  unfold settings_at, read_commission, commission.
  destruct r as [p |], settings as [v |]; try contradiction; intros H Hkeep.
  - eapply run_step; [apply (load_at settingsRecord) | reflexivity].
    rewrite Hkeep; [exact H | ].
    apply nth_error_Some. rewrite H. discriminate.
  - reflexivity.
Qed.

(** Finding a cell of a store that grew by single cells. *)
Ltac lookup :=
  repeat first
    [ eassumption
    | apply nth_error_last
    | rewrite nth_error_app1 by (rewrite ?length_app; simpl; lia) ].

Ltac step lem := eapply run_step; [lem | cbv beta zeta].

Ltac keeps := repeat apply preserved_snoc; apply preserved_refl.

(** One run of the block: it ends, it leaves every cell of the store it
    started in as it was, and the object it returns, read from the store it
    ends in, is the value of [analytics] on the contents of the arrays and of
    the settings record it was given. *)
Lemma analytics_run_result LocalTZA toLocaleDateString now rb rd rs timeRange
    (s : store) bookings drivers settings :
  nth_error s rb = Some (BookingArray bookings) ->
  nth_error s rd = Some (DriverArray drivers) ->
  settings_at s rs settings ->
  exists out s',
    analytics_run LocalTZA toLocaleDateString now rb rd rs timeRange s = Some (out, s')
    /\ preserved s s'
    /\ snapshot s' out
       = Some (analytics LocalTZA toLocaleDateString now bookings drivers settings timeRange).
Proof.
  intros Hb Hd Hs.
  assert (Hrb : (rb < length s)%nat) by (apply nth_error_Some; rewrite Hb; discriminate).
  assert (Hrd : (rd < length s)%nat) by (apply nth_error_Some; rewrite Hd; discriminate).
  unfold analytics_run.
  eexists. eexists. split; [ | split].
  - step ltac:(eapply (Array_filter_run bookingArray); lookup).
    step ltac:(eapply (Array_filter_run bookingArray); lookup).
    step ltac:(eapply (Array_filter_run bookingArray); lookup).
    step ltac:(eapply (Array_filter_run bookingArray); lookup).
    step ltac:(eapply (Array_reduce_run bookingArray); lookup).
    step ltac:(eapply read_commission_run; [exact Hs | keeps]).
    step ltac:(eapply (Array_length_run bookingArray); lookup).
    step ltac:(reflexivity).
    step ltac:(apply driver_forEach_last; lookup).
    step ltac:(eapply (values_of_run driverDict driverStatArray); lookup).
    step ltac:(apply (Array_sort_last driverStatArray)).
    step ltac:(eapply (Array_slice0_run driverStatArray); lookup).
    step ltac:(reflexivity).
    step ltac:(apply route_forEach_last; lookup).
    step ltac:(eapply (entries_of_run routeDict entryArray); lookup).
    step ltac:(eapply (Array_map_run entryArray routeStatArray); lookup).
    step ltac:(apply (Array_sort_last routeStatArray)).
    step ltac:(eapply (Array_slice0_run routeStatArray); lookup).
    step ltac:(eapply (Array_slice0_run bookingArray); lookup).
    step ltac:(eapply (Array_map_run bookingArray trendArray); lookup).
    step ltac:(apply (Array_reverse_last trendArray)).
    step ltac:(eapply (Array_length_run bookingArray); lookup).
    step ltac:(eapply (Array_length_run bookingArray); lookup).
    step ltac:(eapply (Array_length_run bookingArray); lookup).
    step ltac:(eapply (Array_length_run bookingArray); lookup).
    step ltac:(eapply (Array_filter_run driverArray); lookup).
    step ltac:(eapply (Array_length_run driverArray); lookup).
    step ltac:(eapply (Array_filter_run driverArray); lookup).
    step ltac:(eapply (Array_length_run driverArray); lookup).
    reflexivity.
  - keeps.
  - unfold snapshot.
    cbn [Outcome.topDrivers Outcome.topRoutes Outcome.trendData].
    repeat match goal with
           | |- context [nth_error ?S ?r] =>
               let H := fresh in
               eassert (H : nth_error S r = Some _) by lookup;
               rewrite H; clear H
           end.
    reflexivity.
Qed.

Lemma snapshot_preserved (s s' : store) (out : Outcome.t) (v : Summary.t) :
  preserved s s' -> snapshot s out = Some v -> snapshot s' out = Some v.
Proof.
  intros Hkeep. unfold snapshot.
  destruct (nth_error s (Outcome.topDrivers out)) as [c1 |] eqn:E1; [ | discriminate].
  destruct (nth_error s (Outcome.topRoutes out)) as [c2 |] eqn:E2;
    [ | destruct c1; discriminate].
  destruct (nth_error s (Outcome.trendData out)) as [c3 |] eqn:E3;
    [ | destruct c1; try discriminate; destruct c2; discriminate].
  rewrite !Hkeep by (apply nth_error_Some; congruence).
  now rewrite E1, E2, E3.
Qed.

Lemma settings_at_preserved (s s' : store) (r : option ref)
    (settings : option SystemSettings) :
  preserved s s' -> settings_at s r settings -> settings_at s' r settings.
Proof.
  intros Hkeep. unfold settings_at.
  destruct r as [p |], settings as [v |]; try tauto.
  intros H. rewrite Hkeep; [exact H | ].
  apply nth_error_Some. rewrite H. discriminate.
Qed.


(** ** Degenerate inputs *)

Lemma round_half_up_zero (x : Q) : (x == 0)%Q -> round_half_up x = 0.
Proof.
  intros Hx. apply (nearest_integer_unique x).
  - apply round_half_up_nearest.
  - unfold nearest_integer. change (inject_Z 0) with 0%Q. split; lra.
Qed.

Lemma Qsum_missing (l : list Booking) :
  Forall price_missing l -> (Qsum (map price_value l) == 0)%Q.
Proof.
  induction 1 as [| b l Hb _ IH]; simpl; [reflexivity | ].
  rewrite IH. unfold price_value. destruct Hb as [-> | ->]; reflexivity.
Qed.

Lemma commission_default (settings : option SystemSettings) :
  settings = None \/ settings = Some (mkSettings None) ->
  commission settings = Fin (13 # 100).
Proof.
  intros [-> | ->]; reflexivity.
Qed.

Lemma aov_value (g : Q) (conf : list Booking) :
  exists a, aov (Fin g) conf = Fin a /\ ((g == 0)%Q -> (a == 0)%Q).
Proof.
  unfold aov. destruct (0 <? length conf)%nat.
  - simpl. eexists. split; [reflexivity | ].
    intros Hg. rewrite round_half_up_zero; [reflexivity | ].
    rewrite Hg. unfold Qdiv. ring.
  - exists 0%Q. split; [reflexivity | intros _; reflexivity].
Qed.



(** ** Examples and counterexamples *)

(** The example of the specification: one confirmed booking of 100 and one
    pending booking, both of today, at the rate 0.13. *)
Example worked_example :
  analytics utc utc_day_month sample_now example_bookings [] rate_13 TODAY
  = Summary.mk 2 1 1 0 (Fin 100) (Fin 13) (Fin 87) (Fin 100)
      [] [mkRouteStat "Custom" 2] [mkTrendPoint "14 Nov" (price_of 100)] 0 0.
Proof. vm_compute. reflexivity. Qed.

Example empty_collection (timeRange : TimeRange) :
  analytics utc utc_day_month sample_now [] [] rate_13 timeRange
  = Summary.mk 0 0 0 0 (Fin 0) (Fin 0) (Fin 0) (Fin 0) [] [] [] 0 0.
Proof. destruct timeRange; vm_compute; reflexivity. Qed.

(** [Math.round] sends a tie upwards, also below zero. *)
Example round_ties_up :
  round_half_up (5 # 2) = 3 /\ round_half_up (- (5 # 2)) = -2
  /\ round_half_up (13 # 10) = 1 /\ round_half_up (- (17 # 10)) = -2.
Proof. vm_compute. repeat split. Qed.

Example calendar_samples :
  civil_from_days 0 = (1970, 1, 1)
  /\ civil_from_days (-1) = (1969, 12, 31)
  /\ civil_from_days (Day 951782400000) = (2000, 2, 29)
  /\ civil_from_days (Day sample_now) = (2023, 11, 14)
  /\ days_from_civil 2024 3 1 = Day 1709251200000.
Proof. vm_compute. repeat split. Qed.

Example array_index_samples :
  array_index "0" = Some 0%N /\ array_index "42" = Some 42%N
  /\ array_index "042" = None /\ array_index "4294967294" = Some 4294967294%N
  /\ array_index "4294967295" = None /\ array_index "drv-17" = None
  /\ array_index "" = None.
Proof. vm_compute. repeat split. Qed.

(** A confirmed booking without a numeric price: nothing in the gross, the
    missing value in the trend series. *)
Example unpriced_booking_figures :
  let s := analytics utc utc_day_month sample_now [unpriced_booking] [] rate_13 ALL in
  Summary.totalGross s = Fin 0
  /\ Summary.trendData s = [mkTrendPoint "14 Nov" None]
  /\ Summary.topDrivers s = [mkDriverStat "Nino" 1 (Fin 0)]
  /\ Summary.topRoutes s = [mkRouteStat "Kazbegi" 1].
Proof. vm_compute. repeat split. Qed.

Lemma sample_clock_in_range : clock_in_range sample_now.
Proof. unfold clock_in_range, maxTime, month_ms, sample_now. lia. Defined.

Lemma filteredBookings_window_witness :
  clock_in_range sample_now
  /\ incl (filteredBookings utc sample_now WEEK example_bookings) example_bookings
  /\ filteredBookings utc sample_now ALL example_bookings = example_bookings.
Proof.
  split; [exact sample_clock_in_range | ].
  pose proof (filteredBookings_window utc sample_now WEEK example_bookings
                sample_clock_in_range) as (_ & _ & Hincl & Hall & _).
  split; [exact Hincl | exact Hall].
Defined.

(** With at most five entries listed, the first five of a ranking are the
    whole ranking. *)
Lemma ranked_top5_all {A : Type} (key : A -> Q) (listed top : list A) :
  (length listed <= 5)%nat -> ranked_top5 key listed top ->
  length top = length listed
  /\ forall k, filter (fun a => Qeq_bool (key a) k) top
               = filter (fun a => Qeq_bool (key a) k) listed.
Proof.
  intros Hlen (sorted & (Hperm & _ & Hstable) & ->).
  apply Permutation_length in Hperm.
  rewrite firstn_all2 by lia. split; [now symmetry | exact Hstable].
Qed.






(** * Further properties of the engine *)

(** ** Nested time ranges *)

Lemma filter_filter_narrow {A : Type} (f g : A -> bool) (l : list A) :
  (forall a, f a = true -> g a = true) ->
  filter f (filter g l) = filter f l.
Proof.
  intros Hfg. induction l as [| x l IH]; simpl; [reflexivity | ].
  destruct (g x) eqn:Eg; simpl.
  - now rewrite IH.
  - destruct (f x) eqn:Ef; [ | exact IH].
    apply Hfg in Ef. congruence.
Qed.

Lemma filter_comm_local {A : Type} (f g : A -> bool) (l : list A) :
  filter f (filter g l) = filter g (filter f l).
Proof.
  induction l as [| x l IH]; simpl; [reflexivity | ].
  destruct (f x) eqn:Ef, (g x) eqn:Eg; simpl; rewrite ?Ef, ?Eg, IH; reflexivity.
Qed.

Lemma filter_length_le {A : Type} (f : A -> bool) (l : list A) :
  (length (filter f l) <= length l)%nat.
Proof.
  induction l as [| x l IH]; simpl; [lia | ]. destruct (f x); simpl; lia.
Qed.

Lemma week_within_month LocalTZA now b :
  clock_in_range now ->
  in_time_range LocalTZA now WEEK b = true -> in_time_range LocalTZA now MONTH b = true.
Proof.
  intros Hnow Hw.
  apply (in_time_range_created_within LocalTZA now WEEK b Hnow) in Hw.
  apply (in_time_range_created_within LocalTZA now MONTH b Hnow).
  simpl in *. destruct Hw as (t & Ht & Hle). exists t. split; [assumption | lia].
Qed.

Lemma today_within_week LocalTZA now b :
  clock_in_range now -> offset_bounded LocalTZA ->
  in_time_range LocalTZA now TODAY b = true -> in_time_range LocalTZA now WEEK b = true.
Proof.
  intros Hnow Htz Hd.
  apply (in_time_range_created_within LocalTZA now TODAY b Hnow) in Hd.
  apply (in_time_range_created_within LocalTZA now WEEK b Hnow).
  simpl in *. destruct Hd as (t & Ht & Hsame). exists t. split; [assumption | ].
  apply same_calendar_day_iff in Hsame.
  unfold Day, LocalTime in Hsame.
  pose proof (Htz t) as H1. pose proof (Htz now) as H2.
  unfold msPerDay in *.
  assert (Hclose : Z.abs (t + LocalTZA t - (now + LocalTZA now)) < 86400000).
  { revert Hsame. generalize (t + LocalTZA t) (now + LocalTZA now). intros x y Hxy.
    pose proof (Z.div_mod x 86400000 ltac:(discriminate)) as Hx.
    pose proof (Z.div_mod y 86400000 ltac:(discriminate)) as Hy.
    pose proof (Z.mod_pos_bound x 86400000 ltac:(lia)) as Bx.
    pose proof (Z.mod_pos_bound y 86400000 ltac:(lia)) as By.
    rewrite Hxy in Hx. lia. }
  lia.
Qed.

(** X1.  Widening the time range never loses a booking: the WEEK set is the
    MONTH set filtered once more, the MONTH set is drawn from the collection,
    and, the local offset staying within a day, the TODAY set is the WEEK set
    filtered once more.  The totals follow. *)
Theorem ranges_nested LocalTZA toLocaleDateString now bookings drivers settings :
  clock_in_range now -> offset_bounded LocalTZA ->
  let set r := filteredBookings LocalTZA now r bookings in
  let total r :=
    Summary.totalBookings
      (analytics LocalTZA toLocaleDateString now bookings drivers settings r) in
  let conf r :=
    Summary.confirmedCount
      (analytics LocalTZA toLocaleDateString now bookings drivers settings r) in
  set TODAY = filter (in_time_range LocalTZA now TODAY) (set WEEK)
  /\ set WEEK = filter (in_time_range LocalTZA now WEEK) (set MONTH)
  /\ set MONTH = filter (in_time_range LocalTZA now MONTH) (set ALL)
  /\ incl (set TODAY) (set WEEK) /\ incl (set WEEK) (set MONTH)
  /\ incl (set MONTH) (set ALL)
  /\ (total TODAY <= total WEEK <= total MONTH)%nat
  /\ (total MONTH <= total ALL)%nat /\ total ALL = length bookings
  /\ (conf TODAY <= conf WEEK <= conf MONTH)%nat /\ (conf MONTH <= conf ALL)%nat.
Proof.
  intros Hnow Htz set total conf.
  assert (E1 : set TODAY = filter (in_time_range LocalTZA now TODAY) (set WEEK)).
  { unfold set, filteredBookings. symmetry. apply filter_filter_narrow.
    intros b. now apply today_within_week. }
  assert (E2 : set WEEK = filter (in_time_range LocalTZA now WEEK) (set MONTH)).
  { unfold set, filteredBookings. symmetry. apply filter_filter_narrow.
    intros b. now apply week_within_month. }
  assert (E3 : set MONTH = filter (in_time_range LocalTZA now MONTH) (set ALL)).
  { unfold set, filteredBookings. symmetry. now apply filter_filter_narrow. }
  assert (E4 : set ALL = bookings) by apply filter_all_true.
  assert (C1 : confirmed (set TODAY)
               = filter (in_time_range LocalTZA now TODAY) (confirmed (set WEEK))).
  { unfold confirmed. rewrite E1 at 1. apply filter_comm_local. }
  assert (C2 : confirmed (set WEEK)
               = filter (in_time_range LocalTZA now WEEK) (confirmed (set MONTH))).
  { unfold confirmed. rewrite E2 at 1. apply filter_comm_local. }
  assert (C3 : confirmed (set MONTH)
               = filter (in_time_range LocalTZA now MONTH) (confirmed (set ALL))).
  { unfold confirmed. rewrite E3 at 1. apply filter_comm_local. }
  split; [exact E1 | ]. split; [exact E2 | ]. split; [exact E3 | ].
  split; [rewrite E1; intros b Hb; apply filter_In in Hb; tauto | ].
  split; [rewrite E2; intros b Hb; apply filter_In in Hb; tauto | ].
  split; [rewrite E3; intros b Hb; apply filter_In in Hb; tauto | ].
  unfold total, conf, analytics. simpl. fold (set TODAY) (set WEEK) (set MONTH) (set ALL).
  split; [split; [rewrite E1 | rewrite E2]; apply filter_length_le | ].
  split; [rewrite E3; apply filter_length_le | ].
  split; [now rewrite E4 | ].
  split; [split; [rewrite C1 | rewrite C2]; apply filter_length_le | ].
  rewrite C3. apply filter_length_le.
Qed.

Lemma utc_offset_bounded : offset_bounded utc.
Proof. intros t. unfold utc, msPerDay. lia. Defined.

Lemma ranges_nested_witness :
  clock_in_range sample_now /\ offset_bounded utc
  /\ incl (filteredBookings utc sample_now TODAY example_bookings)
          (filteredBookings utc sample_now WEEK example_bookings).
Proof.
  split; [exact sample_clock_in_range | ]. split; [exact utc_offset_bounded | ].
  pose proof (ranges_nested utc utc_day_month sample_now example_bookings [] None
                sample_clock_in_range utc_offset_bounded) as (_ & _ & _ & H & _).
  exact H.
Defined.

(** ** The order of the collections *)

Lemma Qsum_Permutation (l l' : list Q) : Permutation l l' -> (Qsum l == Qsum l')%Q.
Proof.
  induction 1 as [| x l l' _ IH | x y l | l l' l'' _ IH1 _ IH2]; simpl.
  - reflexivity.
  - now rewrite IH.
  - ring.
  - now rewrite IH1.
Qed.

Lemma filter_Permutation {A : Type} (f : A -> bool) (l l' : list A) :
  Permutation l l' -> Permutation (filter f l) (filter f l').
Proof.
  induction 1 as [| x l l' _ IH | x y l | l l' l'' _ IH1 _ IH2]; simpl.
  - reflexivity.
  - destruct (f x); [now apply perm_skip | assumption].
  - destruct (f x), (f y); try reflexivity. apply perm_swap.
  - now transitivity (filter f l').
Qed.

Lemma round_half_up_Qeq (x y : Q) : (x == y)%Q -> round_half_up x = round_half_up y.
Proof.
  intros H. unfold round_half_up. now rewrite H.
Qed.



(** ** Every booking under one route, every trip under one driver *)

Lemma Zsum_app (l l' : list Z) : Zsum (l ++ l') = Zsum l + Zsum l'.
Proof.
  induction l as [| x l IH]; simpl; [reflexivity | rewrite IH; ring].
Qed.

Lemma Zsum_Permutation (l l' : list Z) : Permutation l l' -> Zsum l = Zsum l'.
Proof.
  induction 1 as [| x l l' _ IH | x y l | l l' l'' _ IH1 _ IH2]; simpl; lia.
Qed.

Lemma Zsum_bump (f : string -> Z) (t : string) (keys : list string) :
  NoDup keys ->
  Zsum (map (fun k => f k + (if string_dec t k then 1 else 0)) keys)
  = Zsum (map f keys) + (if in_dec string_dec t keys then 1 else 0).
Proof.
  induction 1 as [| x keys Hx Hnd IH]; simpl; [reflexivity | ].
  rewrite IH.
  destruct (string_dec x t) as [E | N].
  - subst x. destruct (string_dec t t); [ | contradiction].
    destruct (in_dec string_dec t keys); [contradiction | lia].
  - destruct (string_dec t x); [congruence | ].
    destruct (in_dec string_dec t keys); lia.
Qed.

(** The occurrences of the distinct keys of a list add up to its length. *)
Lemma occurrences_total (l : list string) :
  Zsum (map (fun k => occurrences k l) (first_seen l)) = Z.of_nat (length l).
Proof.
  induction l as [| t l IH] using rev_ind; [reflexivity | ].
  rewrite first_seen_snoc, length_app. simpl length.
  rewrite (map_ext (fun k => occurrences k (l ++ [t]))
                   (fun k => occurrences k l + (if string_dec t k then 1 else 0)))
    by (intros k; apply occurrences_snoc).
  destruct (in_dec string_dec t l) as [Hin | Hout].
  - rewrite Zsum_bump by apply first_seen_NoDup. rewrite IH.
    destruct (in_dec string_dec t (first_seen l)) as [_ | Hn]; [lia | ].
    rewrite first_seen_In in Hn. contradiction.
  - rewrite map_app, Zsum_app.
    rewrite Zsum_bump by apply first_seen_NoDup. rewrite IH.
    destruct (in_dec string_dec t (first_seen l)) as [Hy | _].
    + rewrite first_seen_In in Hy. contradiction.
    + simpl. destruct (string_dec t t); [ | contradiction].
      unfold occurrences. rewrite (proj1 (count_occ_not_In string_dec l t)) by assumption.
      lia.
Qed.

Lemma occurrences_positive (t : string) (l : list string) :
  In t l -> 1 <= occurrences t l.
Proof.
  intros Hin. unfold occurrences.
  apply (count_occ_In string_dec) in Hin. lia.
Qed.

Lemma Zsum_firstn_skipn (n : nat) (l : list Z) :
  Zsum l = Zsum (firstn n l) + Zsum (skipn n l).
Proof.
  rewrite <- Zsum_app. now rewrite firstn_skipn.
Qed.

Lemma Zsum_positive (l : list Z) :
  Forall (fun z => 1 <= z) l -> (l = [] /\ Zsum l = 0) \/ (l <> [] /\ 1 <= Zsum l).
Proof.
  induction 1 as [| x l Hx Hl IH]; [left; auto | right].
  split; [discriminate | ]. simpl. destruct IH as [[_ E] | [_ P]]; lia.
Qed.


Lemma trips_of_length (id : string) (l : list Booking) :
  Z.of_nat (length (trips_of id l)) = occurrences id (map id_of l).
Proof.
  unfold occurrences, trips_of. f_equal.
  induction l as [| b l IH]; simpl; [reflexivity | ].
  destruct (String.eqb_spec (id_of b) id) as [E | N];
    destruct (string_dec (id_of b) id); try contradiction; simpl; now rewrite IH.
Qed.

Lemma Qsum_app (l l' : list Q) : (Qsum (l ++ l') == Qsum l + Qsum l')%Q.
Proof.
  induction l as [| x l IH]; simpl; [ring | rewrite IH; ring].
Qed.

Lemma Qsum_ext {A : Type} (f g : A -> Q) (l : list A) :
  (forall a, In a l -> (f a == g a)%Q) -> (Qsum (map f l) == Qsum (map g l))%Q.
Proof.
  induction l as [| x l IH]; simpl; intros H; [reflexivity | ].
  rewrite (H x) by now left. rewrite IH; [reflexivity | ].
  intros a Ha. apply H. now right.
Qed.

Lemma Qsum_bump (f : string -> Q) (t : string) (v : Q) (keys : list string) :
  NoDup keys ->
  (Qsum (map (fun k => f k + (if string_dec t k then v else 0)) keys)
   == Qsum (map f keys) + (if in_dec string_dec t keys then v else 0))%Q.
Proof.
  induction 1 as [| x keys Hx Hnd IH]; simpl; [ring | ].
  rewrite IH.
  destruct (string_dec x t) as [E | N].
  - subst x. destruct (string_dec t t); [ | contradiction].
    destruct (in_dec string_dec t keys); [contradiction | ring].
  - destruct (string_dec t x); [congruence | ].
    destruct (in_dec string_dec t keys); ring.
Qed.

(** The prices of the bookings of the distinct drivers add up to the prices
    of all bookings. *)
Lemma prices_by_driver (l : list Booking) :
  (Qsum (map (fun id => Qsum (map price_value (trips_of id l)))
             (first_seen (map id_of l)))
   == Qsum (map price_value l))%Q.
Proof.
  induction l as [| b l IH] using rev_ind; [reflexivity | ].
  rewrite !map_app. simpl map. rewrite first_seen_snoc, Qsum_app. simpl Qsum.
  set (ids := map id_of l) in *. set (t := id_of b).
  assert (Hstep : forall keys,
             (Qsum (map (fun id => Qsum (map price_value (trips_of id (l ++ [b])))) keys)
              == Qsum (map (fun id => Qsum (map price_value (trips_of id l))
                                      + (if string_dec t id then price_value b else 0))
                           keys))%Q).
  { intros keys. apply Qsum_ext. intros id _. rewrite trips_of_snoc. fold t.
    rewrite map_app, Qsum_app. destruct (string_dec t id); simpl; ring. }
  destruct (in_dec string_dec t ids) as [Hin | Hout].
  - rewrite Hstep, Qsum_bump by apply first_seen_NoDup. rewrite IH.
    destruct (in_dec string_dec t (first_seen ids)) as [_ | Hn]; [ring | ].
    rewrite first_seen_In in Hn. contradiction.
  - rewrite Hstep, map_app, Qsum_app, Qsum_bump by apply first_seen_NoDup.
    rewrite IH.
    destruct (in_dec string_dec t (first_seen ids)) as [Hy | _].
    + rewrite first_seen_In in Hy. contradiction.
    + simpl. destruct (string_dec t t); [ | contradiction].
      rewrite (trips_of_nil t l Hout). simpl. ring.
Qed.


(** ** The status bar and the trend bars *)

Lemma percent_of (a T : Q) :
  (0 < T ->
   (a / T * 100 <= 100 <-> a <= T)
   /\ (a / T * 100 == 100 <-> a == T)
   /\ (0 <= a -> 0 <= a / T * 100))%Q.
Proof.
  intros HT.
  assert (Ha : (a == (a / T) * T)%Q)
    by (field; intros E; rewrite E in HT; now apply Qlt_irrefl in HT).
  set (u := (a / T)%Q) in *. clearbody u.
  split; [ | split].
  - split; intros H.
    + rewrite Ha. assert ((u <= 1)%Q) by lra. nra.
    + assert ((u * T <= T)%Q) by (rewrite <- Ha; exact H).
      assert ((u <= 1)%Q) by nra. lra.
  - split; intros H.
    + rewrite Ha. assert (Hu : (u == 1)%Q) by lra. rewrite Hu. ring.
    + assert ((u * T == T)%Q) by (rewrite <- Ha; exact H).
      assert ((u == 1)%Q) by nra. lra.
  - intros H. assert ((0 <= u * T)%Q) by (rewrite <- Ha; exact H).
    assert ((0 <= u)%Q) by nra. lra.
Qed.

Lemma inject_nat_pos (n : nat) : (0 < n)%nat -> (0 < inject_Z (Z.of_nat n))%Q.
Proof.
  intros H. change 0%Q with (inject_Z 0). rewrite <- Zlt_Qlt. lia.
Qed.

Lemma bar_width_value (c t : nat) :
  (0 < t)%nat ->
  bar_width c t = Fin (inject_Z (Z.of_nat c) / inject_Z (Z.of_nat t) * 100).
Proof.
  intros H. unfold bar_width. destruct (Nat.eqb_spec t 0) as [E | _]; [lia | reflexivity].
Qed.


(** ** The revenue trend bars *)

Lemma Math_max_NaN (first : number) (rest : list number) :
  In NaN (first :: rest) -> Math_max first rest = NaN.
Proof.
  unfold Math_max. revert first.
  induction rest as [| y rest IH]; intros first H; simpl in *.
  - destruct H as [H | []]. exact H.
  - apply IH. destruct H as [H | [H | H]].
    + left. subst. reflexivity.
    + left. subst. destruct first; reflexivity.
    + now right.
Qed.

Lemma Math_max_Fin (first : number) (rest : list number) :
  Forall is_Fin (first :: rest) ->
  exists m, Math_max first rest = Fin m
            /\ In (Fin m) (first :: rest)
            /\ forall v, In (Fin v) (first :: rest) -> (v <= m)%Q.
Proof.
  unfold Math_max. revert first.
  induction rest as [| y rest IH]; intros first H; simpl.
  - inversion H as [| ? ? Hf _]; subst. destruct first as [| x]; [destruct Hf | ].
    exists x. split; [reflexivity | ]. split; [now left | ].
    intros v [E | []]. injection E as <-. apply Qle_refl.
  - inversion H as [| ? ? Hf Hr]; subst. inversion Hr as [| ? ? Hy Hrest]; subst.
    destruct first as [| x]; [destruct Hf | ]. destruct y as [| y]; [destruct Hy | ].
    simpl.
    destruct (IH (Fin (if Qle_bool x y then y else x))) as (m & Hm & Hin & Hmax).
    { constructor; [exact I | exact Hrest]. }
    exists m. split; [exact Hm | ].
    assert (Hxy : (x <= (if Qle_bool x y then y else x)
                   /\ y <= (if Qle_bool x y then y else x))%Q).
    { destruct (Qle_bool x y) eqn:E.
      - apply Qle_bool_iff in E. split; [exact E | apply Qle_refl].
      - split; [apply Qle_refl | ].
        apply Qlt_le_weak, Qnot_le_lt. intros Hle.
        apply Qle_bool_iff in Hle. congruence. }
    split.
    + destruct Hin as [E | Hin].
      * rewrite <- E. destruct (Qle_bool x y); [right; now left | now left].
      * right. now right.
    + intros v [E | [E | Hv]].
      * injection E as <-.
        apply Qle_trans with (if Qle_bool x y then y else x); [apply Hxy | ].
        apply Hmax. now left.
      * injection E as <-.
        apply Qle_trans with (if Qle_bool x y then y else x); [apply Hxy | ].
        apply Hmax. now left.
      * apply Hmax. now right.
Qed.

Lemma trend_bars_length (td : list TrendPoint) : length (trend_bars td) = length td.
Proof.
  unfold trend_bars. destruct td as [| t td]; [reflexivity | ].
  simpl. f_equal. apply length_map.
Qed.

Lemma trend_bars_flat (td : list TrendPoint) (first : number) (rest : list number) :
  map (fun t => Number (amount t)) td = first :: rest ->
  num_gtb (Math_max first rest) Zero = false ->
  Forall (fun h => h = Zero) (trend_bars td).
Proof.
  intros E Hm. unfold trend_bars. rewrite E. apply Forall_forall.
  intros h Hh. apply in_map_iff in Hh. destruct Hh as (d & <- & _).
  cbv zeta. now rewrite Hm.
Qed.

Lemma trend_bars_NaN (td : list TrendPoint) :
  (exists t, In t td /\ Number (amount t) = NaN) ->
  Forall (fun h => h = Zero) (trend_bars td).
Proof.
  intros (t & Hin & Hn).
  destruct (map (fun t => Number (amount t)) td) as [| first rest] eqn:E.
  - destruct td; [destruct Hin | discriminate E].
  - apply (trend_bars_flat td first rest E).
    rewrite Math_max_NaN; [reflexivity | ].
    rewrite <- E, <- Hn.
    exact (in_map (fun t => Number (amount t)) td t Hin).
Qed.

Lemma trend_bars_scaled (td : list TrendPoint) :
  Forall (fun t => is_Fin (Number (amount t))) td ->
  td <> [] ->
  exists m,
    (exists t, In t td /\ Number (amount t) = Fin m)
    /\ (forall t, In t td -> (num_value (Number (amount t)) <= m)%Q)
    /\ ((m <= 0)%Q -> Forall (fun h => h = Zero) (trend_bars td))
    /\ ((0 < m)%Q ->
        trend_bars td
        = map (fun t => Fin (num_value (Number (amount t)) / m * 100)) td).
Proof.
  intros Hf Hne.
  destruct (map (fun t => Number (amount t)) td) as [| first rest] eqn:E.
  { destruct td; [congruence | discriminate E]. }
  destruct (Math_max_Fin first rest) as (m & Hm & Hin & Hmax).
  { rewrite <- E. apply Forall_forall. intros a Ha.
    apply in_map_iff in Ha. destruct Ha as (t & <- & Ht).
    rewrite Forall_forall in Hf. now apply Hf. }
  exists m. split; [ | split; [ | split]].
  - rewrite <- E in Hin. apply in_map_iff in Hin.
    destruct Hin as (t & Ht & Htd). now exists t.
  - intros t Ht. rewrite Forall_forall in Hf. specialize (Hf t Ht).
    destruct (Number (amount t)) as [| q] eqn:Eq; [destruct Hf | ]. simpl.
    apply Hmax. rewrite <- E, <- Eq.
    exact (in_map (fun t => Number (amount t)) td t Ht).
  - intros Hle. apply (trend_bars_flat td first rest E). rewrite Hm. simpl.
    apply Qle_bool_iff in Hle. now rewrite Hle.
  - intros Hpos. unfold trend_bars. rewrite E. apply map_ext_in.
    intros t Ht. cbv zeta. rewrite Hm. simpl.
    destruct (Qle_bool m 0) eqn:Em.
    + apply Qle_bool_iff in Em. exfalso. apply (Qlt_irrefl 0).
      now apply Qlt_le_trans with m.
    + simpl. rewrite Forall_forall in Hf. specialize (Hf t Ht).
      destruct (Number (amount t)) as [| q]; [destruct Hf | reflexivity].
Qed.

Lemma Number_price_missing (b : Booking) :
  Number (numericPrice b) = NaN <-> price_missing b.
Proof.
  unfold price_missing. destruct (numericPrice b) as [[| q] | ]; simpl; split;
    intros H; try reflexivity; try discriminate; try tauto;
    destruct H as [H | H]; discriminate H.
Qed.

Lemma Number_price_value (b : Booking) :
  num_value (Number (numericPrice b)) = price_value b.
Proof.
  unfold price_value. destruct (numericPrice b) as [[| q] | ]; reflexivity.
Qed.

Lemma In_trendData toLocaleDateString (conf : list Booking) (t : TrendPoint) :
  In t (trendData toLocaleDateString conf)
  <-> exists b, In b (firstn 10 conf) /\ t = trend_point toLocaleDateString b.
Proof.
  unfold trendData, slice0. rewrite <- in_rev, in_map_iff.
  split; intros (b & H1 & H2).
  - exists b. split; [exact H2 | now symmetry].
  - exists b. split; [now symmetry | exact H1].
Qed.


(** ** The fleet counts *)

Lemma fleet_partition (drivers : list Driver) :
  let active := length (filter (fun d => String.eqb (driver_status d) "ACTIVE") drivers) in
  let waiting := length (filter (fun d => String.eqb (driver_status d) "PENDING") drivers) in
  (active + waiting <= length drivers)%nat
  /\ ((active + waiting)%nat = length drivers
      <-> Forall (fun d => driver_status d = "ACTIVE" \/ driver_status d = "PENDING")
                 drivers).
Proof.
  induction drivers as [| d l [IHle IHeq]]; simpl.
  - split; [lia | ]. split; [constructor | reflexivity].
  - destruct (String.eqb_spec (driver_status d) "ACTIVE") as [Ea | Ea];
      destruct (String.eqb_spec (driver_status d) "PENDING") as [Ep | Ep]; simpl.
    + rewrite Ea in Ep. discriminate Ep.
    + split; [lia | ]. split; intros H.
      * constructor; [now left | ]. apply IHeq. lia.
      * inversion H; subst. apply IHeq in H3. lia.
    + split; [lia | ]. split; intros H.
      * constructor; [now right | ]. apply IHeq. lia.
      * inversion H; subst. apply IHeq in H3. lia.
    + split; [lia | ]. split; intros H.
      * lia.
      * inversion H; subst. tauto.
Qed.

(** X7.  The two fleet counts never exceed the number of drivers together;
    they add up to it exactly when every driver is ACTIVE or PENDING (an
    INACTIVE driver is in neither count); and they do not depend on the
    bookings, the clock, the settings or the selected time range. *)
Theorem fleet_counts LocalTZA toLocaleDateString now bookings drivers settings timeRange :
  let s := analytics LocalTZA toLocaleDateString now bookings drivers settings timeRange in
  (Summary.activeDrivers s + Summary.pendingDrivers s <= length drivers)%nat
  /\ ((Summary.activeDrivers s + Summary.pendingDrivers s)%nat = length drivers
      <-> Forall (fun d => driver_status d = "ACTIVE" \/ driver_status d = "PENDING")
                 drivers)
  /\ (forall d, In d drivers -> driver_status d = "INACTIVE" ->
        (Summary.activeDrivers s + Summary.pendingDrivers s < length drivers)%nat)
  /\ forall LocalTZA' toLocaleDateString' now' bookings' settings' timeRange',
       let s' := analytics LocalTZA' toLocaleDateString' now' bookings' drivers settings'
                           timeRange' in
       Summary.activeDrivers s' = Summary.activeDrivers s
       /\ Summary.pendingDrivers s' = Summary.pendingDrivers s.
Proof.
  intros s. subst s. unfold analytics. cbn [Summary.activeDrivers Summary.pendingDrivers].
  destruct (fleet_partition drivers) as [Hle Heq]. cbv zeta in Hle, Heq.
  split; [exact Hle | ]. split; [exact Heq | ]. split.
  - intros d Hd Hs.
    destruct (Nat.eq_dec
                (length (filter (fun d => String.eqb (driver_status d) "ACTIVE") drivers)
                 + length (filter (fun d => String.eqb (driver_status d) "PENDING") drivers))
                (length drivers)) as [E | N]; [ | lia].
    apply Heq in E. rewrite Forall_forall in E. specialize (E d Hd).
    rewrite Hs in E. destruct E as [E | E]; discriminate E.
  - intros. split; reflexivity.
Qed.

(** ** Text: [split], [trim] and [join] *)

Lemma split_nonempty (sep : code_unit) (s : text) : split sep s <> [].
Proof.
  destruct s as [| c s]; simpl; [discriminate | ].
  destruct (N.eqb c sep); [discriminate | ].
  destruct (split sep s); discriminate.
Qed.

Lemma split_length (sep : code_unit) (s : text) :
  length (split sep s) = S (count_occ N.eq_dec s sep).
Proof.
  induction s as [| c s IH]; [reflexivity | ].
  simpl. destruct (N.eqb_spec c sep) as [E | N].
  - destruct (N.eq_dec c sep) as [_ | N']; [ | congruence]. simpl. now rewrite IH.
  - destruct (N.eq_dec c sep) as [E' | _]; [congruence | ].
    rewrite <- IH. destruct (split sep s) eqn:Es; [ | reflexivity].
    now apply split_nonempty in Es.
Qed.

Lemma split_free (sep : code_unit) (s : text) :
  Forall (fun w => ~ In sep w) (split sep s).
Proof.
  induction s as [| c s IH]; simpl.
  - constructor; [intros [] | constructor].
  - destruct (N.eqb_spec c sep) as [E | N].
    + constructor; [intros [] | exact IH].
    + destruct (split sep s) as [| w ws].
      * constructor; [ | constructor]. intros [H | []]. congruence.
      * inversion IH; subst. constructor; [ | assumption].
        intros [H | H]; [congruence | contradiction].
Qed.

Lemma split_whole (sep : code_unit) (s : text) : ~ In sep s -> split sep s = [s].
Proof.
  induction s as [| c s IH]; intros H; [reflexivity | ].
  simpl. destruct (N.eqb_spec c sep) as [E | N].
  - exfalso. apply H. now left.
  - rewrite IH; [reflexivity | ]. intros Hin. apply H. now right.
Qed.

Lemma split_app (sep : code_unit) (x y : text) :
  ~ In sep x -> split sep (x ++ sep :: y) = x :: split sep y.
Proof.
  induction x as [| c x IH]; intros H; simpl.
  - now rewrite N.eqb_refl.
  - destruct (N.eqb_spec c sep) as [E | N].
    + exfalso. apply H. now left.
    + rewrite IH; [reflexivity | ]. intros Hin. apply H. now right.
Qed.

(** Joining the pieces with the separator gives the text back. *)
Lemma join_split (sep : code_unit) (s : text) : join [sep] (split sep s) = s.
Proof.
  induction s as [| c s IH]; [reflexivity | ].
  simpl. destruct (N.eqb_spec c sep) as [E | N].
  - subst c. destruct (split sep s) as [| w ws] eqn:Es.
    + now apply split_nonempty in Es.
    + simpl in *. now rewrite IH.
  - destruct (split sep s) as [| w ws] eqn:Es.
    + now apply split_nonempty in Es.
    + simpl in *. destruct ws; simpl in *; now rewrite <- IH.
Qed.

Lemma trimStart_fix (s : text) : starts_white s = false -> trimStart s = s.
Proof.
  destruct s as [| c s]; simpl; [reflexivity | ]. now intros ->.
Qed.

Lemma trimStart_starts (s : text) : starts_white (trimStart s) = false.
Proof.
  induction s as [| c s IH]; simpl; [reflexivity | ].
  destruct (is_white_space c) eqn:E; [exact IH | ]. simpl. exact E.
Qed.

Lemma trimStart_suffix (s : text) :
  exists p, s = p ++ trimStart s /\ forallb is_white_space p = true.
Proof.
  induction s as [| c s (p & Hp & Hw)]; simpl.
  - exists []. now split.
  - destruct (is_white_space c) eqn:E.
    + exists (c :: p). simpl. rewrite E, Hw. split; [now rewrite <- Hp | reflexivity].
    + exists []. now split.
Qed.

Lemma trimEnd_prefix (s : text) :
  exists q, s = trimEnd s ++ q /\ forallb is_white_space q = true.
Proof.
  unfold trimEnd. destruct (trimStart_suffix (rev s)) as (p & Hp & Hw).
  exists (rev p). split.
  - rewrite <- rev_app_distr, <- Hp. now rewrite rev_involutive.
  - rewrite forallb_forall in *. intros c Hc. apply Hw. now apply in_rev.
Qed.

Lemma trimEnd_starts (s : text) :
  starts_white s = false -> starts_white (trimEnd s) = false.
Proof.
  intros H. destruct (trimEnd_prefix s) as (q & Hq & _).
  destruct (trimEnd s) as [| c r]; [reflexivity | ].
  rewrite Hq in H. exact H.
Qed.

Lemma trim_trimmed (s : text) : trimmed (trim s).
Proof.
  unfold trim. split.
  - apply trimEnd_starts, trimStart_starts.
  - unfold trimEnd. rewrite rev_involutive. apply trimStart_starts.
Qed.

Lemma trimmed_trim (s : text) : trimmed s -> trim s = s.
Proof.
  intros [H1 H2]. unfold trim, trimEnd.
  rewrite (trimStart_fix s H1), (trimStart_fix (rev s) H2). apply rev_involutive.
Qed.

Lemma trim_idempotent (s : text) : trim (trim s) = trim s.
Proof. apply trimmed_trim, trim_trimmed. Qed.

Lemma trim_incl (s : text) (c : code_unit) : In c (trim s) -> In c s.
Proof.
  intros H. unfold trim in H.
  destruct (trimEnd_prefix (trimStart s)) as (q & Hq & _).
  destruct (trimStart_suffix s) as (p & Hp & _).
  rewrite Hp, Hq. apply in_or_app. right. apply in_or_app. now left.
Qed.

Lemma trim_white_start (w : code_unit) (s : text) :
  is_white_space w = true -> trim (w :: s) = trim s.
Proof.
  intros H. unfold trim. simpl. now rewrite H.
Qed.

Lemma trimStart_all_white (s : text) :
  forallb is_white_space s = true -> trimStart s = [].
Proof.
  induction s as [| c s IH]; simpl; [reflexivity | ].
  intros H. apply andb_prop in H. destruct H as [Hc Hs]. rewrite Hc. now apply IH.
Qed.

Lemma trimStart_snoc (w : code_unit) (s : text) :
  is_white_space w = true ->
  trimStart (s ++ [w])
  = if forallb is_white_space s then [] else trimStart s ++ [w].
Proof.
  intros H. induction s as [| c s IH]; simpl.
  - now rewrite H.
  - destruct (is_white_space c) eqn:E; simpl; [exact IH | reflexivity].
Qed.

Lemma trim_white_end (w : code_unit) (s : text) :
  is_white_space w = true -> trim (s ++ [w]) = trim s.
Proof.
  intros H. unfold trim. rewrite (trimStart_snoc w s H).
  destruct (forallb is_white_space s) eqn:E.
  - now rewrite (trimStart_all_white s E).
  - unfold trimEnd. rewrite rev_app_distr. simpl. now rewrite H.
Qed.

Lemma trim_all_white (s : text) : forallb is_white_space s = true -> trim s = [].
Proof.
  intros H. unfold trim. now rewrite (trimStart_all_white s H).
Qed.

(** ** The route stops of the tour form *)

Lemma get_set_same {V : Type} (o : JSObject V) (k : string) (v : V) :
  get (set o k v) k = Some v.
Proof.
  induction o as [| [k' v'] o IH]; simpl.
  - now rewrite String.eqb_refl.
  - destruct (String.eqb k' k) eqn:E; simpl; rewrite E; [reflexivity | exact IH].
Qed.

Lemma get_set_other {V : Type} (o : JSObject V) (k k' : string) (v : V) :
  k' <> k -> get (set o k v) k' = get o k'.
Proof.
  intros N. induction o as [| [k0 v0] o IH]; simpl.
  - destruct (String.eqb_spec k k'); [congruence | reflexivity].
  - destruct (String.eqb_spec k0 k) as [E | E]; simpl.
    + subst k0. destruct (String.eqb_spec k k'); [congruence | reflexivity].
    + now rewrite IH.
Qed.

Lemma set_set {V : Type} (o : JSObject V) (k : string) (v v' : V) :
  set (set o k v) k v' = set o k v'.
Proof.
  induction o as [| [k0 v0] o IH]; simpl.
  - now rewrite String.eqb_refl.
  - destruct (String.eqb k0 k) eqn:E; simpl; rewrite E; [reflexivity | now rewrite IH].
Qed.

Lemma white_not_comma (w : code_unit) : is_white_space w = true -> w <> comma.
Proof. intros H ->. discriminate H. Qed.

Lemma split_snoc (sep w : code_unit) (s : text) :
  w <> sep ->
  exists ws x, split sep s = ws ++ [x] /\ split sep (s ++ [w]) = ws ++ [x ++ [w]].
Proof.
  intros N. induction s as [| c s (ws & x & H1 & H2)]; simpl.
  - exists [], []. split; [reflexivity | ].
    destruct (N.eqb_spec w sep); [congruence | reflexivity].
  - destruct (N.eqb_spec c sep) as [E | E].
    + exists ([] :: ws), x. rewrite H1, H2. now split.
    + rewrite H1, H2. destruct ws as [| h t]; simpl.
      * exists [], (c :: x). now split.
      * exists ((c :: h) :: t), x. now split.
Qed.

Lemma parse_white_end (w : code_unit) (s : text) :
  is_white_space w = true ->
  map trim (split comma (s ++ [w])) = map trim (split comma s).
Proof.
  intros H. destruct (split_snoc comma w s (white_not_comma w H)) as (ws & x & H1 & H2).
  rewrite H1, H2, !map_app. simpl. now rewrite (trim_white_end w x H).
Qed.

Lemma parse_white_start (w : code_unit) (s : text) :
  is_white_space w = true ->
  map trim (split comma (w :: s)) = map trim (split comma s).
Proof.
  intros H. simpl. destruct (N.eqb_spec w comma) as [E | _].
  - now apply white_not_comma in E.
  - destruct (split comma s) as [| h t] eqn:Es; [now apply split_nonempty in Es | ].
    simpl. now rewrite (trim_white_start w h H).
Qed.

(** Reading back a list that is shown joined with a comma and a space. *)
Lemma parse_join (l : list text) :
  l <> [] -> Forall (fun e => trimmed e /\ ~ In comma e) l ->
  map trim (split comma (join [comma; space] l)) = l.
Proof.
  induction l as [| x l IH]; intros Hne Hall; [congruence | ].
  inversion Hall as [| ? ? [Hx Hc] Hl]; subst.
  destruct l as [| y r].
  - simpl. rewrite (split_whole comma x Hc). simpl. now rewrite (trimmed_trim x Hx).
  - change (join [comma; space] (x :: y :: r))
      with (x ++ comma :: space :: join [comma; space] (y :: r)).
    rewrite (split_app comma x _ Hc).
    change (map trim (x :: split comma (space :: join [comma; space] (y :: r))))
      with (trim x :: map trim (split comma (space :: join [comma; space] (y :: r)))).
    rewrite (parse_white_start space) by reflexivity.
    rewrite IH by (assumption || discriminate).
    now rewrite (trimmed_trim x Hx).
Qed.

Lemma parsed_entries (value : text) :
  Forall (fun e => trimmed e /\ ~ In comma e) (map trim (split comma value)).
Proof.
  apply Forall_forall. intros e He. apply in_map_iff in He.
  destruct He as (w & <- & Hw). split; [apply trim_trimmed | ].
  intros Hc. apply trim_incl in Hc.
  pose proof (split_free comma value) as Hf. rewrite Forall_forall in Hf.
  exact (Hf w Hw Hc).
Qed.

(** X8.  What [handleArrayInput] stores under the field: one entry more than
    the typed text has commas (so never an empty list, not even for the empty
    text), each entry without a comma and without white space at either end;
    every other field of the tour keeps its value. *)
Theorem handleArrayInput_entries (field : string) (value : text)
    (prev : JSObject tour_value) :
  exists l,
    get (handleArrayInput field value prev) field = Some (TList l)
    /\ length l = S (count_occ N.eq_dec value comma)
    /\ Forall (fun e => trimmed e /\ ~ In comma e) l
    /\ (forall e, In e l -> exists piece, In piece (split comma value) /\ e = trim piece)
    /\ (forall k, k <> field -> get (handleArrayInput field value prev) k = get prev k).
Proof.
  exists (map trim (split comma value)). unfold handleArrayInput.
  split; [apply get_set_same | ].
  split; [now rewrite length_map, split_length | ].
  split; [apply parsed_entries | ].
  split.
  - intros e He. apply in_map_iff in He. destruct He as (w & <- & Hw). now exists w.
  - intros k Hk. now apply get_set_other.
Qed.


(** ** The order of texts *)

Lemma text_ltb_irrefl (a : text) : text_ltb a a = false.
Proof.
  induction a as [| x a IH]; simpl; [reflexivity | ].
  now rewrite N.ltb_irrefl.
Qed.

Lemma text_ltb_asym (a b : text) : text_ltb a b = true -> text_ltb b a = false.
Proof.
  revert b. induction a as [| x a IH]; intros [| y b]; simpl; try congruence.
  destruct (N.ltb_spec x y), (N.ltb_spec y x); try congruence; try lia.
  apply IH.
Qed.

Lemma text_ltb_cotrans (a b c : text) :
  text_ltb a c = true -> text_ltb a b = true \/ text_ltb b c = true.
Proof.
  revert b c. induction a as [| x a IH]; intros [| y b] [| z c]; simpl;
    try (intros; discriminate); try tauto.
  destruct (N.ltb_spec x z), (N.ltb_spec z x), (N.ltb_spec x y), (N.ltb_spec y x),
    (N.ltb_spec y z), (N.ltb_spec z y);
    try tauto; try lia; try (intros; discriminate).
  apply IH.
Qed.

Lemma text_ltb_trans (a b c : text) :
  text_ltb a b = true -> text_ltb b c = true -> text_ltb a c = true.
Proof.
  intros Hab Hbc. destruct (text_ltb a c) eqn:E; [reflexivity | ].
  destruct (text_ltb_cotrans b a c Hbc) as [H | H]; [ | congruence].
  apply text_ltb_asym in H. congruence.
Qed.

Lemma text_ltb_total (a b : text) :
  text_ltb a b = false -> text_ltb b a = false -> a = b.
Proof.
  revert b. induction a as [| x a IH]; intros [| y b]; simpl; try congruence.
  destruct (N.ltb_spec x y), (N.ltb_spec y x); try congruence; try lia.
  intros H1 H2. assert (x = y) by lia. subst. f_equal. now apply IH.
Qed.

Lemma text_le_refl (a : text) : text_le a a.
Proof. apply text_ltb_irrefl. Qed.

Lemma text_le_trans (a b c : text) : text_le a b -> text_le b c -> text_le a c.
Proof.
  unfold text_le. intros Hab Hbc. destruct (text_ltb c a) eqn:E; [ | reflexivity].
  destruct (text_ltb_cotrans c b a E); congruence.
Qed.

Lemma text_le_total (a b : text) : text_le a b \/ text_le b a.
Proof.
  unfold text_le. destruct (text_ltb b a) eqn:E; [ | now left].
  right. now apply text_ltb_asym.
Qed.

Lemma text_le_antisym (a b : text) : text_le a b -> text_le b a -> a = b.
Proof. unfold text_le. intros H1 H2. now apply text_ltb_total. Qed.

Lemma text_le_empty (a : text) : text_le [] a.
Proof. unfold text_le. destruct a; reflexivity. Qed.

(** ** Sorting by an order *)

Section SortByOrder.
Context {A : Type}.
Variable comparefn : A -> A -> number.
Variable le : A -> A -> Prop.

Hypothesis le_trans : forall x y z, le x y -> le y z -> le x z.
Hypothesis le_total : forall x y, le x y \/ le y x.
Hypothesis comparefn_le :
  forall x y, Qle_bool (SortCompare comparefn x y) 0 = true <-> le x y.

Lemma sort_insert_in_order (x : A) (l : list A) :
  StronglySorted le l -> StronglySorted le (sort_insert comparefn x l).
Proof.
  intros Hs. induction Hs as [| y l Hs IH Hy]; simpl.
  - repeat constructor.
  - destruct (Qle_bool (SortCompare comparefn x y) 0) eqn:E.
    + apply comparefn_le in E.
      constructor; [now constructor | ].
      constructor; [exact E | ].
      eapply Forall_impl; [ | exact Hy]. simpl. intros z Hz.
      now apply le_trans with y.
    + assert (Hyx : le y x).
      { destruct (le_total x y) as [H | H]; [ | exact H].
        apply comparefn_le in H. congruence. }
      constructor; [exact IH | ].
      eapply Permutation_Forall; [apply sort_insert_Permutation | ].
      constructor; [exact Hyx | exact Hy].
Qed.

Lemma Array_sort_in_order (l : list A) : StronglySorted le (Array_sort comparefn l).
Proof.
  induction l as [| x l IH]; simpl; [constructor | ].
  now apply sort_insert_in_order.
Qed.

(** Elements that the order does not separate keep their places relative to
    each other. *)
Lemma sort_insert_keeps (p : A -> bool) (x : A) (l : list A) :
  (forall a b, p a = true -> p b = true -> le a b) ->
  filter p (sort_insert comparefn x l) = filter p (x :: l).
Proof.
  intros Hp. induction l as [| y l IH]; [reflexivity | ].
  simpl. destruct (Qle_bool (SortCompare comparefn x y) 0) eqn:E; [reflexivity | ].
  simpl. rewrite IH. simpl.
  destruct (p x) eqn:Ex; [ | reflexivity].
  destruct (p y) eqn:Ey; [ | reflexivity].
  assert (H : le x y) by now apply Hp.
  apply comparefn_le in H. congruence.
Qed.

Lemma Array_sort_keeps (p : A -> bool) (l : list A) :
  (forall a b, p a = true -> p b = true -> le a b) ->
  filter p (Array_sort comparefn l) = filter p l.
Proof.
  intros Hp. induction l as [| x l IH]; [reflexivity | ].
  simpl Array_sort. rewrite sort_insert_keeps by assumption.
  simpl. now rewrite IH.
Qed.

(** A list already in order is left as it is. *)
Lemma Array_sort_sorted_fix (l : list A) :
  StronglySorted le l -> Array_sort comparefn l = l.
Proof.
  induction 1 as [| x l Hs IH Hx]; [reflexivity | ].
  simpl. rewrite IH. destruct l as [| y l]; [reflexivity | ].
  simpl. inversion Hx as [| ? ? Hxy _]; subst.
  apply comparefn_le in Hxy. now rewrite Hxy.
Qed.
End SortByOrder.

(** ** The driver table *)

Lemma in_order_trans dir f (x y z : DriverRow.t) :
  in_order dir f x y -> in_order dir f y z -> in_order dir f x z.
Proof.
  destruct dir; simpl; intros H1 H2.
  - now apply text_le_trans with (sort_key f y).
  - now apply text_le_trans with (sort_key f y).
Qed.

Lemma in_order_total dir f (x y : DriverRow.t) : in_order dir f x y \/ in_order dir f y x.
Proof.
  destruct dir; simpl; apply text_le_total.
Qed.

Lemma compare_rows_in_order dir f (x y : DriverRow.t) :
  Qle_bool (SortCompare (compare_rows f dir) x y) 0 = true <-> in_order dir f x y.
Proof.
  unfold SortCompare, compare_rows, in_order, sort_key, text_le.
  set (a := text_or_empty (field_value f x)). set (b := text_or_empty (field_value f y)).
  destruct (text_ltb a b) eqn:Eab.
  - pose proof (text_ltb_asym a b Eab) as Eba. rewrite Eba.
    destruct dir; simpl; split; intros H; try reflexivity; try discriminate H.
  - destruct (text_ltb b a) eqn:Eba.
    + destruct dir; simpl; split; intros H; try reflexivity; try discriminate H.
    + destruct dir; simpl; split; intros H; reflexivity.
Qed.

Lemma filter_try_total {A : Type} (p : A -> bool) (l : list A) :
  filter_try (fun d => Some (p d)) l = Some (filter p l).
Proof.
  induction l as [| x l IH]; simpl; [reflexivity | ].
  rewrite IH. now destruct (p x).
Qed.

Lemma filter_try_filter {A : Type} (p : A -> option bool) (l r : list A) :
  filter_try p l = Some r -> r = filter (passes p) l /\ Forall (fun d => p d <> None) l.
Proof.
  revert r. induction l as [| x l IH]; simpl; intros r H.
  - injection H as <-. split; [reflexivity | constructor].
  - unfold passes at 1. destruct (p x) as [keep | ] eqn:Ex; [ | discriminate H].
    destruct (filter_try p l) as [r' | ]; [ | discriminate H].
    injection H as <-. destruct (IH r' eq_refl) as [-> Hall].
    split; [now destruct keep | ].
    constructor; [congruence | exact Hall].
Qed.

Lemma filter_try_throws {A : Type} (p : A -> option bool) (l : list A) :
  filter_try p l = None <-> Exists (fun d => p d = None) l.
Proof.
  induction l as [| x l IH]; simpl.
  - split; [discriminate | intros H; inversion H].
  - destruct (p x) as [keep | ] eqn:Ex.
    + destruct (filter_try p l) as [r' | ].
      * split; [discriminate | ]. intros H. inversion H; subst; [congruence | ].
        apply IH in H1. discriminate H1.
      * split; [ | reflexivity]. intros _. right. now apply IH.
    + split; [ | reflexivity]. intros _. now left.
Qed.

Lemma filter_filter_and {A : Type} (f g : A -> bool) (l : list A) :
  filter f (filter g l) = filter (fun x => g x && f x) l.
Proof.
  induction l as [| x l IH]; simpl; [reflexivity | ].
  destruct (g x); simpl; [ | exact IH]. destruct (f x); now rewrite IH.
Qed.

Lemma search_matches_throws toLowerCase (q : text) (d : DriverRow.t) :
  search_matches toLowerCase q d = None
  <-> DriverRow.name d = None
      \/ (exists n, DriverRow.name d = Some n /\ includes (toLowerCase n) q = false
                    /\ DriverRow.email d = None).
Proof.
  unfold search_matches. destruct (DriverRow.name d) as [n | ].
  - destruct (includes (toLowerCase n) q) eqn:E.
    + split; [discriminate | ]. intros [H | (n' & H & H' & _)]; [discriminate H | ].
      injection H as <-. congruence.
    + destruct (DriverRow.email d).
      * split; [discriminate | ]. intros [H | (n' & _ & _ & H)]; discriminate H.
      * split; [ | reflexivity]. intros _. right. now exists n.
  - split; [ | reflexivity]. intros _. now left.
Qed.

Lemma processedDrivers_filtered toLowerCase localDrivers driverSearch activeTab f dir :
  match processedDrivers toLowerCase localDrivers driverSearch activeTab f dir with
  | Some rows =>
      rows = Array_sort (compare_rows f dir)
                        (filter (visible toLowerCase driverSearch activeTab) localDrivers)
      /\ (driverSearch <> [] ->
          Forall (fun d => search_matches toLowerCase (toLowerCase driverSearch) d <> None)
                 localDrivers)
  | None =>
      driverSearch <> []
      /\ Exists (fun d => search_matches toLowerCase (toLowerCase driverSearch) d = None)
                localDrivers
  end.
Proof.
  unfold processedDrivers, visible. destruct driverSearch as [| c q].
  - split; [ | congruence]. f_equal.
    destruct (String.eqb activeTab "PENDING"); simpl.
    + reflexivity.
    + symmetry. apply filter_all_true.
  - set (p := search_matches toLowerCase (toLowerCase (c :: q))).
    destruct (filter_try p localDrivers) as [r | ] eqn:E.
    + apply filter_try_filter in E. destruct E as [-> Hall].
      split; [ | intros _; exact Hall]. f_equal.
      destruct (String.eqb activeTab "PENDING"); simpl.
      * apply filter_filter_and.
      * apply filter_ext. intros d. now rewrite andb_true_r.
    + split; [discriminate | ]. now apply filter_try_throws.
Qed.


(** ** The table on arrays held by reference *)

Lemma nth_error_heap_write_same (r : ref) (a b : list DriverRow.t) (h : heap) :
  nth_error h r = Some b -> nth_error (heap_write r a h) r = Some a.
Proof.
  revert r. induction h as [| c h IH]; intros [| r] H; simpl in *;
    try discriminate; [reflexivity | now apply IH].
Qed.

Lemma nth_error_heap_write_other (r i : ref) (a : list DriverRow.t) (h : heap) :
  i <> r -> nth_error (heap_write r a h) i = nth_error h i.
Proof.
  revert r i. induction h as [| c h IH]; intros [| r] [| i] H; simpl;
    try reflexivity; try congruence.
  apply IH. congruence.
Qed.

Lemma heap_write_same (r : ref) (a : list DriverRow.t) (h : heap) :
  nth_error h r = Some a -> heap_write r a h = h.
Proof.
  revert r. induction h as [| c h IH]; intros [| r] H; simpl in *; try reflexivity.
  - now injection H as ->.
  - f_equal. now apply IH.
Qed.

Lemma heap_filter_fresh (p : DriverRow.t -> option bool) (r : ref) (h : heap)
    (a : list DriverRow.t) :
  nth_error h r = Some a ->
  match filter_try p a with
  | Some a' =>
      heap_filter p r h = Some (length h, h ++ [a'])
      /\ nth_error (h ++ [a']) (length h) = Some a'
      /\ forall i, (i < length h)%nat -> nth_error (h ++ [a']) i = nth_error h i
  | None => heap_filter p r h = None
  end.
Proof.
  intros H. unfold heap_filter. rewrite H.
  destruct (filter_try p a) as [a' | ]; [ | reflexivity].
  split; [reflexivity | ]. split.
  - rewrite nth_error_app2 by lia. now rewrite Nat.sub_diag.
  - intros i Hi. now apply nth_error_app1.
Qed.

Lemma analytics_drivers_Permutation LocalTZA toLocaleDateString now bookings settings
    timeRange (drivers drivers' : list Driver) :
  Permutation drivers drivers' ->
  analytics LocalTZA toLocaleDateString now bookings drivers' settings timeRange
  = analytics LocalTZA toLocaleDateString now bookings drivers settings timeRange.
Proof.
  intros H. unfold analytics. f_equal.
  - symmetry. now apply Permutation_length, filter_Permutation.
  - symmetry. now apply Permutation_length, filter_Permutation.
Qed.

(** X11.  The table on the arrays themselves.  The run returns an array that
    holds the rows of [processedDrivers], or throws when that does.  With a
    search text or on the PENDING tab the array is a new one and the array
    it was given is untouched.  Otherwise [sort] is called on the array it
    was given: the returned array is that very array, which now holds its
    rows in table order, and is changed by this exactly when it was not in
    table order already; every other array is untouched, and the engine,
    reading the drivers off the reordered array, returns what it returned
    before. *)
Theorem processedDrivers_in_place toLowerCase (localDrivers : ref) driverSearch activeTab
    f dir (h : heap) (given : list DriverRow.t) :
  nth_error h localDrivers = Some given ->
  match processedDrivers toLowerCase given driverSearch activeTab f dir with
  | None =>
      processedDrivers_run toLowerCase localDrivers driverSearch activeTab f dir h = None
  | Some rows =>
      exists r h',
        processedDrivers_run toLowerCase localDrivers driverSearch activeTab f dir h
        = Some (r, h')
        /\ nth_error h' r = Some rows
        /\ (forall i, i <> localDrivers -> (i < length h)%nat ->
              nth_error h' i = nth_error h i)
        /\ (driverSearch <> [] \/ activeTab = "PENDING" ->
              (length h <= r)%nat /\ nth_error h' localDrivers = Some given)
        /\ (driverSearch = [] -> activeTab <> "PENDING" ->
              r = localDrivers
              /\ length h' = length h
              /\ Permutation given rows
              /\ (rows = given <-> StronglySorted (in_order dir f) given)
              /\ forall LocalTZA toLocaleDateString now bookings settings timeRange,
                   analytics LocalTZA toLocaleDateString now bookings
                             (map to_Driver rows) settings timeRange
                   = analytics LocalTZA toLocaleDateString now bookings
                               (map to_Driver given) settings timeRange)
  end.
Proof.
  intros Hgiven. unfold processedDrivers, processedDrivers_run.
  set (cmp := compare_rows f dir).
  assert (Hsort : forall r0 h0 a,
             nth_error h0 r0 = Some a ->
             heap_sort cmp r0 h0 = Some (r0, heap_write r0 (Array_sort cmp a) h0)).
  { intros r0 h0 a H. unfold heap_sort. now rewrite H. }
  destruct driverSearch as [| c q].
  - destruct (String.eqb_spec activeTab "PENDING") as [Etab | Etab].
    + (* a new array for the pending rows *)
      pose proof (heap_filter_fresh (fun d => Some (is_pending_row d)) localDrivers h
                                    given Hgiven) as Hf.
      rewrite filter_try_total in Hf. destruct Hf as (Hrun & Hnew & Hold).
      rewrite Hrun.
      exists (length h), (heap_write (length h) (Array_sort cmp (filter is_pending_row given))
                                     (h ++ [filter is_pending_row given])).
      split; [now apply Hsort | ].
      split; [now apply nth_error_heap_write_same with (b := filter is_pending_row given) | ].
      assert (Hlt : (localDrivers < length h)%nat)
        by (apply nth_error_Some; congruence).
      split; [ | split].
      * intros i _ Hi. rewrite nth_error_heap_write_other by lia. now apply Hold.
      * intros _. split; [lia | ].
        rewrite nth_error_heap_write_other by lia. rewrite Hold by exact Hlt. exact Hgiven.
      * intros _ N. contradiction.
    + (* sorted where it is *)
      exists localDrivers, (heap_write localDrivers (Array_sort cmp given) h).
      split; [now apply Hsort | ].
      split; [now apply nth_error_heap_write_same with (b := given) | ].
      split; [ | split].
      * intros i Hi _. now apply nth_error_heap_write_other.
      * intros [N | N]; congruence.
      * intros _ _. split; [reflexivity | ].
        split.
        { clear. revert localDrivers. induction h as [| c0 h IH]; intros [| r]; simpl;
            try reflexivity. now rewrite IH. }
        split; [apply Array_sort_Permutation | ].
        split.
        { split; intros H.
          - rewrite <- H. apply Array_sort_in_order.
            + apply in_order_trans.
            + apply in_order_total.
            + apply compare_rows_in_order.
          - apply Array_sort_sorted_fix with (le := in_order dir f); [ | exact H].
            apply compare_rows_in_order. }
        intros. apply analytics_drivers_Permutation.
        apply Permutation_map, Array_sort_Permutation.
  - (* a new array for the rows found *)
    set (p := search_matches toLowerCase (toLowerCase (c :: q))).
    pose proof (heap_filter_fresh p localDrivers h given Hgiven) as Hf.
    destruct (filter_try p given) as [found | ]; [ | now rewrite Hf].
    destruct Hf as (Hrun & Hnew & Hold). rewrite Hrun.
    assert (Hlt : (localDrivers < length h)%nat)
      by (apply nth_error_Some; congruence).
    destruct (String.eqb_spec activeTab "PENDING") as [Etab | Etab].
    + pose proof (heap_filter_fresh (fun d => Some (is_pending_row d)) (length h)
                                    (h ++ [found]) found Hnew) as Hf.
      rewrite filter_try_total in Hf. destruct Hf as (Hrun2 & Hnew2 & Hold2).
      rewrite Hrun2.
      set (h2 := (h ++ [found]) ++ [filter is_pending_row found]) in *.
      assert (Hlen : length (h ++ [found]) = S (length h))
        by (rewrite length_app; simpl; lia).
      exists (length (h ++ [found])),
             (heap_write (length (h ++ [found]))
                         (Array_sort cmp (filter is_pending_row found)) h2).
      split; [now apply Hsort | ].
      split; [now apply nth_error_heap_write_same with (b := filter is_pending_row found) | ].
      split; [ | split].
      * intros i _ Hi. rewrite nth_error_heap_write_other by lia.
        rewrite Hold2 by lia. now apply Hold.
      * intros _. split; [lia | ].
        rewrite nth_error_heap_write_other by lia.
        rewrite Hold2 by lia. rewrite Hold by exact Hlt. exact Hgiven.
      * intros N. discriminate N.
    + exists (length h), (heap_write (length h) (Array_sort cmp found) (h ++ [found])).
      split; [now apply Hsort | ].
      split; [now apply nth_error_heap_write_same with (b := found) | ].
      split; [ | split].
      * intros i _ Hi. rewrite nth_error_heap_write_other by lia. now apply Hold.
      * intros _. split; [lia | ].
        rewrite nth_error_heap_write_other by lia. rewrite Hold by exact Hlt. exact Hgiven.
      * intros N. discriminate N.
Qed.

Lemma processedDrivers_in_place_witness :
  nth_error [sample_rows] 0 = Some sample_rows
  /\ exists r h',
       processedDrivers_run ascii_lower 0%nat [] "DRIVERS" by_name asc [sample_rows]
       = Some (r, h')
       /\ nth_error h' r = processedDrivers ascii_lower sample_rows [] "DRIVERS" by_name asc.
Proof.
  split; [reflexivity | ].
  pose proof (processedDrivers_in_place ascii_lower 0%nat [] "DRIVERS" by_name asc
                [sample_rows] sample_rows eq_refl) as H.
  destruct H as (r & h' & H1 & H2 & _).
  exists r, h'. split; [exact H1 | exact H2].
Defined.

(** ** Reversing the direction *)

Lemma sorted_unique {A : Type} (R : A -> A -> Prop) (l l' : list A) :
  (forall a b, In a l -> In b l -> R a b -> R b a -> a = b) ->
  StronglySorted R l -> StronglySorted R l' -> Permutation l l' -> l = l'.
Proof.
  revert l'. induction l as [| x t IH]; intros l' Hanti Hs Hs' Hp.
  - apply Permutation_nil in Hp. now subst.
  - destruct l' as [| y t'].
    + symmetry in Hp. apply Permutation_nil in Hp. discriminate Hp.
    + inversion Hs as [| ? ? Hst Hx]; subst. inversion Hs' as [| ? ? Hst' Hy]; subst.
      rewrite Forall_forall in Hx, Hy.
      assert (Hxy : x = y).
      { assert (Hxin : In x (y :: t'))
          by (eapply Permutation_in; [exact Hp | now left]).
        assert (Hyin : In y (x :: t))
          by (eapply Permutation_in; [symmetry; exact Hp | now left]).
        destruct Hxin as [E | Hxin]; [now symmetry | ].
        destruct Hyin as [E | Hyin]; [exact E | ].
        apply Hanti; [now left | now right | now apply Hx | now apply Hy]. }
      subst y. f_equal. apply IH; try assumption.
      * intros a b Ha Hb. apply Hanti; now right.
      * eapply Permutation_cons_inv. exact Hp.
Qed.

Lemma in_order_flip dir f (a b : DriverRow.t) :
  in_order (match dir with asc => desc | desc => asc end) f a b <-> in_order dir f b a.
Proof. destruct dir; simpl; tauto. Qed.

Lemma Array_sort_flip dir f (shown : list DriverRow.t) :
  NoDup (map (sort_key f) shown) ->
  Array_sort (compare_rows f (match dir with asc => desc | desc => asc end)) shown
  = rev (Array_sort (compare_rows f dir) shown).
Proof.
  intros Hnd.
  set (dir' := match dir with asc => desc | desc => asc end).
  assert (Hkey : forall a b, In a shown -> In b shown ->
                             sort_key f a = sort_key f b -> a = b).
  { clear - Hnd. induction shown as [| x l IH]; intros a b Ha Hb E; [destruct Ha | ].
    simpl in Hnd. inversion Hnd as [| ? ? Hx Hl]; subst.
    destruct Ha as [<- | Ha], Hb as [<- | Hb].
    - reflexivity.
    - exfalso. apply Hx. rewrite E. now apply in_map.
    - exfalso. apply Hx. rewrite <- E. now apply in_map.
    - now apply IH. }
  apply sorted_unique with (R := in_order dir' f).
  - intros a b Ha Hb H1 H2.
    assert (Hp : Permutation shown (Array_sort (compare_rows f dir') shown))
      by apply Array_sort_Permutation.
    apply Hkey.
    + eapply Permutation_in; [symmetry; exact Hp | exact Ha].
    + eapply Permutation_in; [symmetry; exact Hp | exact Hb].
    + unfold dir' in H1, H2. destruct dir; simpl in H1, H2;
        now apply text_le_antisym.
  - apply Array_sort_in_order.
    + apply in_order_trans.
    + apply in_order_total.
    + apply compare_rows_in_order.
  - eapply StronglySorted_weaken;
      [ | apply StronglySorted_rev with (R := in_order dir f); apply Array_sort_in_order ].
    + intros a b H. unfold dir'. apply in_order_flip. exact H.
    + apply in_order_trans.
    + apply in_order_total.
    + apply compare_rows_in_order.
  - rewrite <- Permutation_rev.
    rewrite <- (Array_sort_Permutation (compare_rows f dir') shown).
    apply Array_sort_Permutation.
Qed.

(** X12.  A click on the header of the field the table is sorted by turns
    the direction round, and a second click gives the first direction back.
    When no two rows shown have the same value in that field, the table
    after the click is the table before it in reverse order (and is missing
    after the click exactly when it was missing before). *)
Theorem handleSort_reverses toLowerCase localDrivers driverSearch activeTab f dir :
  NoDup (map (sort_key f)
             (filter (visible toLowerCase driverSearch activeTab) localDrivers)) ->
  let clicked := handleSort f (f, dir) in
  fst clicked = f
  /\ snd clicked <> dir
  /\ handleSort f clicked = (f, dir)
  /\ processedDrivers toLowerCase localDrivers driverSearch activeTab (fst clicked)
                      (snd clicked)
     = option_map (@rev DriverRow.t)
                  (processedDrivers toLowerCase localDrivers driverSearch activeTab f dir).
Proof.
  intros Hnd clicked.
  assert (Hc : clicked = (f, match dir with asc => desc | desc => asc end)).
  { unfold clicked, handleSort. now destruct f. }
  rewrite Hc. cbn [fst snd].
  split; [reflexivity | ]. split; [now destruct dir | ].
  split; [unfold handleSort; now destruct f, dir | ].
  pose proof (processedDrivers_filtered toLowerCase localDrivers driverSearch activeTab f
                (match dir with asc => desc | desc => asc end)) as H1.
  pose proof (processedDrivers_filtered toLowerCase localDrivers driverSearch activeTab f
                dir) as H2.
  destruct (processedDrivers toLowerCase localDrivers driverSearch activeTab f
              (match dir with asc => desc | desc => asc end)) as [rows1 | ];
    destruct (processedDrivers toLowerCase localDrivers driverSearch activeTab f dir)
      as [rows2 | ]; simpl.
  - destruct H1 as [-> _], H2 as [-> _]. f_equal. now apply Array_sort_flip.
  - exfalso. destruct H1 as [_ H1], H2 as [Hne H2]. specialize (H1 Hne).
    apply Exists_exists in H2. destruct H2 as (d & Hd & Hn).
    rewrite Forall_forall in H1. exact (H1 d Hd Hn).
  - exfalso. destruct H2 as [_ H2], H1 as [Hne H1]. specialize (H2 Hne).
    apply Exists_exists in H1. destruct H1 as (d & Hd & Hn).
    rewrite Forall_forall in H2. exact (H2 d Hd Hn).
  - reflexivity.
Qed.

Lemma sample_rows_keys :
  NoDup (map (sort_key by_name)
             (filter (visible ascii_lower [] "DRIVERS") sample_rows)).
Proof.
  repeat constructor; simpl; intuition discriminate.
Defined.

Lemma handleSort_reverses_witness :
  NoDup (map (sort_key by_name)
             (filter (visible ascii_lower [] "DRIVERS") sample_rows))
  /\ processedDrivers ascii_lower sample_rows [] "DRIVERS" by_name desc
     = option_map (@rev DriverRow.t)
                  (processedDrivers ascii_lower sample_rows [] "DRIVERS" by_name asc).
Proof.
  split; [exact sample_rows_keys | ].
  pose proof (handleSort_reverses ascii_lower sample_rows [] "DRIVERS" by_name asc
                sample_rows_keys) as (_ & _ & _ & H).
  exact H.
Defined.

(** ** Deleting a document of a driver *)

Lemma splice1_inside {A : Type} (i : Z) (a : list A) :
  0 <= i < Z.of_nat (length a) ->
  splice1 i a = firstn (Z.to_nat i) a ++ skipn (S (Z.to_nat i)) a.
Proof.
  intros H. unfold splice1.
  destruct (Z.ltb_spec i 0) as [N | _]; [lia | ].
  rewrite (Z.min_l i) by lia. rewrite (Z.min_l 1) by lia.
  f_equal. f_equal. lia.
Qed.

Lemma splice1_beyond {A : Type} (i : Z) (a : list A) :
  Z.of_nat (length a) <= i -> splice1 i a = a.
Proof.
  intros H. unfold splice1.
  destruct (Z.ltb_spec i 0) as [N | _]; [lia | ].
  rewrite (Z.min_r i) by lia. rewrite (Z.min_r 1) by lia.
  replace (Z.of_nat (length a) + (Z.of_nat (length a) - Z.of_nat (length a)))
    with (Z.of_nat (length a)) by lia.
  rewrite Nat2Z.id. apply firstn_skipn.
Qed.

Lemma splice1_from_end {A : Type} (i : Z) (a : list A) :
  - Z.of_nat (length a) <= i < 0 -> splice1 i a = splice1 (Z.of_nat (length a) + i) a.
Proof.
  intros H. unfold splice1.
  destruct (Z.ltb_spec i 0) as [_ | N]; [ | lia].
  destruct (Z.ltb_spec (Z.of_nat (length a) + i) 0) as [N | _]; [lia | ].
  rewrite Z.max_l by lia. rewrite (Z.min_l (Z.of_nat (length a) + i)) by lia.
  reflexivity.
Qed.

Lemma removed_nth {A : Type} (n : nat) (a : list A) :
  (n < length a)%nat ->
  length (firstn n a ++ skipn (S n) a) = (length a - 1)%nat
  /\ forall j, nth_error (firstn n a ++ skipn (S n) a) j
               = if (j <? n)%nat then nth_error a j else nth_error a (S j).
Proof.
  intros H. split.
  - rewrite length_app, length_firstn, length_skipn. lia.
  - intros j. rewrite nth_error_app, length_firstn.
    rewrite (Nat.min_l n) by lia.
    destruct (Nat.ltb_spec j n) as [Hj | Hj].
    + rewrite nth_error_firstn.
      destruct (Nat.ltb_spec j n) as [_ | N]; [reflexivity | lia].
    + rewrite nth_error_skipn. f_equal. lia.
Qed.

Lemma find_handleLocalDriverChange (id : string) (e : DriverEdit) (l : list DriverRow.t) :
  (forall d, DriverRow.id (apply_edit e d) = DriverRow.id d) ->
  find (fun d => String.eqb (DriverRow.id d) id) (handleLocalDriverChange id e l)
  = option_map (apply_edit e) (find (fun d => String.eqb (DriverRow.id d) id) l).
Proof.
  intros Hid. induction l as [| d l IH]; [reflexivity | ].
  simpl. destruct (String.eqb (DriverRow.id d) id) eqn:E.
  - rewrite Hid, E. reflexivity.
  - rewrite E. exact IH.
Qed.

Lemma handleLocalDriverChange_ids (id : string) (e : DriverEdit) (l : list DriverRow.t) :
  (forall d, DriverRow.id (apply_edit e d) = DriverRow.id d) ->
  map DriverRow.id (handleLocalDriverChange id e l) = map DriverRow.id l.
Proof.
  intros Hid. unfold handleLocalDriverChange. rewrite map_map. apply map_ext.
  intros d. destruct (String.eqb (DriverRow.id d) id); [apply Hid | reflexivity].
Qed.

Lemma handleLocalDriverChange_nth (id : string) (e : DriverEdit) (l : list DriverRow.t)
    (n : nat) (d : DriverRow.t) :
  nth_error l n = Some d ->
  nth_error (handleLocalDriverChange id e l) n
  = Some (if String.eqb (DriverRow.id d) id then apply_edit e d else d).
Proof.
  intros H. unfold handleLocalDriverChange.
  now rewrite (map_nth_error _ n l H).
Qed.

(** X13.  Deleting a document.  The table keeps its drivers, in the same
    places, and every row of another driver is untouched.  Nothing is sent
    for saving, and nothing changes, when the question is declined, when no
    row has the identifier, or when the first such row has no list of
    documents.  Otherwise the documents of that first row, with the one at
    the index taken out, become the documents of every row with the
    identifier, and the driver sent for saving is the first such row of the
    new table.  An index within the list removes exactly that document and
    moves the later ones up by one; an index at or beyond the end removes
    nothing; a negative index counts from the end. *)
Theorem handleDocumentDelete_effect (confirm : bool) (driverId : string) (docIndex : Z)
    (localDrivers : list DriverRow.t) :
  let (rows, sent) := handleDocumentDelete confirm driverId docIndex localDrivers in
  let first := find (fun d => String.eqb (DriverRow.id d) driverId) localDrivers in
  map DriverRow.id rows = map DriverRow.id localDrivers
  /\ (forall n d, nth_error localDrivers n = Some d -> DriverRow.id d <> driverId ->
        nth_error rows n = Some d)
  /\ match sent with
     | None =>
         rows = localDrivers
         /\ (confirm = false \/ first = None
             \/ exists driver, first = Some driver /\ DriverRow.documents driver = None)
     | Some saved =>
         exists driver docs,
           confirm = true /\ first = Some driver /\ DriverRow.documents driver = Some docs
           /\ saved = apply_edit (edit_documents (Some (splice1 docIndex docs))) driver
           /\ find (fun d => String.eqb (DriverRow.id d) driverId) rows = Some saved
           /\ (forall n d, nth_error localDrivers n = Some d -> DriverRow.id d = driverId ->
                 nth_error rows n
                 = Some (apply_edit (edit_documents (Some (splice1 docIndex docs))) d))
           /\ (0 <= docIndex < Z.of_nat (length docs) ->
                 length (splice1 docIndex docs) = (length docs - 1)%nat
                 /\ forall j, nth_error (splice1 docIndex docs) j
                              = if (j <? Z.to_nat docIndex)%nat then nth_error docs j
                                else nth_error docs (S j))
           /\ (Z.of_nat (length docs) <= docIndex -> splice1 docIndex docs = docs)
           /\ (- Z.of_nat (length docs) <= docIndex < 0 ->
                 splice1 docIndex docs
                 = splice1 (Z.of_nat (length docs) + docIndex) docs)
     end.
Proof.
  unfold handleDocumentDelete.
  destruct confirm; simpl negb; cbv iota.
  2:{ split; [reflexivity | ]. split; [auto | ]. split; [reflexivity | now left]. }
  destruct (find (fun d => String.eqb (DriverRow.id d) driverId) localDrivers)
    as [driver | ] eqn:Ef.
  2:{ split; [reflexivity | ]. split; [auto | ]. split; [reflexivity | right; now left]. }
  destruct (DriverRow.documents driver) as [docs | ] eqn:Ed.
  2:{ split; [reflexivity | ]. split; [auto | ]. split; [reflexivity | ].
      right. right. now exists driver. }
  cbv zeta.
  set (e := edit_documents (Some (splice1 docIndex docs))).
  assert (Hid : forall d, DriverRow.id (apply_edit e d) = DriverRow.id d) by reflexivity.
  split; [now apply handleLocalDriverChange_ids | ].
  split.
  { intros n d Hn Hd. rewrite (handleLocalDriverChange_nth driverId e _ n d Hn).
    destruct (String.eqb_spec (DriverRow.id d) driverId); [contradiction | reflexivity]. }
  exists driver, docs.
  split; [reflexivity | ]. split; [reflexivity | ]. split; [exact Ed | ].
  split; [reflexivity | ].
  split; [now rewrite (find_handleLocalDriverChange driverId e _ Hid), Ef | ].
  split.
  { intros n d Hn Hd. rewrite (handleLocalDriverChange_nth driverId e _ n d Hn).
    destruct (String.eqb_spec (DriverRow.id d) driverId); [reflexivity | contradiction]. }
  split.
  { intros Hi. rewrite (splice1_inside docIndex docs Hi). apply removed_nth. lia. }
  split; [apply splice1_beyond | apply splice1_from_end].
Qed.

(** ** Edits that leave the table in place *)

Lemma sort_insert_map {A : Type} (comparefn : A -> A -> number) (g : A -> A) (x : A)
    (l : list A) :
  (forall a b, comparefn (g a) (g b) = comparefn a b) ->
  sort_insert comparefn (g x) (map g l) = map g (sort_insert comparefn x l).
Proof.
  intros Hg. induction l as [| y l IH]; [reflexivity | ].
  simpl. unfold SortCompare. rewrite Hg.
  destruct (Qle_bool match comparefn x y with Fin v => v | NaN => 0%Q end 0);
    [reflexivity | ].
  simpl. now rewrite IH.
Qed.

Lemma Array_sort_map {A : Type} (comparefn : A -> A -> number) (g : A -> A) (l : list A) :
  (forall a b, comparefn (g a) (g b) = comparefn a b) ->
  Array_sort comparefn (map g l) = map g (Array_sort comparefn l).
Proof.
  intros Hg. induction l as [| x l IH]; [reflexivity | ].
  simpl. rewrite IH. now apply sort_insert_map.
Qed.

Lemma filter_map_same {A : Type} (p : A -> bool) (g : A -> A) (l : list A) :
  (forall a, p (g a) = p a) -> filter p (map g l) = map g (filter p l).
Proof.
  intros Hg. induction l as [| x l IH]; [reflexivity | ].
  simpl. rewrite Hg, IH. now destruct (p x).
Qed.

Lemma filter_try_map_same {A : Type} (p : A -> option bool) (g : A -> A) (l : list A) :
  (forall a, p (g a) = p a) ->
  filter_try p (map g l) = option_map (map g) (filter_try p l).
Proof.
  intros Hg. induction l as [| x l IH]; [reflexivity | ].
  simpl. rewrite Hg, IH. destruct (p x) as [keep | ]; [ | reflexivity].
  destruct (filter_try p l); simpl; [ | reflexivity]. now destruct keep.
Qed.

(** X21.  An edit of a field that the table neither searches nor sorts nor
    filters by (the documents, as [handleDocumentDelete] does, or the
    identifier) leaves every row of the table in its place: the table of the
    edited rows is the table of the rows, edited.  *)
Theorem quiet_edit_keeps_places toLowerCase (id : string) (e : DriverEdit) localDrivers
    driverSearch activeTab f dir :
  quiet_edit e = true ->
  processedDrivers toLowerCase (handleLocalDriverChange id e localDrivers) driverSearch
                   activeTab f dir
  = option_map (handleLocalDriverChange id e)
               (processedDrivers toLowerCase localDrivers driverSearch activeTab f dir).
Proof.
  intros Hq. unfold handleLocalDriverChange.
  set (g := fun d => if String.eqb (DriverRow.id d) id then apply_edit e d else d).
  assert (Hname : forall d, DriverRow.name (g d) = DriverRow.name d).
  { intros d. unfold g. destruct (String.eqb (DriverRow.id d) id); [ | reflexivity].
    destruct e; try discriminate Hq; reflexivity. }
  assert (Hemail : forall d, DriverRow.email (g d) = DriverRow.email d).
  { intros d. unfold g. destruct (String.eqb (DriverRow.id d) id); [ | reflexivity].
    destruct e; try discriminate Hq; reflexivity. }
  assert (Hstatus : forall d, DriverRow.status (g d) = DriverRow.status d).
  { intros d. unfold g. destruct (String.eqb (DriverRow.id d) id); [ | reflexivity].
    destruct e; try discriminate Hq; reflexivity. }
  assert (Hcmp : forall a b, compare_rows f dir (g a) (g b) = compare_rows f dir a b).
  { intros a b. unfold compare_rows, field_value.
    destruct f; now rewrite ?Hname, ?Hemail. }
  assert (Hpend : forall d, is_pending_row (g d) = is_pending_row d).
  { intros d. unfold is_pending_row. now rewrite Hstatus. }
  unfold processedDrivers. destruct driverSearch as [| c q].
  - simpl. f_equal. destruct (String.eqb activeTab "PENDING").
    + rewrite (filter_map_same is_pending_row g localDrivers Hpend).
      now apply Array_sort_map.
    + now apply Array_sort_map.
  - rewrite filter_try_map_same.
    2:{ intros d. unfold search_matches. now rewrite Hname, Hemail. }
    destruct (filter_try _ localDrivers) as [found | ]; [ | reflexivity].
    simpl. f_equal. destruct (String.eqb activeTab "PENDING").
    + rewrite (filter_map_same is_pending_row g found Hpend).
      now apply Array_sort_map.
    + now apply Array_sort_map.
Qed.

Lemma quiet_edit_keeps_places_witness :
  quiet_edit (edit_documents None) = true
  /\ processedDrivers ascii_lower
                      (handleLocalDriverChange "d2" (edit_documents None) sample_rows)
                      [] "DRIVERS" by_name asc
     = option_map (handleLocalDriverChange "d2" (edit_documents None))
                  (processedDrivers ascii_lower sample_rows [] "DRIVERS" by_name asc).
Proof.
  split; [reflexivity | ].
  exact (quiet_edit_keeps_places ascii_lower "d2" (edit_documents None) sample_rows []
           "DRIVERS" by_name asc eq_refl).
Defined.

(** ** The views of the application *)

Lemma run_invariant (P : App.state -> Prop) (ok : App.event -> bool) :
  (forall s e, ok e = true -> P s -> P (App.step s e)) ->
  forall events s, forallb ok events = true -> P s -> P (App.run events s).
Proof.
  intros Hstep. unfold App.run.
  induction events as [| e events IH]; intros s Hok Hs; [exact Hs | ].
  simpl in *. apply andb_prop in Hok. destruct Hok as [He Hok].
  apply IH; [exact Hok | ]. now apply Hstep.
Qed.

Lemma step_known_view (s : App.state) (e : App.event) :
  known_view s -> known_view (App.step s e).
Proof.
  unfold known_view. intros H.
  destruct e as [role driverId written | removed | tool removed | | v | | | captured loaded];
    simpl.
  - unfold App.handleLogin. destruct role; simpl; [tauto | ].
    destruct (truthy_str driverId); [ | exact H].
    destruct written; simpl; tauto.
  - unfold App.handleLogout. destruct removed; simpl; tauto.
  - unfold App.onToolSelect.
    destruct (String.eqb tool "LOGOUT").
    + unfold App.handleLogout. destruct removed; simpl; tauto.
    + destruct (String.eqb tool "LOGIN"); simpl; tauto.
  - unfold App.logo_click. destruct (App.isLoggedIn s); simpl; tauto.
  - unfold App.onNavigate. destruct (String.eqb v "ADMIN_LOGIN"); simpl; tauto.
  - tauto.
  - tauto.
  - unfold App.initData. destruct loaded; [ | exact H].
    destruct (truthy_str captured); simpl; tauto.
Qed.

(** X14.  Whatever the callbacks that are called, and in whatever order,
    the view is the login or one of the two dashboards: the registration
    screen is never shown.  So the header takes the user as logged in
    exactly when the view is not the login, and a click on its logo changes
    nothing. *)
Theorem App_views (stored : option string) (readable : bool) (events : list App.event) :
  let s := App.run events (App.init stored readable) in
  In (App.currentView s) ["ADMIN_LOGIN"; "ADMIN_DASHBOARD"; "DRIVER_DASHBOARD"]
  /\ App.screen s <> App.DriverRegistration
  /\ App.isLoggedIn s = negb (String.eqb (App.currentView s) "ADMIN_LOGIN")
  /\ App.step s App.LogoClick = s.
Proof.
  intros s.
  assert (H : known_view s).
  { unfold s. apply run_invariant with (ok := fun _ => true).
    - intros s0 e _. apply step_known_view.
    - clear. induction events; simpl; auto.
    - now left. }
  clearbody s. destruct s as [view id session]. unfold known_view in H. simpl in H.
  destruct H as [-> | [-> | ->]]; simpl.
  - split; [tauto | ]. split; [discriminate | ]. split; reflexivity.
  - split; [tauto | ]. split; [discriminate | ]. split; reflexivity.
  - split; [tauto | ]. split; [discriminate | ]. split; reflexivity.
Qed.

Lemma step_session (s : App.state) (e : App.event) :
  App.storage_ok e = true ->
  App.loggedInDriverId s = App.driver_session s ->
  App.loggedInDriverId (App.step s e) = App.driver_session (App.step s e).
Proof.
  intros Hok H.
  destruct e as [role driverId written | removed | tool removed | | v | | | captured loaded];
    simpl in *; subst.
  - unfold App.handleLogin. destruct role; simpl; [exact H | ].
    destruct (truthy_str driverId); [reflexivity | exact H].
  - reflexivity.
  - unfold App.onToolSelect. destruct (String.eqb tool "LOGOUT"); [reflexivity | ].
    destruct (String.eqb tool "LOGIN"); simpl; exact H.
  - unfold App.logo_click. destruct (App.isLoggedIn s); simpl; exact H.
  - unfold App.onNavigate. destruct (String.eqb v "ADMIN_LOGIN"); simpl; exact H.
  - exact H.
  - exact H.
  - unfold App.initData. destruct loaded; [ | exact H].
    destruct (truthy_str captured); simpl; exact H.
Qed.

(** X15.  As long as the storage can be read and takes every write, the
    driver logged in is the driver of the stored session.  Loading the page
    again at that point therefore starts with the same driver, and leads,
    once the data has arrived, to the dashboard of that driver if there is
    one and to the login otherwise, also when the administrator's dashboard
    was shown before. *)
Theorem App_session (stored : option string) (events : list App.event) :
  forallb App.storage_ok events = true ->
  let s := App.run events (App.init stored true) in
  let again := App.init (App.driver_session s) true in
  App.loggedInDriverId s = App.driver_session s
  /\ App.loggedInDriverId again = App.loggedInDriverId s
  /\ App.screen (App.step again (App.DataLoaded (App.loggedInDriverId again) true))
     = match truthy_str (App.loggedInDriverId s) with
       | Some id => App.DriverDashboard id
       | None => App.AdminLogin
       end.
Proof.
  intros Hok s again.
  assert (H : App.loggedInDriverId s = App.driver_session s).
  { unfold s. apply run_invariant with (ok := App.storage_ok).
    - apply step_session.
    - exact Hok.
    - reflexivity. }
  split; [exact H | ]. split; [now rewrite H | ].
  unfold again. simpl. rewrite <- H.
  destruct (truthy_str (App.loggedInDriverId s)) as [id | ] eqn:E.
  - unfold App.screen. simpl. unfold str_or. now rewrite E.
  - reflexivity.
Qed.

Lemma App_session_witness :
  forallb App.storage_ok sample_events = true
  /\ App.loggedInDriverId (App.run sample_events (App.init None true))
     = App.driver_session (App.run sample_events (App.init None true)).
Proof.
  split; [reflexivity | ].
  pose proof (App_session None sample_events eq_refl) as (H & _).
  exact H.
Defined.

(** ** Assigning a driver *)

Lemma NoDup_map_eq {A B : Type} (f : A -> B) (l : list A) (a b : A) :
  NoDup (map f l) -> In a l -> In b l -> f a = f b -> a = b.
Proof.
  induction l as [| x l IH]; intros Hnd Ha Hb E; [destruct Ha | ].
  simpl in Hnd. inversion Hnd as [| ? ? Hx Hl]; subst.
  destruct Ha as [<- | Ha], Hb as [<- | Hb].
  - reflexivity.
  - exfalso. apply Hx. rewrite E. now apply in_map.
  - exfalso. apply Hx. rewrite <- E. now apply in_map.
  - now apply IH.
Qed.

Lemma handleAssignDriver_find (bookingId driverId : string) (drivers : list Driver) :
  driverId <> EmptyString ->
  handleAssignDriver bookingId driverId drivers
  = option_map (fun d => (bookingId, d))
               (find (fun d => String.eqb (driver_id d) driverId) drivers).
Proof.
  intros H. unfold handleAssignDriver. destruct driverId; [congruence | ].
  now destruct (find _ drivers).
Qed.


(** ** Promo codes *)

Lemma ascii_upper_white (s : text) :
  forallb is_white_space s = true -> ascii_upper s = s.
Proof.
  induction s as [| c s IH]; [reflexivity | ].
  simpl. intros H. apply andb_prop in H. destruct H as [Hc Hs].
  rewrite (IH Hs). f_equal.
  destruct (N.leb_spec 97 c) as [H1 | H1]; [ | reflexivity].
  destruct (N.leb_spec c 122) as [H2 | H2]; [ | reflexivity].
  exfalso. revert Hc. unfold is_white_space. simpl existsb.
  repeat (match goal with
          | |- context [N.eqb c ?k] => destruct (N.eqb_spec c k); [lia | ]
          end).
  destruct (N.leb_spec 8192 c); [lia | ]. discriminate.
Defined.



(** ** The range of the figures *)

Lemma Qsum_bounds (l : list Q) (lo hi : Q) :
  Forall (fun q => lo <= q <= hi)%Q l ->
  (lo * inject_Z (Z.of_nat (length l)) <= Qsum l
   /\ Qsum l <= hi * inject_Z (Z.of_nat (length l)))%Q.
Proof.
  induction 1 as [| q l [H1 H2] _ [IH1 IH2]].
  - change (inject_Z (Z.of_nat (length (@nil Q)))) with 0%Q.
    change (Qsum []) with 0%Q. split; lra.
  - change (Qsum (q :: l)) with (q + Qsum l)%Q.
    change (length (q :: l)) with (S (length l)).
    rewrite Nat2Z.inj_succ. unfold Z.succ. rewrite inject_Z_plus.
    change (inject_Z 1) with 1%Q. split; lra.
Qed.

Lemma Qsum_nonneg (l : list Q) : Forall (fun q => 0 <= q)%Q l -> (0 <= Qsum l)%Q.
Proof.
  induction 1 as [| q l H _ IH]; [apply Qle_refl | ].
  change (Qsum (q :: l)) with (q + Qsum l)%Q. lra.
Qed.

Lemma Qsum_integer (l : list Q) :
  Forall (fun q => exists z, q == inject_Z z)%Q l -> exists z, (Qsum l == inject_Z z)%Q.
Proof.
  induction 1 as [| q l [z Hz] _ [y Hy]].
  - exists 0. reflexivity.
  - change (Qsum (q :: l)) with (q + Qsum l)%Q.
    exists (z + y). rewrite inject_Z_plus, Hz, Hy. reflexivity.
Qed.

Lemma round_half_up_between (x : Q) (lo hi : Z) :
  (inject_Z lo <= x <= inject_Z hi)%Q -> lo <= round_half_up x <= hi.
Proof.
  intros [H1 H2]. destruct (round_half_up_nearest x) as [Hlo Hhi].
  assert (A : (inject_Z lo < inject_Z (round_half_up x) + 1)%Q) by lra.
  assert (B : (inject_Z (round_half_up x) < inject_Z hi + 1)%Q) by lra.
  change 1%Q with (inject_Z 1) in A, B.
  rewrite <- inject_Z_plus in A, B. rewrite <- Zlt_Qlt in A, B. lia.
Qed.





(** ** Bookings without a date *)

Lemma in_time_range_has_date LocalTZA now timeRange b :
  clock_in_range now -> timeRange <> ALL ->
  in_time_range LocalTZA now timeRange b = true -> has_date b = true.
Proof.
  intros Hnow Hr H.
  apply (in_time_range_created_within LocalTZA now timeRange b Hnow) in H.
  unfold has_date. destruct timeRange; simpl in H; try congruence;
    destruct H as (t & -> & _); reflexivity.
Qed.

(** X20.  A booking whose creation date is missing or cannot be a date is
    kept under ALL only.  Under TODAY, WEEK and MONTH every booking kept has
    a date, and taking the bookings without a date out of the collection
    changes nothing in the result. *)
Theorem undated_only_under_ALL LocalTZA toLocaleDateString now bookings drivers settings
    timeRange :
  clock_in_range now ->
  filteredBookings LocalTZA now ALL bookings = bookings
  /\ (timeRange <> ALL ->
      Forall (fun b => exists t, newDate (createdAt b) = Some t)
             (filteredBookings LocalTZA now timeRange bookings)
      /\ analytics LocalTZA toLocaleDateString now (filter has_date bookings) drivers
                   settings timeRange
         = analytics LocalTZA toLocaleDateString now bookings drivers settings timeRange).
Proof.
  intros Hnow. split; [apply filter_all_true | ]. intros Hr.
  assert (Hsame : filteredBookings LocalTZA now timeRange (filter has_date bookings)
                  = filteredBookings LocalTZA now timeRange bookings).
  { unfold filteredBookings. apply filter_filter_narrow.
    intros b. now apply in_time_range_has_date. }
  split.
  - apply Forall_forall. intros b Hb. unfold filteredBookings in Hb.
    apply filter_In in Hb. destruct Hb as [_ Hb].
    apply (in_time_range_has_date LocalTZA now timeRange b Hnow Hr) in Hb.
    unfold has_date in Hb. destruct (newDate (createdAt b)) as [t | ]; [ | discriminate Hb].
    now exists t.
  - unfold analytics. now rewrite Hsame.
Qed.

Lemma undated_only_under_ALL_witness :
  clock_in_range sample_now
  /\ Summary.totalBookings
       (analytics utc utc_day_month sample_now
                  [mkBooking None "CONFIRMED" (price_of 100) None None None] [] None WEEK)
     = 0%nat.
Proof.
  split; [exact sample_clock_in_range | ].
  pose proof (undated_only_under_ALL utc utc_day_month sample_now
                [mkBooking None "CONFIRMED" (price_of 100) None None None] [] None WEEK
                sample_clock_in_range) as (_ & H).
  destruct (H ltac:(discriminate)) as [_ <-]. reflexivity.
Defined.
